(** * qbhub-client: answer judging, scoring and the tossup reader

    A shallow embedding of the quiz-bowl reader core.

    Part I, the model:
    - [Js]         : the string operations of JavaScript that the code uses
    - [Scoring]    : [getTossupScore], [getBonusScore]   (utils/reader.tsx)
    - [Similarity] : [compareTwoStrings], [findBestMatch] (npm
                     string-similarity, called by [checkAnswer])
    - [Judging]    : [checkAnswer], [Judge.judge]        (utils/reader.tsx)
    - [Reader]     : the reducers of [tossupReaderSlice] and the life cycle
                     of the [nextTossup] thunk
    - [Nlp]        : the interface to the language library (npm compromise)
    - [Normalizer] : [normalizeAnswer], [convertNumberToWords], [toWords]
                     (utils/reader.tsx, utils/string, npm number-to-words)
    - [Parser]     : [cleanAnswerline], [filterNegativeAnswers],
                     [parseAcceptableAnswers], [parsePromptableAnswers]
                     (utils/reader.tsx)
    - [Reference]  : an instance of [Nlp] for concrete answer lines
    - [Strings]    : [shuffleString], [removeExtraSpaces],
                     [cleanTossupText]                   (utils/string)
    - [Display]    : [getPowerIndex], [renderQuestion]   (utils/reader.tsx)
    - [Question]   : [getWords] and the text read so far (the question
                     component)
    - [Fetch]      : [combineParams], [createParamsFromArray],
                     [createParams]                      (utils/fetch)
    - [Settings]   : the change handlers of the settings dialog
    - [JudgeSession] : the constructor of [Judge] and a judge in use

    Part II, the properties, module by module.

    JavaScript strings are sequences of UTF-16 code units; the embedding
    represents a string as a list of [ascii], read as the code units 0..255
    (Latin-1).  JavaScript numbers that only ever hold small integers are
    [Z]; similarity ratings, quotients of two small naturals compared with
    the constant 0.6, are exact rationals [Q].  A call that can throw
    returns an [option]. *)

From Stdlib Require Import Ascii String List ZArith QArith Bool Lia Arith.
From Stdlib Require Import Permutation.
Import ListNotations.

Close Scope Q_scope.
Open Scope list_scope.
Open Scope bool_scope.

(* ===================================================================== *)
(** * Part I: the model                                                   *)
(* ===================================================================== *)

(** ** JavaScript strings *)

Module Js.

Definition jsstring := list ascii.

(** A string literal. *)
Definition str (s : string) : jsstring := list_ascii_of_string s.

Definition code (c : ascii) : nat := nat_of_ascii c.

Definition char_eqb (a b : ascii) : bool := Ascii.eqb a b.

Fixpoint str_eqb (a b : jsstring) : bool :=
  match a, b with
  | [], [] => true
  | x :: a', y :: b' => char_eqb x y && str_eqb a' b'
  | _, _ => false
  end.

(** The class [\s] of a regular expression, within code units 0..255:
    tab, line feed, vertical tab, form feed, carriage return, space and
    the no-break space. *)
Definition is_space (c : ascii) : bool :=
  let n := code c in
  ((9 <=? n) && (n <=? 13)) || (n =? 32) || (n =? 160).

(** Line terminators, which [.] does not match: line feed and carriage
    return (U+2028 and U+2029 lie outside the modelled range). *)
Definition is_line_terminator (c : ascii) : bool :=
  let n := code c in (n =? 10) || (n =? 13).

(** [\d] *)
Definition is_digit (c : ascii) : bool :=
  let n := code c in (48 <=? n) && (n <=? 57).

Definition is_upper (c : ascii) : bool :=
  let n := code c in (65 <=? n) && (n <=? 90).

Definition is_lower (c : ascii) : bool :=
  let n := code c in (97 <=? n) && (n <=? 122).

(** [s.replace(/\s+/g, '')] *)
Definition remove_spaces (s : jsstring) : jsstring :=
  filter (fun c => negb (is_space c)) s.

(** [s.startsWith(p)] *)
Fixpoint prefixb (p s : jsstring) : bool :=
  match p, s with
  | [], _ => true
  | x :: p', y :: s' => char_eqb x y && prefixb p' s'
  | _ :: _, [] => false
  end.

(** [s.includes(sub)] *)
Fixpoint includes (s sub : jsstring) : bool :=
  prefixb sub s
  || match s with
     | [] => false
     | _ :: s' => includes s' sub
     end.

(** [s.endsWith(suffix, endPosition)]: whether the first [endPosition]
    code units of [s] end with [suffix]. *)
Definition endsWith (s suffix : jsstring) (endPosition : nat) : bool :=
  prefixb (rev suffix) (rev (firstn endPosition s)).

(** [s.split(sep)] for a one-character separator; the empty string splits
    into one empty piece. *)
Fixpoint split_on (sep : ascii) (s : jsstring) : list jsstring :=
  match s with
  | [] => [[]]
  | c :: s' =>
      if char_eqb c sep then [] :: split_on sep s'
      else match split_on sep s' with
           | [] => [[c]]
           | w :: ws => (c :: w) :: ws
           end
  end.

(** [pieces.join(sep)] *)
Fixpoint join (sep : jsstring) (pieces : list jsstring) : jsstring :=
  match pieces with
  | [] => []
  | [w] => w
  | w :: ws => w ++ sep ++ join sep ws
  end.

(** [toLowerCase] on one code unit below 256: the capitals A-Z and the
    Latin-1 capitals U+00C0..U+00DE other than the multiplication sign. *)
Definition toLowerChar (c : ascii) : ascii :=
  let n := code c in
  if is_upper c || ((192 <=? n) && (n <=? 222) && negb (n =? 215))
  then ascii_of_nat (n + 32)
  else c.

Definition toLowerCase (s : jsstring) : jsstring := map toLowerChar s.

(** The last position at which [sub] occurs in [s], positions counted
    from [i]; [found] when it occurs nowhere. *)
Fixpoint lastIndexOf_from (sub s : jsstring) (i : nat) (found : Z) : Z :=
  let found := if prefixb sub s then Z.of_nat i else found in
  match s with
  | [] => found
  | _ :: s' => lastIndexOf_from sub s' (S i) found
  end.

(** [s.lastIndexOf(sub)] for a non-empty [sub]; -1 when [sub] does not
    occur. *)
Definition lastIndexOf (s sub : jsstring) : Z :=
  lastIndexOf_from sub s 0 (-1)%Z.

(** [s.lastIndexOf(sub, fromIndex)]: the last occurrence that starts at or
    before [fromIndex]. *)
Definition lastIndexOf_upto (s sub : jsstring) (fromIndex : nat) : Z :=
  lastIndexOf (firstn (fromIndex + length sub) s) sub.

(** [s.slice(start, end)] for an integer [start] and a natural [end]; a
    negative [start] counts from the end of the string. *)
Definition slice (s : jsstring) (start : Z) (end_ : nat) : jsstring :=
  let len := Z.of_nat (length s) in
  let from := Z.to_nat (if (start <? 0)%Z then Z.max (len + start) 0
                        else Z.min start len) in
  let to := Nat.min end_ (length s) in
  firstn (to - from) (skipn from s).

End Js.
Import Js.

(** ** Scoring (utils/reader.tsx, types/tossupReader.ts) *)

Module Scoring.

(** [enum TossupScore].  The declaration in types/tossupReader.ts lists
    [neg = -5], [ten = 10] and [power = 15]; [getTossupScore] also uses a
    member [incorrect]. *)
Inductive TossupScore := neg | incorrect | ten | power.

(** Modelled from the spec: the value of [TossupScore.incorrect], which the
    enum declaration among the sources does not list; the spec gives zero
    for an incorrect answer after the final word. *)
Definition TossupScore_incorrect : Z := 0.

Definition TossupScore_value (s : TossupScore) : Z :=
  match s with
  | neg => -5
  | incorrect => TossupScore_incorrect
  | ten => 10
  | power => 15
  end.

Definition getTossupScore (isCorrect isInPower didBuzzAtEnd : bool)
  : TossupScore :=
  if isCorrect then (if isInPower then power else ten)
  else (if didBuzzAtEnd then incorrect else neg).

(** [enum BonusScore] of types/bonus, by the member names the code uses. *)
Inductive BonusScore := thirty | twenty | bonus_ten | zero.

(** Modelled from the spec: the numeric values of [BonusScore] (types/bonus
    is not among the sources); the spec fixes the totals 0, 10, 20, 30. *)
Definition BonusScore_value (s : BonusScore) : Z :=
  match s with
  | thirty => 30
  | twenty => 20
  | bonus_ten => 10
  | zero => 0
  end.

(** [BonusPartResult]: the one field [getBonusScore] reads. *)
Record BonusPartResult := { isCorrect : bool }.

Definition correctCount (results : list BonusPartResult) : Z :=
  fold_left (fun acc res => (acc + (if isCorrect res then 1 else 0))%Z)
            results 0%Z.

Definition getBonusScore (results : list BonusPartResult) : BonusScore :=
  let n := correctCount results in
  if (n =? 3)%Z then thirty
  else if (n =? 2)%Z then twenty
  else if (n =? 1)%Z then bonus_ten
  else zero.

End Scoring.

(** ** String similarity (npm string-similarity 4.x) *)

Module Similarity.

(** [rating > MIN_RATING] on rationals. *)
Definition Qgtb (x y : Q) : bool := negb (Qle_bool x y).

(** The [Map] from bigram to count of [compareTwoStrings]. *)
Definition BigramMap := list (jsstring * nat).

Fixpoint map_get (k : jsstring) (m : BigramMap) : option nat :=
  match m with
  | [] => None
  | (k', v) :: m' => if str_eqb k k' then Some v else map_get k m'
  end.

Fixpoint map_set (k : jsstring) (v : nat) (m : BigramMap) : BigramMap :=
  match m with
  | [] => [(k, v)]
  | (k', v') :: m' =>
      if str_eqb k k' then (k, v) :: m' else (k', v') :: map_set k v m'
  end.

(** [s.substring(i, i + 2)] for [i] from 0 to [s.length - 2]. *)
Fixpoint bigrams (s : jsstring) : list jsstring :=
  match s with
  | a :: ((b :: _) as s') => [a; b] :: bigrams s'
  | _ => []
  end.

Definition firstBigrams (first : jsstring) : BigramMap :=
  fold_left
    (fun m bigram =>
       let count := match map_get bigram m with
                    | Some c => c + 1
                    | None => 1
                    end in
       map_set bigram count m)
    (bigrams first) [].

Definition intersectionSize (first second : jsstring) : nat :=
  snd (fold_left
         (fun (st : BigramMap * nat) bigram =>
            let (m, n) := st in
            let count := match map_get bigram m with
                         | Some c => c
                         | None => 0
                         end in
            if 0 <? count then (map_set bigram (count - 1) m, n + 1)
            else (m, n))
         (bigrams second) (firstBigrams first, 0)).

(** Dice's coefficient over bigrams.  The quotient is taken in [Q]: for
    strings shorter than 2^50 code units the double-precision quotient
    exceeds the double 0.6 exactly when the rational one exceeds 3/5. *)
Definition compareTwoStrings (first second : jsstring) : Q :=
  let first := remove_spaces first in
  let second := remove_spaces second in
  if str_eqb first second then 1%Q
  else if (length first <? 2) || (length second <? 2) then 0%Q
  else
    (Z.of_nat (2 * intersectionSize first second)
       # Pos.of_nat (length first + length second - 2))%Q.

Record Rating := { target : jsstring; rating : Q }.

(** The result object of [findBestMatch]; [checkAnswer] builds one with a
    [bestMatch] that carries a rating and no target. *)
Record BestMatch := {
  ratings : list Rating;
  bestMatch_target : option jsstring;
  bestMatch_rating : Q;
  bestMatchIndex : Z
}.

Definition dummy_rating : Rating := {| target := []; rating := 0%Q |}.

(** One turn of the loop of [findBestMatch]: push the rating of the
    current target, then move [bestMatchIndex] when the rating is strictly
    greater than the rating stored at [bestMatchIndex]. *)
Definition findBestMatch_step (mainString : jsstring)
           (st : list Rating * nat) (currentTargetString : jsstring)
  : list Rating * nat :=
  let (rs, best) := st in
  let i := length rs in
  let currentRating := compareTwoStrings mainString currentTargetString in
  let rs' := rs ++ [{| target := currentTargetString;
                       rating := currentRating |}] in
  (rs', if Qgtb currentRating (rating (nth best rs' dummy_rating))
        then i else best).

(** [findBestMatch]; [None] stands for the [Error('Bad arguments ...')]
    thrown on an empty array of targets. *)
Definition findBestMatch (mainString : jsstring)
           (targetStrings : list jsstring) : option BestMatch :=
  match targetStrings with
  | [] => None
  | _ =>
      let (rs, best) :=
        fold_left (findBestMatch_step mainString) targetStrings ([], 0) in
      let bm := nth best rs dummy_rating in
      Some {| ratings := rs;
              bestMatch_target := Some (target bm);
              bestMatch_rating := rating bm;
              bestMatchIndex := Z.of_nat best |}
  end.

End Similarity.

(** ** The judge (utils/reader.tsx) *)

Module Judging.
Import Similarity.

(** [enum JudgeResult] of types/tossups, by the members the code uses. *)
Inductive JudgeResult := correct | incorrect | prompt.

Definition emptyMatch : BestMatch :=
  {| ratings := [];
     bestMatch_target := None;
     bestMatch_rating := 0%Q;
     bestMatchIndex := (-1)%Z |}.

Definition checkAnswer (userAnswer : jsstring) (answers : list jsstring)
  : BestMatch :=
  if length answers =? 0 then emptyMatch
  else match findBestMatch userAnswer answers with
       | Some m => m
       | None => emptyMatch (* findBestMatch throws on [] only *)
       end.

(** [arr.splice(start, 1)] for an integer [start]: a negative start counts
    from the end, a start past the end removes nothing. *)
Definition splice1 {A} (arr : list A) (start : Z) : list A :=
  let len := Z.of_nat (length arr) in
  let from := if (start <? 0)%Z then Z.max (len + start) 0
              else Z.min start len in
  let i := Z.to_nat from in
  firstn i arr ++ skipn (S i) arr.

(** The two fields of a [Judge]; the constructor fills them with two
    distinct arrays, so removing from one leaves the other alone. *)
Record Judge := {
  acceptableAnswers : list jsstring;
  promptableAnswers : list jsstring
}.

Definition MIN_RATING : Q := (6 # 10)%Q.

(** [Judge.judge]: the verdict and the judge after the call. *)
Definition judge (this : Judge) (userAnswer : jsstring)
  : JudgeResult * Judge :=
  let ratings := checkAnswer userAnswer (acceptableAnswers this) in
  if Qgtb (bestMatch_rating ratings) MIN_RATING then (correct, this)
  else if 0 <? length (promptableAnswers this) then
    let ratings := checkAnswer userAnswer (promptableAnswers this) in
    if Qgtb (bestMatch_rating ratings) MIN_RATING then
      (prompt,
       {| acceptableAnswers := acceptableAnswers this;
          promptableAnswers :=
            splice1 (promptableAnswers this) (bestMatchIndex ratings) |})
    else (incorrect, this)
  else (incorrect, this).

End Judging.

(** ** The tossup reader slice (tossupReaderSlice) *)

Module Reader.
Import Scoring.

Inductive ReaderStatus :=
  idle | fetching | reading | answering | prompting | judged | empty.

Definition ReaderStatus_eqb (a b : ReaderStatus) : bool :=
  match a, b with
  | idle, idle | fetching, fetching | reading, reading
  | answering, answering | prompting, prompting | judged, judged
  | empty, empty => true
  | _, _ => false
  end.

(** [Category], [Subcategory] and [Difficulty] are numeric enums of
    types/questions; only their identity matters here. *)
Definition Category := nat.
Definition Subcategory := nat.
Definition Difficulty := nat.

Record Tossup := {
  text : jsstring;
  answer : jsstring;
  formattedText : jsstring;
  formattedAnswer : jsstring;
  category : Category;
  subcategory : Subcategory;
  difficulty : Difficulty;
  tournament : jsstring
}.

Record TossupReaderWord := {
  original : jsstring;
  shuffled : jsstring;
  isInPower : bool
}.

Record TossupBuzz := {
  isPower : bool;
  readText : jsstring;
  index : Z;
  textWithBuzz : list TossupReaderWord
}.

Record TossupResult := {
  tossup : Tossup;
  isCorrect : bool;
  submittedAnswer : jsstring;
  score : TossupScore;
  buzz_of : TossupBuzz
}.

(** [currentTossup] and [currentResult] are [None] where the code holds
    the placeholder [{}] (or [undefined], after destructuring an empty
    queue). *)
Record TossupReaderState := {
  status : ReaderStatus;
  tossups : list Tossup;
  results : list TossupResult;
  currentTossup : option Tossup;
  currentResult : option TossupResult;
  currentBuzz : TossupBuzz;
  total : Z (* the field [score] *)
}.

Definition initialState : TossupReaderState :=
  {| status := idle;
     tossups := [];
     results := [];
     total := 0;
     currentTossup := None;
     currentResult := None;
     currentBuzz := {| isPower := false; readText := []; index := 0;
                       textWithBuzz := [] |} |}.

Definition set_status (s : TossupReaderState) (st : ReaderStatus) :=
  {| status := st; tossups := tossups s; results := results s;
     currentTossup := currentTossup s; currentResult := currentResult s;
     currentBuzz := currentBuzz s; total := total s |}.

Definition set_tossups (s : TossupReaderState) (ts : list Tossup) :=
  {| status := status s; tossups := ts; results := results s;
     currentTossup := currentTossup s; currentResult := currentResult s;
     currentBuzz := currentBuzz s; total := total s |}.

(** *** reducers *)

Definition buzz (state : TossupReaderState) : TossupReaderState :=
  if ReaderStatus_eqb (status state) reading
  then set_status state answering
  else state.

Definition setBuzz (state : TossupReaderState) (payload : TossupBuzz) :=
  {| status := status state; tossups := tossups state;
     results := results state; currentTossup := currentTossup state;
     currentResult := currentResult state;
     currentBuzz := payload; total := total state |}.

Definition prompt (state : TossupReaderState) : TossupReaderState :=
  if existsb (ReaderStatus_eqb (status state)) [answering; prompting]
  then set_status state prompting
  else state.

(** [results.unshift(payload)] puts the payload at index 0. *)
Definition submitAnswer (state : TossupReaderState) (payload : TossupResult)
  : TossupReaderState :=
  if ReaderStatus_eqb (status state) answering
     || ReaderStatus_eqb (status state) prompting
  then {| status := judged;
          tossups := tossups state;
          results := payload :: results state;
          currentTossup := currentTossup state;
          currentResult := Some payload;
          currentBuzz := currentBuzz state;
          total := (total state + TossupScore_value (score payload))%Z |}
  else state.

Definition filterTossupsByCategory (state : TossupReaderState)
           (payload : list Category) :=
  set_tossups state
    (filter (fun tu => existsb (Nat.eqb (category tu)) payload)
            (tossups state)).

Definition filterTossupsBySubcategory (state : TossupReaderState)
           (payload : list Subcategory) :=
  set_tossups state
    (filter (fun tu => existsb (Nat.eqb (subcategory tu)) payload)
            (tossups state)).

Definition filterTossupsByDifficulties (state : TossupReaderState)
           (payload : list Difficulty) :=
  set_tossups state
    (filter (fun tu => existsb (Nat.eqb (difficulty tu)) payload)
            (tossups state)).

(** *** extraReducers *)

Definition fetchTossups_fulfilled (state : TossupReaderState)
           (payload : list Tossup) :=
  set_tossups state (tossups state ++ payload).

Definition nextTossup_pending (state : TossupReaderState) :=
  set_status state fetching.

(** [state.tossups.shift(); [state.currentTossup] = state.tossups]:
    the head of the queue is dropped and the next element, when there is
    one, becomes current. *)
Definition nextTossup_fulfilled (state : TossupReaderState) :=
  if length (tossups state) =? 0 then set_status state empty
  else
    let rest := tl (tossups state) in
    {| status := reading;
       tossups := rest;
       results := results state;
       currentTossup := hd_error rest;
       currentResult := None;
       currentBuzz := currentBuzz state;
       total := total state |}.

(** The [condition] option of the [nextTossup] thunk. *)
Definition nextTossup_condition (state : TossupReaderState) : bool :=
  existsb (ReaderStatus_eqb (status state)) [idle; judged].

(** *** the store *)

(** Actions that reach the reducer directly. *)
Inductive Action :=
| Buzz
| SetBuzz (b : TossupBuzz)
| Prompt
| SubmitAnswer (r : TossupResult)
| FilterTossupsByCategory (cs : list Category)
| FilterTossupsBySubcategory (cs : list Subcategory)
| FilterTossupsByDifficulties (ds : list Difficulty)
| FetchTossupsFulfilled (ts : list Tossup).

Definition reducer (state : TossupReaderState) (a : Action) :=
  match a with
  | Buzz => buzz state
  | SetBuzz b => setBuzz state b
  | Prompt => prompt state
  | SubmitAnswer r => submitAnswer state r
  | FilterTossupsByCategory cs => filterTossupsByCategory state cs
  | FilterTossupsBySubcategory cs => filterTossupsBySubcategory state cs
  | FilterTossupsByDifficulties ds => filterTossupsByDifficulties state ds
  | FetchTossupsFulfilled ts => fetchTossups_fulfilled state ts
  end.

(** The slice together with the number of [nextTossup] thunks whose
    [pending] action has been dispatched and whose [fulfilled] or
    [rejected] action has not. *)
Record Store := { state : TossupReaderState; inFlight : nat }.

Definition initialStore : Store :=
  {| state := initialState; inFlight := 0 |}.

(** The life cycle createAsyncThunk gives [nextTossup]: the thunk starts
    only where [condition] holds and dispatches [pending] at once; a
    started thunk later dispatches [fulfilled], or [rejected], for which
    the slice has no case. *)
Inductive step : Store -> Store -> Prop :=
| step_action : forall st a,
    step st {| state := reducer (state st) a; inFlight := inFlight st |}
| step_next_pending : forall st,
    nextTossup_condition (state st) = true ->
    step st {| state := nextTossup_pending (state st);
               inFlight := S (inFlight st) |}
| step_next_fulfilled : forall st n,
    inFlight st = S n ->
    step st {| state := nextTossup_fulfilled (state st); inFlight := n |}
| step_next_rejected : forall st n,
    inFlight st = S n ->
    step st {| state := state st; inFlight := n |}.

Inductive reachable : Store -> Prop :=
| reachable_init : reachable initialStore
| reachable_step : forall st st',
    reachable st -> step st st' -> reachable st'.

(** The status transitions of the reader's life cycle:
    idle -> fetching -> reading -> answering | prompting -> judged ->
    idle | fetching, with [empty] entered from [fetching]. *)
Definition legal (a b : ReaderStatus) : bool :=
  match a, b with
  | idle, fetching
  | judged, idle
  | judged, fetching
  | fetching, reading
  | fetching, empty
  | reading, answering
  | answering, prompting
  | prompting, prompting
  | answering, judged
  | prompting, judged => true
  | _, _ => false
  end.

End Reader.

(** ** Third-party natural-language processing (npm compromise)

    [normalizeAnswer] and [removeFirstNames] call the compromise library,
    whose results depend on its lexicon.  The library is an interface of the
    model: [normalize_light s] stands for [nlp(s).normalize('light').text()]
    and [removeFirstNames] for the helper of utils/string built on it. *)

Class Nlp := {
  normalize_light : jsstring -> jsstring;
  removeFirstNames : jsstring -> jsstring
}.

(** ** The text normalizer (utils/reader.tsx, utils/string, utils/regex) *)

Module Normalizer.

(** [s.replace(/\s+/g, ' ')]: every run of whitespace becomes one blank;
    [after_space] tells that the run has begun. *)
Fixpoint collapse_spaces (after_space : bool) (s : jsstring) : jsstring :=
  match s with
  | [] => []
  | c :: s' =>
      if is_space c then
        if after_space then collapse_spaces true s'
        else " "%char :: collapse_spaces true s'
      else c :: collapse_spaces false s'
  end.

(** [s.trimStart()], [s.trimEnd()] *)
Fixpoint trimStart (s : jsstring) : jsstring :=
  match s with
  | [] => []
  | c :: s' => if is_space c then trimStart s' else s
  end.

Fixpoint trimEnd (s : jsstring) : jsstring :=
  match s with
  | [] => []
  | c :: s' =>
      match trimEnd s' with
      | [] => if is_space c then [] else [c]
      | r => c :: r
      end
  end.

(** [s.trim()] *)
Definition trim (s : jsstring) : jsstring := trimEnd (trimStart s).

(** Modelled from the spec: [normalizeSpacing] of utils/string (not among
    the sources), "whitespace-collapsed": [s.replace(/\s+/g, ' ').trim()]. *)
Definition normalizeSpacing (s : jsstring) : jsstring :=
  trim (collapse_spaces false s).

Definition is_alphanumeric (c : ascii) : bool :=
  is_digit c || is_upper c || is_lower c.

(** Modelled from the spec: [removeNonAlphanumeric] of utils/regex (not
    among the sources), "punctuation-stripped": letters, digits and
    whitespace are kept and every other code unit is dropped. *)
Definition removeNonAlphanumeric (s : jsstring) : jsstring :=
  filter (fun c => is_alphanumeric c || is_space c) s.

(** Modelled from the spec: the constant [quotes] of utils/regex (not among
    the sources): the quotation marks, of which the double and the single
    quote lie in the modelled range. *)
Definition is_quote (c : ascii) : bool :=
  (code c =? 34) || (code c =? 39).

(** [s.replaceAll(quotes, '')] *)
Definition removeQuotes (s : jsstring) : jsstring :=
  filter (fun c => negb (is_quote c)) s.

(** The text behind an optional minus sign. *)
Definition unsigned_part (s : jsstring) : jsstring :=
  match s with
  | "-"%char :: r => r
  | _ => s
  end.

(** [isNumeric]: [/^-?\d+$/.test(s)] *)
Definition isNumeric (s : jsstring) : bool :=
  let digits := unsigned_part s in
  negb (length digits =? 0) && forallb is_digit digits.

(** *** npm number-to-words 1.2: [toWords], transcribed *)

Definition LESS_THAN_TWENTY : list jsstring :=
  map str ["zero"; "one"; "two"; "three"; "four"; "five"; "six"; "seven";
           "eight"; "nine"; "ten"; "eleven"; "twelve"; "thirteen";
           "fourteen"; "fifteen"; "sixteen"; "seventeen"; "eighteen";
           "nineteen"]%string.

Definition TENTHS_LESS_THAN_HUNDRED : list jsstring :=
  map str ["zero"; "ten"; "twenty"; "thirty"; "forty"; "fifty"; "sixty";
           "seventy"; "eighty"; "ninety"]%string.

Definition MAX_SAFE_INTEGER : Z := 9007199254740991.

(** [s.replace(/,$/, '')] *)
Definition dropFinalComma (s : jsstring) : jsstring :=
  match rev s with
  | ","%char :: r => rev r
  | _ => s
  end.

(** [generateWords(number, words)]; [words = None] is the call without the
    second argument.  The recursion is on a number that shrinks at every
    call; [fuel] bounds its depth. *)
Fixpoint generateWords (fuel : nat) (number : Z)
         (words : option (list jsstring)) : jsstring :=
  match fuel with
  | O => []
  | S fuel =>
      if (number =? 0)%Z then
        match words with
        | None => str "zero"
        | Some ws => dropFinalComma (join (str " ") ws)
        end
      else
        let ws := match words with None => [] | Some ws => ws end in
        let ws := if (number <? 0)%Z then ws ++ [str "minus"] else ws in
        let number := Z.abs number in
        let scale (unit : Z) (name : string) :=
          ((generateWords fuel (number / unit) None ++ str name)%list,
           (number mod unit)%Z) in
        let '(word, remainder) :=
          if (number <? 20)%Z then
            (nth (Z.to_nat number) LESS_THAN_TWENTY [], 0%Z)
          else if (number <? 100)%Z then
            let remainder := (number mod 10)%Z in
            let word :=
              nth (Z.to_nat (number / 10)) TENTHS_LESS_THAN_HUNDRED [] in
            if (remainder =? 0)%Z then (word, 0%Z)
            else (word ++ str "-"
                       ++ nth (Z.to_nat remainder) LESS_THAN_TWENTY [],
                  0%Z)
          else if (number <? 1000)%Z then scale 100%Z " hundred"%string
          else if (number <? 1000000)%Z then scale 1000%Z " thousand,"%string
          else if (number <? 1000000000)%Z then
            scale 1000000%Z " million,"%string
          else if (number <? 1000000000000)%Z then
            scale 1000000000%Z " billion,"%string
          else if (number <? 1000000000000000)%Z then
            scale 1000000000000%Z " trillion,"%string
          else scale 1000000000000000%Z " quadrillion,"%string in
        generateWords fuel remainder (Some (ws ++ [word]))
  end.

Definition digit_value (c : ascii) : Z := Z.of_nat (code c - 48).

(** [parseInt(s, 10)] on a string of the shape [-?\d+], as an exact
    integer. *)
Definition parseInt (s : jsstring) : Z :=
  let value digits :=
    fold_left (fun acc c => (10 * acc + digit_value c)%Z) digits 0%Z in
  match s with
  | "-"%char :: r => (- value r)%Z
  | _ => value s
  end.

(** [toWords(s)]; [None] stands for the [RangeError] raised when the number
    is not a safe integer.  A decimal numeral beyond 2^53 - 1 parses to a
    double of magnitude at least 2^53, so the test on the exact integer
    decides as the test on the double does. *)
Definition toWords (s : jsstring) : option jsstring :=
  let num := parseInt s in
  if (Z.abs num <=? MAX_SAFE_INTEGER)%Z
  then Some (generateWords 64 num None)
  else None.

(** [arr.map(f)] for an [f] that may throw. *)
Fixpoint mapM {A B} (f : A -> option B) (l : list A) : option (list B) :=
  match l with
  | [] => Some []
  | x :: l' =>
      match f x with
      | None => None
      | Some y =>
          match mapM f l' with
          | None => None
          | Some ys => Some (y :: ys)
          end
      end
  end.

(** [convertNumberToWords] (utils/string) *)
Definition convertNumberToWords (s : jsstring) : option jsstring :=
  match mapM (fun w => if isNumeric w then toWords w else Some w)
             (split_on " "%char s) with
  | Some ws => Some (join (str " ") ws)
  | None => None
  end.

(** [normalizeAnswer]; [None] when [toWords] throws. *)
Definition normalizeAnswer `{Nlp} (s : jsstring) : option jsstring :=
  match convertNumberToWords (removeQuotes (normalize_light s)) with
  | Some t =>
      Some (normalizeSpacing (removeNonAlphanumeric (toLowerCase t)))
  | None => None
  end.

End Normalizer.

(** ** The answerline parser (utils/reader.tsx, utils/regex, utils/array) *)

Module Parser.
Import Normalizer.

(** A [RegExpExecArray]: [index], the matched text [0] and the capture
    group [1]; [input] is passed along separately. *)
Record Match := { m_index : nat; m_text : jsstring; m_group : jsstring }.

(** A regular expression as its matcher at one position: given the input
    from that position on, the length of the match and the text of capture
    group 1.  All the expressions below match at least one code unit. *)
Definition Matcher := jsstring -> option (nat * jsstring).

(** [Array.from(s.matchAll(r))] for a global [r]: the leftmost match, then
    the search goes on behind it.  [skip] counts the code units that still
    belong to the previous match. *)
Fixpoint matchAll_from (r : Matcher) (skip idx : nat) (s : jsstring)
  : list Match :=
  match s with
  | [] => []
  | _ :: s' =>
      match skip with
      | S k => matchAll_from r k (S idx) s'
      | O =>
          match r s with
          | Some (len, group) =>
              {| m_index := idx; m_text := firstn len s; m_group := group |}
                :: matchAll_from r (len - 1) (S idx) s'
          | None => matchAll_from r 0 (S idx) s'
          end
      end
  end.

Definition matchAll (s : jsstring) (r : Matcher) : list Match :=
  matchAll_from r 0 0 s.

(** [getCaptureGroups] (utils/regex): capture group 1 of every match. *)
Definition getCaptureGroups (s : jsstring) (r : Matcher) : list jsstring :=
  map m_group (matchAll s r).

(** [s.replaceAll(r, '')] for a global [r]. *)
Fixpoint removeAll_from (r : Matcher) (skip : nat) (s : jsstring)
  : jsstring :=
  match s with
  | [] => []
  | c :: s' =>
      match skip with
      | S k => removeAll_from r k s'
      | O =>
          match r s with
          | Some (len, _) => removeAll_from r (len - 1) s'
          | None => c :: removeAll_from r 0 s'
          end
      end
  end.

(** [remove] (utils/regex) *)
Definition remove (s : jsstring) (r : Matcher) : jsstring :=
  removeAll_from r 0 s.

(** The lazy [.*?] followed by the literal [close]: the shortest run of
    code units other than line terminators after which [close] stands. *)
Fixpoint lazy_until (close s : jsstring) : option jsstring :=
  if prefixb close s then Some []
  else match s with
       | [] => None
       | c :: s' =>
           if is_line_terminator c then None
           else option_map (cons c) (lazy_until close s')
       end.

(** An opening literal, a lazy capture and a closing literal. *)
Definition delimited (open close : jsstring) : Matcher :=
  fun s =>
    if prefixb open s then
      match lazy_until close (skipn (length open) s) with
      | Some group =>
          Some (length open + length group + length close, group)
      | None => None
      end
    else None.

(** Modelled from the spec: the constant [ltgt] of utils/regex (not among
    the sources), the "author/editorial metadata enclosed in angle-bracket
    style annotations" that [cleanAnswerline] removes: [/&lt;.*?&gt;/g]. *)
Definition ltgt : Matcher := delimited (str "&lt;") (str "&gt;").

(** Modelled from the spec: the constant [anyTag] of utils/regex (not
    among the sources), any markup tag: [/<.*?>/g]. *)
Definition anyTag : Matcher := delimited (str "<") (str ">").

(** Modelled from the spec: [betweenTags] of utils/regex (not among the
    sources), the text between an opening and a closing tag [t]:
    [<t>(.*?)</t>]. *)
Definition betweenTags (t : jsstring) : Matcher :=
  delimited (str "<" ++ t ++ str ">") (str "</" ++ t ++ str ">").

(** Modelled from the spec: [removeTags] of utils/regex (not among the
    sources): "strip remaining markup", [remove(s, anyTag)]. *)
Definition removeTags (s : jsstring) : jsstring := remove s anyTag.

(** [getTextBetweenTags] (utils/string) *)
Definition getTextBetweenTags (text t : jsstring) : list jsstring :=
  getCaptureGroups text (betweenTags t).

(** [/\((?!accept|or|prompt).*?\)/g], the parenthesized asides that
    [cleanAnswerline] removes. *)
Definition aside : Matcher :=
  fun s =>
    match s with
    | "("%char :: r =>
        if prefixb (str "accept") r || prefixb (str "or") r
           || prefixb (str "prompt") r
        then None
        else match lazy_until (str ")") r with
             | Some group => Some (length group + 2, group)
             | None => None
             end
    | _ => None
    end.

(** [s.replaceAll(a, b)] for single code units. *)
Definition replaceChar (a b : ascii) (s : jsstring) : jsstring :=
  map (fun c => if char_eqb c a then b else c) s.

(** [cleanAnswerline] *)
Definition cleanAnswerline (s : jsstring) : jsstring :=
  normalizeSpacing
    (replaceChar ")" "]"
       (replaceChar "(" "["
          (remove (remove s ltgt) aside))).

(** *** The three expressions of the parser *)

(** [primaryAnswer]: a lazy capture anchored at the start of the input and
    followed by the end of the input or by an opening bracket or the word
    " or " and the rest of the line.  Capture group 1 of the match at
    position 0 is the shortest prefix behind which the input ends or an
    opening bracket or " or " stands; there is no match when a line
    terminator comes first.  Anchored at the start, the expression has no
    second match. *)
Fixpoint primaryAnswer (s : jsstring) : option jsstring :=
  match s with
  | [] => Some []
  | c :: s' =>
      if prefixb (str "[") s || prefixb (str " or ") s then Some []
      else if is_line_terminator c then None
      else option_map (cons c) (primaryAnswer s')
  end.

Definition primaryAnswers (s : jsstring) : list jsstring :=
  match primaryAnswer s with
  | Some group => [group]
  | None => []
  end.

(** The words that end a captured answer. *)
Definition stopWords : list jsstring :=
  map str ["do not"; "prompt"; "accept"; "or"; "until"; "before";
           "after"]%string.

(** The delimiter in front of a keyword: opening bracket, comma,
    semicolon or blank. *)
Definition is_opening (c : ascii) : bool :=
  existsb (char_eqb c) (str "[,; ").

(** The delimiter behind an answer: comma, semicolon or a bracket. *)
Definition is_closing (c : ascii) : bool :=
  existsb (char_eqb c) (str ",;[]").

(** The lookahead
    [(?= (?:do not|prompt|accept|or|until|before|after) |[,;[\]]|$)]. *)
Definition lookahead (s : jsstring) : bool :=
  match s with
  | [] => true
  | c :: _ =>
      is_closing c
      || existsb (fun w => prefixb (str " " ++ w ++ str " ") s) stopWords
  end.

(** The lazy [(.*?)] in front of the lookahead. *)
Fixpoint lazy_capture (s : jsstring) : option jsstring :=
  if lookahead s then Some []
  else match s with
       | [] => Some []
       | c :: s' =>
           if is_line_terminator c then None
           else option_map (cons c) (lazy_capture s')
       end.

(** [(?:[[,; ])(?:k1|k2)(.*?)(?=...)] for the alternatives [keywords]. *)
Definition answerMatcher (keywords : list jsstring) : Matcher :=
  fun s =>
    match s with
    | [] => None
    | d :: r =>
        if is_opening d then
          match find (fun k => prefixb k r) keywords with
          | Some k =>
              match lazy_capture (skipn (length k) r) with
              | Some group => Some (1 + length k + length group, group)
              | None => None
              end
          | None => None
          end
        else None
    end.

(** [acceptableAnswers], with the alternatives [accept |or ]. *)
Definition acceptableAnswers : Matcher :=
  answerMatcher [str "accept "; str "or "].

(** [promptRegex], with the alternatives [prompt on |or ]. *)
Definition promptRegex : Matcher :=
  answerMatcher [str "prompt on "; str "or "].

(** *** The negation filter *)

Inductive AnswerType := AcceptType | PromptType.

(** Modelled from the spec: [multipleLastIndexOf] of utils/string (not
    among the sources), the start of "the text since the last delimiter
    boundary": the greatest [lastIndexOf] of the search strings at or
    before [startIndex], -1 when none occurs. *)
Definition multipleLastIndexOf (s : jsstring) (searchStrings : list jsstring)
           (startIndex : nat) : Z :=
  fold_left Z.max
            (map (fun x => lastIndexOf_upto s x startIndex) searchStrings)
            (-1)%Z.

(** [negatives.every((neg) => !f(neg))] *)
Definition none_of {A} (f : A -> bool) (l : list A) : bool :=
  forallb (fun x => negb (f x)) l.

(** [filterNegativeAnswers]; [input] is the [input] of the match. *)
Definition filterNegativeAnswers (input : jsstring) (matchArray : Match)
           (answerType : AnswerType) : bool :=
  let index := m_index matchArray in
  let answerPrefix :=
    hd [] (split_on " "%char (skipn 1 (m_text matchArray))) in
  let is_accept := match answerType with AcceptType => true | _ => false end in
  let is_prompt := match answerType with PromptType => true | _ => false end in
  if is_accept && str_eqb answerPrefix (str "accept") then
    none_of (fun neg => endsWith input neg index)
            (map str ["do not"; "do not prompt on or";
                      "do not prompt or"]%string)
  else if is_prompt && str_eqb answerPrefix (str "prompt") then
    none_of (fun neg => endsWith input neg index)
            (map str ["do not"; "do not accept or"]%string)
  else
    let startIndex :=
      multipleLastIndexOf input (map str [";"; ","; "["]%string) index in
    let prevString := slice input startIndex index in
    if is_accept && str_eqb answerPrefix (str "or") then
      none_of (fun neg => includes prevString neg)
              (map str ["do not accept"; "prompt on"; "prompt"]%string)
    else if is_prompt && str_eqb answerPrefix (str "or") then
      let promptIndex := lastIndexOf prevString (str "prompt on") in
      if (promptIndex =? -1)%Z then false
      else none_of (fun neg => endsWith prevString neg (Z.to_nat promptIndex))
                   (map str ["do not "; "do not accept or "]%string)
    else true.

(** *** utils/array *)

(** Modelled from the spec: [combine] of utils/array (not among the
    sources): the answers of the first list followed by those of the
    second ("markup-origin answers take priority and are always
    included"; "include both variants"). *)
Definition combine (a b : list jsstring) : list jsstring := a ++ b.

(** Modelled from the spec: [emptyStringFilter] of utils/array (not among
    the sources): "drop empty results". *)
Definition emptyStringFilter (s : jsstring) : bool :=
  negb (length s =? 0).

(** Modelled from the spec: [getUnique] of utils/array (not among the
    sources): "de-duplicate preserving order", the first occurrence of
    every value staying in place. *)
Fixpoint getUnique_from (seen arr : list jsstring) : list jsstring :=
  match arr with
  | [] => []
  | x :: arr' =>
      if existsb (str_eqb x) seen then getUnique_from seen arr'
      else x :: getUnique_from (x :: seen) arr'
  end.

Definition getUnique (arr : list jsstring) : list jsstring :=
  getUnique_from [] arr.

(** *** The parsers; [None] when [normalizeAnswer] throws *)

(** [parseAcceptableAnswers] *)
Definition parseAcceptableAnswers `{Nlp} (answerline : jsstring)
  : option (list jsstring) :=
  let normalizedAnswer := cleanAnswerline answerline in
  let boldAnswers :=
    map removeTags (getTextBetweenTags normalizedAnswer (str "strong")) in
  let normalizedAnswer := remove normalizedAnswer anyTag in
  let answers :=
    primaryAnswers normalizedAnswer
    ++ map m_group
         (filter (fun m => filterNegativeAnswers normalizedAnswer m AcceptType)
                 (matchAll normalizedAnswer acceptableAnswers)) in
  let allAnswers := combine boldAnswers answers in
  let answersWithoutFirstNames := map removeFirstNames allAnswers in
  match mapM normalizeAnswer (combine allAnswers answersWithoutFirstNames) with
  | Some allAnswers => Some (getUnique (filter emptyStringFilter allAnswers))
  | None => None
  end.

(** [parsePromptableAnswers] *)
Definition parsePromptableAnswers `{Nlp} (answer : jsstring)
  : option (list jsstring) :=
  let normalizedAnswer := cleanAnswerline answer in
  let underlinedAnswers :=
    map removeTags (getTextBetweenTags normalizedAnswer (str "u")) in
  let normalizedAnswer := remove normalizedAnswer anyTag in
  let prompts :=
    map m_group
        (filter (fun m => filterNegativeAnswers normalizedAnswer m PromptType)
                (matchAll normalizedAnswer promptRegex)) in
  match mapM normalizeAnswer (combine underlinedAnswers prompts) with
  | Some allAnswers => Some (getUnique (filter emptyStringFilter allAnswers))
  | None => None
  end.

End Parser.

(** ** A reference instance of the language library

    For evaluating the model on concrete answer lines.  On plain text
    (no hyphens, abbreviations, acronyms, emoji or accented letters) the
    light normalisation of compromise collapses and trims whitespace and
    keeps everything else; the first names it knows are represented by a
    short lexicon. *)

Module Reference.
Import Normalizer.

Definition firstNames : list jsstring :=
  map str ["George"; "Napoleon"; "William"; "Mary"]%string.

(** Leading words of the lexicon are dropped while another word follows. *)
Fixpoint dropFirstNames (words : list jsstring) : list jsstring :=
  match words with
  | w :: ((_ :: _) as rest) =>
      if existsb (str_eqb w) firstNames then dropFirstNames rest else words
  | _ => words
  end.

Definition nlp : Nlp :=
  {| normalize_light := normalizeSpacing;
     removeFirstNames :=
       fun s => join (str " ") (dropFirstNames (split_on " "%char s)) |}.

Definition normalizeAnswer := @Normalizer.normalizeAnswer nlp.
Definition parseAcceptableAnswers := @Parser.parseAcceptableAnswers nlp.
Definition parsePromptableAnswers := @Parser.parsePromptableAnswers nlp.

End Reference.

(** ** Text utilities of the question reader (utils/string)

    [shuffleString], [removeExtraSpaces] and [cleanTossupText]. *)

Module Strings.
Import Judging Parser.

(** [s.replaceAll(r, rep)] for a global [r] and a replacement text without
    substitution patterns: every match, found from left to right, gives
    way to [rep].  [skip] counts the code units that still belong to the
    previous match. *)
Fixpoint replaceAll_from (r : Matcher) (rep : jsstring) (skip : nat)
         (s : jsstring) : jsstring :=
  match s with
  | [] => []
  | c :: s' =>
      match skip with
      | S k => replaceAll_from r rep k s'
      | O =>
          match r s with
          | Some (len, _) => rep ++ replaceAll_from r rep (len - 1) s'
          | None => c :: replaceAll_from r rep 0 s'
          end
      end
  end.

Definition replaceAll (s : jsstring) (r : Matcher) (rep : jsstring)
  : jsstring :=
  replaceAll_from r rep 0 s.

(** The greedy [\s*]: the length of the run of whitespace [s] begins
    with. *)
Fixpoint spaces_run (s : jsstring) : nat :=
  match s with
  | c :: s' => if is_space c then S (spaces_run s') else 0
  | [] => 0
  end.

(** [/\s\s+/g]: two or more whitespace code units, as many as there are. *)
Definition extraSpaces : Matcher :=
  fun s =>
    match s with
    | c :: ((d :: _) as s') =>
        if is_space c && is_space d then Some (S (spaces_run s'), [])
        else None
    | _ => None
    end.

(** [removeExtraSpaces] *)
Definition removeExtraSpaces (s : jsstring) : jsstring :=
  replaceAll s extraSpaces (str " ").

Definition POWER_MARKER : jsstring := str "(*)".

(** The expression for a closing strong tag, any whitespace and the power
    marker.  The whitespace is followed by an opening parenthesis, so the
    greedy run is the only way to match. *)
Definition closingStrongMarker : Matcher :=
  fun s =>
    if prefixb (str "</strong>") s then
      let r := skipn 9 s in
      let k := spaces_run r in
      if prefixb POWER_MARKER (skipn k r) then Some (9 + k + 3, [])
      else None
    else None.

(** The expression for the power marker alone. *)
Definition powerMarker : Matcher :=
  fun s => if prefixb POWER_MARKER s then Some (3, []) else None.

(** [cleanTossupText] *)
Definition cleanTossupText (text : jsstring) : jsstring :=
  removeExtraSpaces
    (replaceAll
       (replaceAll text closingStrongMarker (str "(*) </strong>"))
       powerMarker (str " (*) ")).

(** The element [arr.splice(start, 1)] hands back: the one at the start
    position, [None] ([undefined]) when the position is past the end. *)
Definition spliced {A} (arr : list A) (start : Z) : option A :=
  let len := Z.of_nat (length arr) in
  let from := if (start <? 0)%Z then Z.max (len + start) 0
              else Z.min start len in
  nth_error arr (Z.to_nat from).

(** The loop of [shuffleString].  Every turn pushes one element, so the
    loop runs [s.length] times, counted down in [turns]; [getRand call] is
    the number the [call]-th call of [getRand] returns. *)
Fixpoint shuffle_loop (getRand : nat -> Z) (call turns : nat)
         (chars : jsstring) (shuffled : list (option ascii))
  : list (option ascii) :=
  match turns with
  | O => shuffled
  | S turns' =>
      let randomIndex := getRand call in
      let removedChar := spliced chars randomIndex in
      shuffle_loop getRand (S call) turns'
                   (splice1 chars randomIndex)
                   (shuffled ++ [removedChar])
  end.

(** [arr.join('')] on an array of single code units and [undefined]s,
    which [join] renders as empty strings. *)
Definition join_chars (arr : list (option ascii)) : jsstring :=
  flat_map (fun o => match o with Some c => [c] | None => [] end) arr.

(** [shuffleString] *)
Definition shuffleString (getRand : nat -> Z) (s : jsstring) : jsstring :=
  join_chars (shuffle_loop getRand 0 (length s) s []).

End Strings.

(** ** Rendering helpers (utils/reader.tsx) *)

Module Display.
Import Strings.

Record TossupWord := { word : jsstring; bold : bool }.

(** [arr.findIndex(p)]; [i] is the index of the head of [l]. *)
Fixpoint findIndex_from {A} (p : A -> bool) (i : Z) (l : list A) : Z :=
  match l with
  | [] => (-1)%Z
  | x :: l' => if p x then i else findIndex_from p (i + 1)%Z l'
  end.

Definition findIndex {A} (p : A -> bool) (l : list A) : Z :=
  findIndex_from p 0%Z l.

(** [getPowerIndex] *)
Definition getPowerIndex (tossupWords : list TossupWord) : Z :=
  findIndex (fun w => str_eqb (word w) POWER_MARKER) tossupWords.

(** The optional argument [indices] of [renderQuestion]. *)
Record Indices := { visible : option Z; buzz : option Z }.

(** What [renderQuestion] draws for one word: the text handed to
    [parseHTMLString], whether the element carries [visibleRef], its
    visibility and weight, and whether the bell follows it. *)
Record RenderedWord := {
  shown : jsstring;
  hasRef : bool;
  isVisible : bool;
  isBold : bool;
  hasBell : bool
}.

Fixpoint renderWords (visible buzz : Z) (i : Z) (words : list TossupWord)
  : list RenderedWord :=
  match words with
  | [] => []
  | w :: ws =>
      {| shown := word w;
         hasRef := (i =? visible)%Z;
         isVisible := (i <=? visible)%Z;
         isBold := bold w;
         hasBell := (i =? buzz)%Z |}
        :: renderWords visible buzz (i + 1)%Z ws
  end.

(** [renderQuestion]: [visible] defaults to the number of words and [buzz]
    to -1. *)
Definition renderQuestion (words : list TossupWord)
           (indices : option Indices) : list RenderedWord :=
  let get (field : Indices -> option Z) (default : Z) :=
    match indices with
    | Some ix => match field ix with Some v => v | None => default end
    | None => default
    end in
  renderWords (get visible (Z.of_nat (length words))) (get buzz (-1)%Z)
              0%Z words.

End Display.

(** ** The question component (the words it reads out) *)

Module Question.
Import Strings.

(** The elements [getWords] builds; [isInPower] is added later. *)
Record Word := { original : jsstring; shuffled : jsstring }.

(** [getWords]: [getRand k] is the sequence of random numbers drawn while
    the [k]-th word is shuffled. *)
Fixpoint getWords_from (getRand : nat -> nat -> Z) (k : nat)
         (ws : list jsstring) : list Word :=
  match ws with
  | [] => []
  | w :: ws' =>
      {| original := w; shuffled := shuffleString (getRand k) w |}
        :: getWords_from getRand (S k) ws'
  end.

Definition getWords (getRand : nat -> nat -> Z) (text : jsstring)
  : list Word :=
  getWords_from getRand 0 (split_on " "%char text).

(** The field [readText] of the buzz the component reports while the word
    at [visibleIndex] is read:
    [words.slice(0, visibleIndex + 1).map(w => w.original).join(' ')]. *)
Definition readText (words : list Word) (visibleIndex : nat) : jsstring :=
  join (str " ") (map original (firstn (visibleIndex + 1) words)).

End Question.

(** ** Query parameters (utils/fetch) *)

Module Fetch.

(** [combineParams]: [params.filter(Boolean).join('&')]; of strings only
    the empty one is falsy. *)
Definition combineParams (params : list jsstring) : jsstring :=
  join (str "&") (filter (fun p => negb (length p =? 0)) params).

Section Params.

(** The text a template literal gives for a value of the array. *)
Context {V : Type}.
Variable toString : V -> jsstring.

(** [createParamsFromArray] *)
Definition createParamsFromArray (field : jsstring) (values : list V)
  : jsstring :=
  combineParams (map (fun val => field ++ str "[]=" ++ toString val) values).

End Params.

(** [addParams] *)
Definition addParams (url params : jsstring) : jsstring :=
  url ++ str "?" ++ params.

(** [FetchParams]; a field left out is [None].  The enums and the numbers
    are integers. *)
Record FetchParams := {
  categories : option (list Z);
  subcategories : option (list Z);
  difficulties : option (list Z);
  text : option jsstring;
  answer : option jsstring;
  limit : option Z;
  offset : option Z
}.

Section CreateParams.

(** The decimal text of a number. *)
Variable numberToString : Z -> jsstring.

Definition orElse {A} (o : option A) (default : A) : A :=
  match o with Some v => v | None => default end.

(** [createParams] *)
Definition createParams (p : FetchParams) : jsstring :=
  let categories := orElse (categories p) [] in
  let subcategories := orElse (subcategories p) [] in
  let difficulties := orElse (difficulties p) [] in
  let text := orElse (text p) [] in
  let answer := orElse (answer p) [] in
  let limit := orElse (limit p) 10%Z in
  let offset := orElse (offset p) 0%Z in
  combineParams
    [ createParamsFromArray numberToString (str "categories") categories;
      createParamsFromArray numberToString (str "subcategories")
                            subcategories;
      createParamsFromArray numberToString (str "difficulties")
                            difficulties;
      if 0 <? length text then str "text=" ++ text else [];
      if 0 <? length answer then str "answer=" ++ answer else [];
      str "limit=" ++ numberToString limit;
      str "offset=" ++ numberToString offset ].

End CreateParams.

End Fetch.

(** ** The settings dialog (Settings/index.tsx) *)

Module Settings.

Section Handlers.

(** [SUBCATEGORY_MAP] of utils/constants: the category a subcategory
    belongs to, [None] where the table has no entry. *)
Variable SUBCATEGORY_MAP : nat -> option nat.

(** [arr.includes(x)] for an [x] that may be [undefined]. *)
Definition includes_entry (arr : list nat) (x : option nat) : bool :=
  match x with
  | Some c => existsb (Nat.eqb c) arr
  | None => false
  end.

(** [onCategoriesChange]: the payloads of the two dispatches,
    [updateCategories] and [updateSubcategories].  [subcategories] is the
    selection in the store, [options] the values of the chosen options. *)
Definition onCategoriesChange (subcategories : list nat)
           (options : list nat) : list nat * list nat :=
  let newCategories := options in
  let newSubcategories :=
    filter (fun sc => negb (includes_entry newCategories (SUBCATEGORY_MAP sc)))
           subcategories in
  (newCategories, newSubcategories).

(** [onSubcategoriesChange]: the payloads of [updateSubcategories] and
    [updateCategories]; [categoriesToExclude] is a [Set]. *)
Definition onSubcategoriesChange (categories : list nat)
           (options : list nat) : list nat * list nat :=
  let newSubcategories := options in
  let categoriesToExclude := map SUBCATEGORY_MAP newSubcategories in
  let has (c : nat) :=
    existsb (fun e => match e with
                      | Some c' => Nat.eqb c' c
                      | None => false
                      end) categoriesToExclude in
  let newCategories := filter (fun c => negb (has c)) categories in
  (newSubcategories, newCategories).

End Handlers.

End Settings.

(** ** A judge in use (utils/reader.tsx) *)

Module JudgeSession.
Import Similarity Parser Judging.

(** The constructor of [Judge]; [None] when a parser throws. *)
Definition newJudge `{Nlp} (answerline : jsstring) : option Judge :=
  match parseAcceptableAnswers answerline with
  | Some acceptable =>
      match parsePromptableAnswers answerline with
      | Some promptable =>
          Some {| acceptableAnswers := acceptable;
                  promptableAnswers := promptable |}
      | None => None
      end
  | None => None
  end.

(** Successive calls of [judge] on one judge: the verdicts in order and
    the judge the calls leave behind. *)
Fixpoint judgeAll (J : Judge) (userAnswers : list jsstring)
  : list JudgeResult * Judge :=
  match userAnswers with
  | [] => ([], J)
  | u :: us =>
      let (verdict, J1) := judge J u in
      let (verdicts, J2) := judgeAll J1 us in
      (verdict :: verdicts, J2)
  end.

End JudgeSession.

(* ===================================================================== *)
(** * Part II: properties                                                 *)
(* ===================================================================== *)

(** ** JavaScript strings *)

Module JsFacts.

Lemma char_eqb_eq : forall a b, char_eqb a b = true <-> a = b.
Proof. intros; apply Ascii.eqb_eq. Qed.

Lemma char_eqb_refl : forall a, char_eqb a a = true.
Proof. intros; apply Ascii.eqb_refl. Qed.

Lemma char_eqb_neq : forall a b, char_eqb a b = false <-> a <> b.
Proof. intros; apply Ascii.eqb_neq. Qed.

Lemma str_eqb_eq : forall a b, str_eqb a b = true <-> a = b.
Proof.
  induction a as [|x a IH]; intros [|y b]; cbn; split; intros H;
    try reflexivity; try discriminate.
  - apply andb_true_iff in H as [Hx Ha].
    apply char_eqb_eq in Hx. apply IH in Ha. congruence.
  - injection H as -> ->. rewrite char_eqb_refl. cbn. apply IH; reflexivity.
Qed.

Lemma str_eqb_refl : forall a, str_eqb a a = true.
Proof. intros; apply str_eqb_eq; reflexivity. Qed.

Lemma code_ascii_of_nat : forall n, n < 256 -> code (ascii_of_nat n) = n.
Proof. intros n Hn; unfold code; apply nat_ascii_embedding, Hn. Qed.

Lemma code_inj : forall a b, code a = code b -> a = b.
Proof.
  unfold code; intros a b H.
  rewrite <- (ascii_nat_embedding a), <- (ascii_nat_embedding b), H.
  reflexivity.
Qed.

(** *** [filter], [forallb] *)

Lemma filter_all :
  forall {A} (p : A -> bool) l, forallb p l = true -> filter p l = l.
Proof.
  induction l as [|x l IH]; cbn; intros H; [reflexivity|].
  apply andb_true_iff in H as [Hx Hl]. rewrite Hx, IH by exact Hl.
  reflexivity.
Qed.

Lemma forallb_impl :
  forall {A} (p q : A -> bool) l,
    (forall x, p x = true -> q x = true) ->
    forallb p l = true -> forallb q l = true.
Proof.
  intros A p q l Hpq H. rewrite forallb_forall in *. auto.
Qed.

(** *** [prefixb], [includes] *)

Lemma prefixb_app : forall p s, prefixb p (p ++ s) = true.
Proof.
  induction p as [|x p IH]; intros s; cbn; [reflexivity|].
  rewrite char_eqb_refl, IH. reflexivity.
Qed.

Lemma prefixb_spec :
  forall p s, prefixb p s = true <-> exists r, s = p ++ r.
Proof.
  induction p as [|x p IH]; intros s; cbn.
  - split; [exists s; reflexivity | reflexivity].
  - destruct s as [|y s].
    + split; [discriminate | intros [r Hr]; discriminate].
    + rewrite andb_true_iff, char_eqb_eq, IH. split.
      * intros [-> [r ->]]. exists r; reflexivity.
      * intros [r Hr]. injection Hr as -> ->. split; [reflexivity|].
        exists r; reflexivity.
Qed.

(** A pattern that starts inside [a] and does not contain the code unit
    that follows [a] lies inside [a]. *)
Lemma prefixb_barrier :
  forall p a b r,
    existsb (char_eqb b) p = false ->
    prefixb p (a ++ b :: r) = true -> prefixb p a = true.
Proof.
  induction p as [|x p IH]; intros a b r Hb H; [reflexivity|].
  cbn in Hb. apply orb_false_iff in Hb as [Hx Hp].
  destruct a as [|y a]; cbn in H |- *.
  - apply andb_true_iff in H as [H _].
    rewrite (proj1 (char_eqb_eq _ _) H), char_eqb_refl in Hx.
    discriminate.
  - apply andb_true_iff in H as [Hy H]. rewrite Hy. cbn.
    eapply IH; eassumption.
Qed.

(** A pattern at the front of [a ++ r] lies inside [a] or runs over its
    end: then [a] is the front of the pattern and the rest of the pattern
    stands at the front of [r]. *)
Lemma prefixb_app_cases :
  forall p a r,
    prefixb p (a ++ r) = true ->
    prefixb p a = true
    \/ (length a < length p
        /\ a = firstn (length a) p
        /\ prefixb (skipn (length a) p) r = true).
Proof.
  induction p as [|x p IH]; intros a r H; [left; reflexivity|].
  destruct a as [|y a].
  - right. cbn. split; [lia|]. split; [reflexivity | exact H].
  - cbn in H. apply andb_true_iff in H as [Hy H].
    apply char_eqb_eq in Hy; subst y.
    destruct (IH _ _ H) as [Hin | (Hlen & Ha & Hr)].
    + left. cbn. rewrite char_eqb_refl, Hin. reflexivity.
    + right. cbn. split; [lia|]. split; [f_equal; exact Ha | exact Hr].
Qed.

Lemma includes_cons_false :
  forall c s p, includes (c :: s) p = false -> includes s p = false.
Proof.
  intros c s p H. cbn in H. apply orb_false_iff in H as [_ H]. exact H.
Qed.

Lemma includes_suffix :
  forall a1 a2 p, prefixb p a2 = true -> includes (a1 ++ a2) p = true.
Proof.
  induction a1 as [|c a1 IH]; intros a2 p H.
  - destruct a2; cbn in *; rewrite H; reflexivity.
  - cbn. rewrite (IH _ _ H). apply orb_true_r.
Qed.

Lemma prefixb_app_l :
  forall p a r, prefixb p a = true -> prefixb p (a ++ r) = true.
Proof.
  intros p a r H. apply prefixb_spec in H as [q ->].
  rewrite <- app_assoc. apply prefixb_app.
Qed.

Lemma includes_app_l :
  forall a r p, includes a p = true -> includes (a ++ r) p = true.
Proof.
  induction a as [|c a IH]; intros r p H.
  - cbn in H. rewrite orb_false_r in H.
    destruct p; [|discriminate].
    destruct r; reflexivity.
  - cbn in H |- *. apply orb_true_iff in H as [H | H].
    + change (c :: a ++ r) with ((c :: a) ++ r).
      rewrite (prefixb_app_l _ _ r H). reflexivity.
    + rewrite (IH _ _ H). apply orb_true_r.
Qed.

Lemma includes_prefix_of_pattern :
  forall s p q, includes s (p ++ q) = true -> includes s p = true.
Proof.
  assert (Hp : forall p q s, prefixb (p ++ q) s = true -> prefixb p s = true).
  { induction p as [|x p IH]; intros q s H; [reflexivity|].
    destruct s as [|y s]; cbn in *; [discriminate|].
    apply andb_true_iff in H as [Hx H]. rewrite Hx. cbn. eapply IH, H. }
  induction s as [|c s IH]; intros p q H; cbn in H |- *.
  - rewrite orb_false_r in *. eapply Hp, H.
  - apply orb_true_iff in H as [H | H].
    + rewrite (Hp _ _ _ H). reflexivity.
    + rewrite (IH _ _ H). apply orb_true_r.
Qed.

(** *** [split_on], [join] *)

Lemma split_on_cons :
  forall sep s, exists w ws, split_on sep s = w :: ws.
Proof.
  intros sep s; destruct s as [|c s]; cbn; [eauto|].
  destruct (char_eqb c sep); [eauto|].
  destruct (split_on sep s); eauto.
Qed.

Lemma join_split_on :
  forall sep s, join [sep] (split_on sep s) = s.
Proof.
  intros sep; induction s as [|c s IH]; [reflexivity|]. cbn.
  destruct (char_eqb c sep) eqn:E.
  - apply char_eqb_eq in E; subst c.
    destruct (split_on_cons sep s) as (w & ws & Hs). rewrite Hs in *.
    cbn [join app]. cbn in IH. rewrite IH. reflexivity.
  - destruct (split_on_cons sep s) as (w & ws & Hs). rewrite Hs in *.
    destruct ws; cbn in *; rewrite IH; reflexivity.
Qed.

(** The first piece of a string that starts with a separator-free word
    followed by the separator. *)
Lemma split_on_word :
  forall sep w rest,
    existsb (fun c => char_eqb c sep) w = false ->
    split_on sep (w ++ sep :: rest) = w :: split_on sep rest.
Proof.
  intros sep; induction w as [|c w IH]; intros rest H; cbn.
  - rewrite char_eqb_refl. reflexivity.
  - cbn in H. apply orb_false_iff in H as [Hc Hw].
    rewrite Hc, (IH _ Hw). reflexivity.
Qed.

End JsFacts.

(** ** Scoring *)

Module ScoringFacts.
Import Scoring.

(** C4. Over all three flags: a correct answer scores the power value in
    power and the base value 10 outside it, and power is worth strictly
    more than the base; an incorrect answer scores zero when the buzz came
    at the final word and the negative penalty when it came earlier. *)
Theorem getTossupScore_cases :
  forall isCorrect isInPower didBuzzAtEnd : bool,
    getTossupScore isCorrect isInPower didBuzzAtEnd =
      match isCorrect, isInPower, didBuzzAtEnd with
      | true, true, _ => power
      | true, false, _ => ten
      | false, _, true => incorrect
      | false, _, false => neg
      end
    /\ TossupScore_value ten = 10%Z
    /\ (TossupScore_value ten < TossupScore_value power)%Z
    /\ TossupScore_value incorrect = 0%Z
    /\ (TossupScore_value neg < 0)%Z.
Proof.
  intros [] [] []; repeat split; reflexivity.
Qed.

(** The number of correct parts, counted independently of the fold. *)
Definition correctParts (results : list BonusPartResult) : nat :=
  length (filter isCorrect results).

Lemma correctCount_fold :
  forall results acc,
    fold_left (fun acc res => (acc + (if isCorrect res then 1 else 0))%Z)
              results acc
    = (acc + Z.of_nat (correctParts results))%Z.
Proof.
  induction results as [|r rs IH]; intros acc; simpl.
  - unfold correctParts; simpl; lia.
  - rewrite IH. unfold correctParts; simpl.
    destruct (isCorrect r); simpl length; lia.
Qed.

Lemma correctCount_correctParts :
  forall results, correctCount results = Z.of_nat (correctParts results).
Proof.
  intros; unfold correctCount; rewrite correctCount_fold; lia.
Qed.

Lemma correctParts_le_length :
  forall results, correctParts results <= length results.
Proof. intros; apply filter_length_le. Qed.

(** C5. For three parts the bonus score is a function of the number of
    correct parts alone: 30, 20, 10, 0 for 3, 2, 1, 0 correct parts, that
    is ten points a part. *)
Theorem getBonusScore_three_parts :
  forall results : list BonusPartResult,
    length results = 3 ->
    getBonusScore results =
      match correctParts results with
      | 3 => thirty
      | 2 => twenty
      | 1 => bonus_ten
      | _ => zero
      end
    /\ BonusScore_value (getBonusScore results)
       = (10 * Z.of_nat (correctParts results))%Z.
Proof.
  intros results Hlen.
  pose proof (correctParts_le_length results) as Hle.
  unfold getBonusScore. rewrite correctCount_correctParts.
  destruct (correctParts results) as [|[|[|[|n]]]];
    simpl; try (split; reflexivity); lia.
Qed.

Definition part (b : bool) : BonusPartResult := {| isCorrect := b |}.

Lemma getBonusScore_three_parts_witness :
  getBonusScore [part true; part false; part true] = twenty
  /\ BonusScore_value (getBonusScore [part true; part false; part true])
     = 20%Z.
Proof.
  destruct (getBonusScore_three_parts
              [part true; part false; part true] eq_refl) as [H1 H2].
  split; [exact H1 | exact H2].
Defined.

End ScoringFacts.

(** ** The similarity search and the judge *)

Module JudgingFacts.
Import Similarity Judging.

Local Open Scope Q_scope.

Lemma Qgtb_true : forall x y, Qgtb x y = true <-> y < x.
Proof.
  intros x y; unfold Qgtb.
  rewrite negb_true_iff, <- not_true_iff_false, Qle_bool_iff.
  split; [apply Qnot_le_lt | apply Qlt_not_le].
Qed.

Lemma Qgtb_false : forall x y, Qgtb x y = false <-> x <= y.
Proof.
  intros x y; unfold Qgtb.
  rewrite negb_false_iff, Qle_bool_iff. reflexivity.
Qed.

Ltac q_contra :=
  exfalso;
  match goal with
  | H1 : ?x <= ?y, H2 : ?y < ?x |- _ => exact (Qle_not_lt _ _ H1 H2)
  end.

Definition mkRating (u t : jsstring) : Rating :=
  {| target := t; rating := compareTwoStrings u t |}.

(** The loop invariant of [findBestMatch]: [best] indexes a rating that
    no rating exceeds and that every earlier rating stays strictly
    below. *)
Definition best_at (rs : list Rating) (best : nat) : Prop :=
  (best < length rs)%nat
  /\ (forall r, In r rs -> rating r <= rating (nth best rs dummy_rating))
  /\ (forall j, (j < best)%nat ->
                rating (nth j rs dummy_rating)
                < rating (nth best rs dummy_rating)).

Lemma findBestMatch_step_inv :
  forall u rs best t,
    best_at rs best ->
    let st := findBestMatch_step u (rs, best) t in
    fst st = rs ++ [mkRating u t] /\ best_at (fst st) (snd st).
Proof.
  intros u rs best t (Hlt & Hmax & Hfirst).
  unfold findBestMatch_step. cbn zeta.
  fold (mkRating u t).
  rewrite (app_nth1 rs [mkRating u t] dummy_rating Hlt).
  destruct (Qgtb (compareTwoStrings u t)
                 (rating (nth best rs dummy_rating))) eqn:Hcmp;
    cbn [fst snd]; split; try reflexivity.
  - apply Qgtb_true in Hcmp.
    unfold best_at. rewrite length_app; cbn [length].
    rewrite app_nth2 by lia. rewrite Nat.sub_diag; cbn [nth mkRating rating].
    split; [lia|]. split.
    + intros r Hin. apply in_app_or in Hin as [Hin|[<-|[]]].
      * apply Qle_trans with (rating (nth best rs dummy_rating));
          [apply Hmax, Hin | apply Qlt_le_weak, Hcmp].
      * cbn; apply Qle_refl.
    + intros j Hj. rewrite app_nth1 by lia.
      apply Qle_lt_trans with (rating (nth best rs dummy_rating));
        [apply Hmax, nth_In, Hj | exact Hcmp].
  - apply Qgtb_false in Hcmp.
    unfold best_at. rewrite length_app; cbn [length].
    rewrite (app_nth1 rs [mkRating u t] dummy_rating Hlt).
    split; [lia|]. split.
    + intros r Hin. apply in_app_or in Hin as [Hin|[<-|[]]].
      * apply Hmax, Hin.
      * exact Hcmp.
    + intros j Hj. rewrite app_nth1 by lia. apply Hfirst, Hj.
Qed.

Lemma findBestMatch_fold_inv :
  forall u l rs best,
    best_at rs best ->
    let st := fold_left (findBestMatch_step u) l (rs, best) in
    fst st = rs ++ map (mkRating u) l /\ best_at (fst st) (snd st).
Proof.
  intros u l; induction l as [|t l IH]; intros rs best Hinv; cbn zeta.
  - cbn [fold_left map fst snd]. rewrite app_nil_r. split; [reflexivity|exact Hinv].
  - cbn [fold_left map].
    pose proof (findBestMatch_step_inv u rs best t Hinv) as Hstep.
    cbn zeta in Hstep. destruct Hstep as [Hfst Hnext].
    destruct (findBestMatch_step u (rs, best) t) as [rs1 best1] eqn:E.
    cbn [fst snd] in Hfst, Hnext. subst rs1.
    specialize (IH _ _ Hnext). cbn zeta in IH.
    destruct IH as [IH1 IH2]. split; [|exact IH2].
    rewrite IH1, <- app_assoc. reflexivity.
Qed.

Lemma findBestMatch_first_step :
  forall u t,
    findBestMatch_step u ([], 0%nat) t = ([mkRating u t], 0%nat).
Proof.
  intros u t. unfold findBestMatch_step. cbn [app length nth rating].
  fold (mkRating u t).
  assert (Qgtb (compareTwoStrings u t) (compareTwoStrings u t) = false) as ->
      by (apply Qgtb_false, Qle_refl).
  reflexivity.
Qed.

Lemma best_at_singleton : forall r, best_at [r] 0.
Proof.
  intros r. repeat split.
  - cbn; lia.
  - intros r' [<-|[]]. cbn. apply Qle_refl.
  - intros j Hj; lia.
Qed.

(** [findBestMatch] on a non-empty array: the ratings in order, and the
    first index of a greatest rating. *)
Lemma findBestMatch_nonempty :
  forall u t l,
  exists best,
    findBestMatch u (t :: l) =
      Some {| ratings := map (mkRating u) (t :: l);
              bestMatch_target :=
                Some (target (nth best (map (mkRating u) (t :: l))
                                  dummy_rating));
              bestMatch_rating :=
                rating (nth best (map (mkRating u) (t :: l)) dummy_rating);
              bestMatchIndex := Z.of_nat best |}
    /\ best_at (map (mkRating u) (t :: l)) best.
Proof.
  intros u t l. unfold findBestMatch. cbn [fold_left].
  rewrite findBestMatch_first_step.
  pose proof (findBestMatch_fold_inv u l [mkRating u t] 0%nat
                (best_at_singleton _)) as H.
  cbn zeta in H. destruct H as [H1 H2].
  destruct (fold_left (findBestMatch_step u) l ([mkRating u t], 0%nat))
    as [rs best] eqn:E.
  cbn [fst snd] in H1, H2. subst rs.
  exists best. split; [reflexivity | exact H2].
Qed.

(** [findBestMatch] throws exactly on the empty array, which
    [checkAnswer] keeps away from it. *)
Lemma findBestMatch_throws_iff :
  forall u l, findBestMatch u l = None <-> l = [].
Proof.
  intros u [|t l]; split; try reflexivity; try discriminate.
  destruct (findBestMatch_nonempty u t l) as (best & E & _).
  rewrite E; discriminate.
Qed.

(** What "the best score of [u] against [l]" means: an upper bound of
    all ratings that is the rating of some answer at index [i], the first
    such index; for an empty list the score 0 at index -1. *)
Definition is_best (u : jsstring) (l : list jsstring)
           (score : Q) (i : Z) : Prop :=
  (forall a, In a l -> compareTwoStrings u a <= score)
  /\ (l = [] -> score = 0 /\ i = (-1)%Z)
  /\ (l <> [] ->
      exists n a, i = Z.of_nat n /\ nth_error l n = Some a
                  /\ score = compareTwoStrings u a
                  /\ forall j b, (j < n)%nat -> nth_error l j = Some b ->
                                 compareTwoStrings u b < score).

Lemma nth_mkRating :
  forall u l n a,
    nth_error l n = Some a ->
    nth n (map (mkRating u) l) dummy_rating = mkRating u a.
Proof.
  intros u l n a H.
  apply nth_error_nth with (d := dummy_rating).
  rewrite nth_error_map, H. reflexivity.
Qed.

Lemma checkAnswer_best :
  forall u l,
    is_best u l (bestMatch_rating (checkAnswer u l))
            (bestMatchIndex (checkAnswer u l)).
Proof.
  intros u [|t l].
  - cbn. repeat split; try reflexivity; try contradiction.
  - unfold checkAnswer. cbn [length Nat.eqb].
    destruct (findBestMatch_nonempty u t l) as (best & E & Hlt & Hmax & Hfirst).
    rewrite E. cbn [bestMatch_rating bestMatchIndex].
    rewrite length_map in Hlt.
    destruct (nth_error (t :: l) best) as [a|] eqn:Ha;
      [| apply nth_error_None in Ha; lia].
    rewrite (nth_mkRating u _ _ _ Ha) in *. cbn [mkRating rating] in *.
    repeat split.
    + intros b Hb. apply (Hmax (mkRating u b)), in_map, Hb.
    + discriminate.
    + discriminate.
    + intros _. exists best, a. repeat split; try assumption.
      intros j b Hj Hb. specialize (Hfirst j Hj).
      rewrite (nth_mkRating u _ _ _ Hb) in Hfirst. exact Hfirst.
Qed.

Definition score (u : jsstring) (l : list jsstring) : Q :=
  bestMatch_rating (checkAnswer u l).

Definition passes (u : jsstring) (l : list jsstring) : Prop :=
  MIN_RATING < score u l.

Lemma score_empty : forall u, score u [] = 0.
Proof. reflexivity. Qed.

(** The guard [promptableAnswers.length > 0] only skips a search whose
    best score would be 0. *)
Lemma judge_eq :
  forall J u,
    judge J u =
      if Qgtb (score u (acceptableAnswers J)) MIN_RATING then (correct, J)
      else if Qgtb (score u (promptableAnswers J)) MIN_RATING then
        (prompt,
         {| acceptableAnswers := acceptableAnswers J;
            promptableAnswers :=
              splice1 (promptableAnswers J)
                      (bestMatchIndex
                         (checkAnswer u (promptableAnswers J))) |})
      else (incorrect, J).
Proof.
  intros J u. unfold judge, score.
  destruct (Qgtb (bestMatch_rating (checkAnswer u (acceptableAnswers J)))
                 MIN_RATING); [reflexivity|].
  destruct (promptableAnswers J) as [|p P]; reflexivity.
Qed.

Lemma splice1_index :
  forall {A} (l : list A) n,
    (n < length l)%nat ->
    splice1 l (Z.of_nat n) = firstn n l ++ skipn (S n) l.
Proof.
  intros A l n Hn. unfold splice1.
  destruct (Z.of_nat n <? 0)%Z eqn:E; [apply Z.ltb_lt in E; lia|].
  rewrite Z.min_l by lia. rewrite Nat2Z.id. reflexivity.
Qed.

Lemma nth_error_remove :
  forall {A} (l : list A) n m,
    (n < length l)%nat ->
    nth_error (firstn n l ++ skipn (S n) l) m
    = nth_error l (if (m <? n)%nat then m else S m).
Proof.
  intros A l n m Hn.
  rewrite nth_error_app, length_firstn, Nat.min_l by lia.
  destruct (Nat.ltb_spec m n) as [Hlt|Hge].
  - rewrite nth_error_firstn.
    destruct (Nat.ltb_spec m n); [reflexivity | lia].
  - rewrite nth_error_skipn. f_equal. lia.
Qed.

(** What a [prompt] verdict does to the promptable answers: the entry at
    the first index [n] of a greatest rating is cut out. *)
Lemma prompt_removes_best :
  forall u P,
    passes u P ->
    exists n p,
      nth_error P n = Some p
      /\ splice1 P (bestMatchIndex (checkAnswer u P))
         = firstn n P ++ skipn (S n) P
      /\ score u P = compareTwoStrings u p
      /\ (forall q, In q P -> compareTwoStrings u q <= compareTwoStrings u p)
      /\ (forall j q, (j < n)%nat -> nth_error P j = Some q ->
                      compareTwoStrings u q < compareTwoStrings u p).
Proof.
  intros u P Hpass.
  destruct (checkAnswer_best u P) as (Hub & Hnil & Hcons).
  fold (score u P) in *.
  assert (P <> []) as Hne.
  { intros ->. unfold passes in Hpass. rewrite score_empty in Hpass.
    revert Hpass. unfold MIN_RATING, Qlt; cbn; lia. }
  destruct (Hcons Hne) as (n & p & Hi & Hp & Hs & Hfirst).
  exists n, p. rewrite Hi, <- Hs.
  assert (n < length P)%nat as Hn
      by (apply nth_error_Some; rewrite Hp; discriminate).
  repeat split; try assumption.
  apply splice1_index, Hn.
Qed.

(** C1 (amended). [judge] compares the submission as it is given, without
    normalising it: the verdict is [correct] exactly when the best rating
    against the acceptable answers exceeds 0.6; [prompt] exactly when
    that one does not and the best rating against the promptable answers
    does; [incorrect] exactly when neither does.  The scores compared are
    best scores: greatest ratings over the whole list, 0 for an empty
    list. *)
Theorem judge_verdict :
  forall (J : Judge) (userAnswer : jsstring),
    let acc := score userAnswer (acceptableAnswers J) in
    let pro := score userAnswer (promptableAnswers J) in
    is_best userAnswer (acceptableAnswers J) acc
            (bestMatchIndex (checkAnswer userAnswer (acceptableAnswers J)))
    /\ is_best userAnswer (promptableAnswers J) pro
            (bestMatchIndex (checkAnswer userAnswer (promptableAnswers J)))
    /\ (fst (judge J userAnswer) = correct <-> MIN_RATING < acc)
    /\ (fst (judge J userAnswer) = prompt
        <-> ~ MIN_RATING < acc /\ MIN_RATING < pro)
    /\ (fst (judge J userAnswer) = incorrect
        <-> ~ MIN_RATING < acc /\ ~ MIN_RATING < pro).
Proof.
  intros J u acc pro.
  split; [apply checkAnswer_best|]. split; [apply checkAnswer_best|].
  rewrite judge_eq. fold acc pro.
  destruct (Qgtb acc MIN_RATING) eqn:Ea;
    [apply Qgtb_true in Ea | apply Qgtb_false in Ea];
    [| destruct (Qgtb pro MIN_RATING) eqn:Ep;
       [apply Qgtb_true in Ep | apply Qgtb_false in Ep]];
    cbn [fst]; repeat split; intros;
    repeat match goal with H : _ /\ _ |- _ => destruct H end;
    try discriminate; try assumption; try contradiction;
    try q_contra; try (intro; q_contra).
Qed.

(** C10. One call of [judge] never changes the acceptable answers; it
    leaves the promptable answers as they are unless the verdict is
    [prompt], and then it removes exactly one entry, the best match (the
    first entry of greatest rating), the others keeping their order. *)
Theorem judge_frame :
  forall (J : Judge) (userAnswer : jsstring),
    let J' := snd (judge J userAnswer) in
    let P := promptableAnswers J in
    acceptableAnswers J' = acceptableAnswers J
    /\ (fst (judge J userAnswer) <> prompt -> promptableAnswers J' = P)
    /\ (fst (judge J userAnswer) = prompt ->
        exists n p,
          nth_error P n = Some p
          /\ promptableAnswers J' = firstn n P ++ skipn (S n) P
          /\ S (length (promptableAnswers J')) = length P
          /\ (forall q, In q P ->
                        compareTwoStrings userAnswer q
                        <= compareTwoStrings userAnswer p)
          /\ (forall j q, (j < n)%nat -> nth_error P j = Some q ->
                          compareTwoStrings userAnswer q
                          < compareTwoStrings userAnswer p)).
Proof.
  intros J u J' P. subst J'. rewrite judge_eq.
  destruct (Qgtb (score u (acceptableAnswers J)) MIN_RATING);
    [cbn; repeat split; discriminate|].
  destruct (Qgtb (score u (promptableAnswers J)) MIN_RATING) eqn:Ep;
    cbn [fst snd acceptableAnswers promptableAnswers];
    [| repeat split; discriminate].
  apply Qgtb_true in Ep.
  split; [reflexivity|]. split; [intros H; contradiction H; reflexivity|].
  intros _.
  destruct (prompt_removes_best u P Ep) as (n & p & Hp & Hsp & _ & Hmax & Hfirst).
  exists n, p. fold P. rewrite Hsp.
  repeat split; try assumption.
  assert (n < length P)%nat as Hn
      by (apply nth_error_Some; rewrite Hp; discriminate).
  rewrite length_app, length_firstn, length_skipn. lia.
Qed.

(** C2. When [judge] answers [prompt], the promptable entry it matched
    (index [n]) is gone from the judge it leaves behind: a second call
    with the same submission that prompts again has matched an entry that
    sat at another index of the original list, and when no entry other
    than the consumed one rates above 0.6 the second call answers
    [incorrect]. *)
Theorem judge_prompt_consumed :
  forall (J J1 : Judge) (userAnswer : jsstring),
    judge J userAnswer = (prompt, J1) ->
    let P := promptableAnswers J in
    exists n p,
      nth_error P n = Some p
      /\ MIN_RATING < compareTwoStrings userAnswer p
      /\ promptableAnswers J1 = firstn n P ++ skipn (S n) P
      /\ acceptableAnswers J1 = acceptableAnswers J
      /\ fst (judge J1 userAnswer) <> correct
      /\ (forall J2, judge J1 userAnswer = (prompt, J2) ->
            exists m q,
              m <> n /\ nth_error P m = Some q
              /\ MIN_RATING < compareTwoStrings userAnswer q
              /\ (length (promptableAnswers J2) + 2 = length P)%nat)
      /\ ((forall m q, m <> n -> nth_error P m = Some q ->
                       ~ MIN_RATING < compareTwoStrings userAnswer q) ->
          fst (judge J1 userAnswer) = incorrect).
Proof.
  intros J J1 u Hj P. rewrite judge_eq in Hj.
  destruct (Qgtb (score u (acceptableAnswers J)) MIN_RATING) eqn:Ea;
    [discriminate|].
  destruct (Qgtb (score u (promptableAnswers J)) MIN_RATING) eqn:Ep;
    [|discriminate].
  apply Qgtb_true in Ep.
  destruct (prompt_removes_best u P Ep) as (n & p & Hp & Hsp & Hs & _ & _).
  injection Hj as <-. fold P. rewrite Hsp.
  assert (n < length P)%nat as Hn
      by (apply nth_error_Some; rewrite Hp; discriminate).
  exists n, p. cbn [acceptableAnswers promptableAnswers].
  set (P1 := firstn n P ++ skipn (S n) P).
  set (J1 := {| acceptableAnswers := acceptableAnswers J;
                promptableAnswers := P1 |}).
  assert (Hj1 : judge J1 u =
                if Qgtb (score u P1) MIN_RATING then
                  (prompt,
                   {| acceptableAnswers := acceptableAnswers J;
                      promptableAnswers :=
                        splice1 P1 (bestMatchIndex (checkAnswer u P1)) |})
                else (incorrect, J1)).
  { rewrite judge_eq. cbn [J1 acceptableAnswers promptableAnswers].
    rewrite Ea. reflexivity. }
  repeat split; try assumption; try reflexivity.
  - unfold passes in Ep. rewrite <- Hs. exact Ep.
  - rewrite Hj1. destruct (Qgtb (score u P1) MIN_RATING); discriminate.
  - intros J2 Hj2. rewrite Hj1 in Hj2.
    destruct (Qgtb (score u P1) MIN_RATING) eqn:Ep1; [|discriminate].
    apply Qgtb_true in Ep1.
    destruct (prompt_removes_best u P1 Ep1)
      as (m' & q & Hq & Hsp1 & Hs1 & _ & _).
    injection Hj2 as <-. cbn [promptableAnswers]. rewrite Hsp1.
    assert (m' < length P1)%nat as Hm'
        by (apply nth_error_Some; rewrite Hq; discriminate).
    assert (length P1 + 1 = length P)%nat as HlenP1.
    { unfold P1. rewrite length_app, length_firstn, length_skipn. lia. }
    unfold P1 in Hq. rewrite nth_error_remove in Hq by exact Hn.
    exists (if (m' <? n)%nat then m' else S m'), q.
    repeat split.
    + destruct (Nat.ltb_spec m' n); lia.
    + exact Hq.
    + unfold passes in Ep1. rewrite <- Hs1. exact Ep1.
    + rewrite length_app, length_firstn, length_skipn. lia.
  - intros Hothers. rewrite Hj1.
    destruct (Qgtb (score u P1) MIN_RATING) eqn:Ep1; [|reflexivity].
    exfalso. apply Qgtb_true in Ep1.
    destruct (prompt_removes_best u P1 Ep1)
      as (m' & q & Hq & _ & Hs1 & _ & _).
    unfold P1 in Hq. rewrite nth_error_remove in Hq by exact Hn.
    apply (Hothers _ q) in Hq.
    + apply Hq. unfold passes in Ep1. rewrite <- Hs1. exact Ep1.
    + destruct (Nat.ltb_spec m' n); lia.
Qed.

Definition napoleon_judge : Judge :=
  {| acceptableAnswers := [str "napoleon"];
     promptableAnswers := [str "bonaparte"] |}.

Lemma judge_prompt_consumed_witness :
  judge napoleon_judge (str "bonaparte")
  = (prompt, {| acceptableAnswers := [str "napoleon"];
                promptableAnswers := [] |})
  /\ fst (judge {| acceptableAnswers := [str "napoleon"];
                   promptableAnswers := [] |} (str "bonaparte"))
     = incorrect.
Proof.
  split; [reflexivity|].
  destruct (judge_prompt_consumed napoleon_judge _ (str "bonaparte")
              eq_refl)
    as (n & p & Hp & _ & _ & _ & _ & _ & Hinc).
  apply Hinc. intros m q Hm Hq.
  destruct n as [|n]; [|destruct n; discriminate Hp].
  destruct m as [|m]; [contradiction Hm; reflexivity|].
  destruct m; discriminate Hq.
Defined.

End JudgingFacts.

(** ** The tossup reader *)

Module ReaderFacts.
Import Scoring Reader.

Lemma ReaderStatus_eqb_eq :
  forall a b, ReaderStatus_eqb a b = true <-> a = b.
Proof. intros [] []; cbn; split; congruence. Qed.

(** No reducer case leaves [fetching] except [nextTossup.fulfilled]. *)
Lemma reducer_status :
  forall s a,
    status (reducer s a) = status s
    \/ (status s = reading /\ status (reducer s a) = answering)
    \/ ((status s = answering \/ status s = prompting)
        /\ (status (reducer s a) = prompting
            \/ status (reducer s a) = judged)).
Proof.
  intros s a; destruct a; cbn;
    unfold buzz, prompt, submitAnswer; cbn;
    destruct (status s) eqn:E; cbn; rewrite ?E; auto 6.
Qed.

(** While a [nextTossup] thunk is in flight it is the only one and the
    reader is [fetching]. *)
Definition in_flight_inv (st : Store) : Prop :=
  inFlight st = 0
  \/ (inFlight st = 1 /\ status (state st) = fetching).

Lemma step_preserves_inv :
  forall st st', in_flight_inv st -> step st st' -> in_flight_inv st'.
Proof.
  intros st st' Hinv Hstep.
  destruct Hstep as [st a | st Hc | st n Hn | st n Hn];
    unfold in_flight_inv in *; cbn [state inFlight].
  - destruct Hinv as [H0 | [H1 Hf]]; [left; exact H0 | right].
    split; [exact H1|].
    destruct (reducer_status (state st) a) as [H | [[H _] | [[H | H] _]]];
      congruence.
  - right. destruct Hinv as [H0 | [_ Hf]].
    + rewrite H0. split; reflexivity.
    + unfold nextTossup_condition in Hc. rewrite Hf in Hc. discriminate.
  - left. destruct Hinv as [H0 | [H1 _]]; lia.
  - left. destruct Hinv as [H0 | [H1 _]]; lia.
Qed.

Lemma reachable_inv : forall st, reachable st -> in_flight_inv st.
Proof.
  induction 1 as [| st st' _ IH Hstep].
  - left; reflexivity.
  - eapply step_preserves_inv; eassumption.
Qed.

Lemma nextTossup_fulfilled_status :
  forall s,
    status (nextTossup_fulfilled s)
    = match tossups s with [] => empty | _ :: _ => reading end.
Proof.
  intros s. unfold nextTossup_fulfilled.
  destruct (tossups s); reflexivity.
Qed.

(** C8. [buzz] takes [reading] to [answering] and changes no other
    status; [prompt] sets [prompting] from [answering] and [prompting]
    only; a fulfilled [nextTossup] gives [empty] on an empty queue and
    [reading] otherwise; every step of a reachable store keeps the status
    or moves it along a legal transition; and [empty], once entered, is
    never left. *)
Theorem reader_status_transitions :
  (forall s,
      buzz s = match status s with
               | reading => set_status s answering
               | _ => s
               end)
  /\ (forall s,
         prompt s = match status s with
                    | answering | prompting => set_status s prompting
                    | _ => s
                    end)
  /\ (forall s,
         status (nextTossup_fulfilled s)
         = match tossups s with [] => empty | _ :: _ => reading end)
  /\ (forall st st',
         reachable st -> step st st' ->
         status (state st') = status (state st)
         \/ legal (status (state st)) (status (state st')) = true)
  /\ (forall st st',
         reachable st -> step st st' ->
         status (state st) = empty -> status (state st') = empty).
Proof.
  split; [|split; [|split; [|split]]].
  - intros s; unfold buzz; destruct (status s); reflexivity.
  - intros s; unfold prompt; destruct (status s); reflexivity.
  - apply nextTossup_fulfilled_status.
  - intros st st' Hreach Hstep.
    pose proof (reachable_inv st Hreach) as Hinv.
    destruct Hstep as [st a | st Hc | st n Hn | st n Hn];
      cbn [state].
    + destruct (reducer_status (state st) a)
        as [H | [[H1 H2] | [[H1 | H1] [H2 | H2]]]];
        rewrite ?H1, ?H2; auto.
    + right. unfold nextTossup_condition in Hc. cbn.
      destruct (status (state st)); cbn in Hc; try discriminate;
        reflexivity.
    + right. destruct Hinv as [H0 | [_ Hf]]; [lia|].
      rewrite nextTossup_fulfilled_status, Hf.
      destruct (tossups (state st)); reflexivity.
    + left; reflexivity.
  - intros st st' Hreach Hstep Hempty.
    pose proof (reachable_inv st Hreach) as Hinv.
    destruct Hstep as [st a | st Hc | st n Hn | st n Hn];
      cbn [state].
    + destruct (reducer_status (state st) a)
        as [H | [[H1 H2] | [[H1 | H1] _]]]; congruence.
    + unfold nextTossup_condition in Hc. rewrite Hempty in Hc.
      discriminate Hc.
    + destruct Hinv as [H0 | [_ Hf]]; [lia | congruence].
    + exact Hempty.
Qed.

(** C9 (amended). In [answering] or [prompting], [submitAnswer] moves to
    [judged], puts the result at the front of the history, leaving every
    earlier result in place behind it, and adds the result's points to
    the score; in any other status it changes nothing. *)
Theorem submitAnswer_effect :
  forall (s : TossupReaderState) (r : TossupResult),
    (status s = answering \/ status s = prompting ->
     status (submitAnswer s r) = judged
     /\ results (submitAnswer s r) = r :: results s
     /\ (forall i x, nth_error (results s) i = Some x ->
                     nth_error (results (submitAnswer s r)) (S i) = Some x)
     /\ currentResult (submitAnswer s r) = Some r
     /\ total (submitAnswer s r)
        = (total s + TossupScore_value (score r))%Z)
    /\ (status s <> answering -> status s <> prompting ->
        submitAnswer s r = s).
Proof.
  intros s r. unfold submitAnswer. split.
  - intros [H | H]; rewrite H; cbn; repeat split; auto.
  - intros Ha Hp. destruct (status s); cbn; congruence.
Qed.

Definition blankTossup : Tossup :=
  {| text := []; answer := []; formattedText := []; formattedAnswer := [];
     category := 0; subcategory := 0; difficulty := 0; tournament := [] |}.

Definition result_of (sc : TossupScore) : TossupResult :=
  {| tossup := blankTossup; isCorrect := false; submittedAnswer := [];
     score := sc; buzz_of := currentBuzz initialState |}.

Definition answering_after_neg : TossupReaderState :=
  {| status := answering; tossups := []; results := [result_of neg];
     currentTossup := None; currentResult := None;
     currentBuzz := currentBuzz initialState; total := (-5)%Z |}.

(** C9 as stated fails: the history is not extended at its end.  After a
    first result worth -5, submitting a result worth 10 gives the history
    [10; -5], not [-5; 10]. *)
Lemma submitAnswer_not_appended :
  results (submitAnswer answering_after_neg (result_of ten))
  = [result_of ten; result_of neg]
  /\ results (submitAnswer answering_after_neg (result_of ten))
     <> results answering_after_neg ++ [result_of ten].
Proof.
  split; [reflexivity | discriminate].
Qed.

End ReaderFacts.

(** ** The text normalizer *)

Module NormalizerFacts.
Import JsFacts Normalizer.

(** *** Spacing *)

Definition starts_with_space (s : jsstring) : bool :=
  match s with
  | [] => false
  | c :: _ => is_space c
  end.

Fixpoint ends_with_space (s : jsstring) : bool :=
  match s with
  | [] => false
  | c :: s' => match s' with [] => is_space c | _ :: _ => ends_with_space s' end
  end.

Fixpoint tight (s : jsstring) : bool :=
  match s with
  | [] => true
  | c :: s' =>
      (if is_space c
       then char_eqb c " "%char && negb (starts_with_space s')
       else true)
      && tight s'
  end.

Definition well_spaced (s : jsstring) : bool :=
  tight s && negb (starts_with_space s) && negb (ends_with_space s).

Lemma collapse_tight :
  forall s b,
    tight s = true ->
    (b = true -> starts_with_space s = false) ->
    collapse_spaces b s = s.
Proof.
  induction s as [|c s IH]; intros b Ht Hb; [reflexivity|].
  cbn in Ht |- *. apply andb_true_iff in Ht as [Hc Ht].
  destruct (is_space c) eqn:Ec.
  - apply andb_true_iff in Hc as [Hc Hs].
    apply char_eqb_eq in Hc; subst c.
    apply negb_true_iff in Hs.
    destruct b.
    + specialize (Hb eq_refl). cbn in Hb. congruence.
    + rewrite (IH true Ht (fun _ => Hs)). reflexivity.
  - rewrite (IH false Ht) by discriminate. reflexivity.
Qed.

Lemma trimStart_id :
  forall s, starts_with_space s = false -> trimStart s = s.
Proof. intros [|c s] H; cbn in *; [reflexivity | rewrite H; reflexivity]. Qed.

Lemma ends_with_space_cons :
  forall c s, s <> [] -> ends_with_space (c :: s) = ends_with_space s.
Proof. intros c [|d s] H; [contradiction | reflexivity]. Qed.

Lemma trimEnd_id :
  forall s, ends_with_space s = false -> trimEnd s = s.
Proof.
  induction s as [|c s IH]; intros H; [reflexivity|].
  destruct s as [|d s].
  - cbn in *. rewrite H. reflexivity.
  - rewrite ends_with_space_cons in H by discriminate.
    cbn [trimEnd]. cbn [trimEnd] in IH. rewrite (IH H). reflexivity.
Qed.

Lemma trimEnd_snoc_space :
  forall s c, is_space c = true -> trimEnd (s ++ [c]) = trimEnd s.
Proof.
  induction s as [|d s IH]; intros c Hc; cbn.
  - rewrite Hc. reflexivity.
  - rewrite (IH c Hc). reflexivity.
Qed.

Lemma ends_with_space_app :
  forall a b, b <> [] -> ends_with_space (a ++ b) = ends_with_space b.
Proof.
  induction a as [|c a IH]; intros b Hb; [reflexivity|].
  cbn [app]. rewrite ends_with_space_cons.
  - apply IH, Hb.
  - destruct a, b; try discriminate. contradiction.
Qed.

Lemma starts_with_space_app :
  forall a b, a <> [] -> starts_with_space (a ++ b) = starts_with_space a.
Proof. intros [|c a] b H; [contradiction | reflexivity]. Qed.

Lemma tight_app :
  forall a b,
    tight a = true -> tight b = true ->
    ends_with_space a = false \/ starts_with_space b = false ->
    tight (a ++ b) = true.
Proof.
  induction a as [|c a IH]; intros b Ha Hb Hj; [exact Hb|].
  cbn in Ha. apply andb_true_iff in Ha as [Hc Ha].
  cbn [app tight]. apply andb_true_iff. split.
  - destruct (is_space c) eqn:Ec; [|reflexivity].
    apply andb_true_iff in Hc as [Hc Hs]. rewrite Hc. cbn.
    destruct a as [|d a].
    + cbn in Hj. destruct Hj as [Hj | Hj]; [congruence|].
      cbn. rewrite Hj. reflexivity.
    + exact Hs.
  - apply IH; try assumption.
    destruct a as [|d a]; [left; reflexivity|].
    rewrite ends_with_space_cons in Hj by discriminate. exact Hj.
Qed.

(** [normalizeSpacing] leaves a well-spaced string as it is. *)
Lemma normalizeSpacing_id :
  forall s, well_spaced s = true -> normalizeSpacing s = s.
Proof.
  intros s H. unfold well_spaced in H.
  apply andb_true_iff in H as [H He]. apply andb_true_iff in H as [Ht Hs].
  apply negb_true_iff in He, Hs.
  unfold normalizeSpacing, trim.
  rewrite collapse_tight by (assumption || discriminate).
  rewrite trimStart_id by assumption. apply trimEnd_id, He.
Qed.

(** ... and removes a blank that follows one. *)
Lemma normalizeSpacing_trailing :
  forall s, well_spaced s = true -> normalizeSpacing (s ++ [" "%char]) = s.
Proof.
  intros s H. unfold well_spaced in H.
  apply andb_true_iff in H as [H He]. apply andb_true_iff in H as [Ht Hs].
  apply negb_true_iff in He, Hs.
  unfold normalizeSpacing, trim.
  rewrite collapse_tight; [| apply tight_app; auto | discriminate].
  destruct s as [|c s]; [reflexivity|].
  rewrite trimStart_id by exact Hs.
  rewrite trimEnd_snoc_space by reflexivity. apply trimEnd_id, He.
Qed.

(** The result of [normalizeSpacing] is well spaced. *)
Lemma collapse_spaces_tight :
  forall s b,
    tight (collapse_spaces b s) = true
    /\ (b = true -> starts_with_space (collapse_spaces b s) = false).
Proof.
  induction s as [|c s IH]; intros b; [split; reflexivity|].
  cbn [collapse_spaces]. destruct (is_space c) eqn:Ec.
  - destruct b.
    + apply IH.
    + destruct (IH true) as [Ht Hs]. split; [|discriminate].
      cbn. rewrite (Hs eq_refl), Ht. reflexivity.
  - destruct (IH false) as [Ht _]. split.
    + cbn. rewrite Ec, Ht. reflexivity.
    + intros _. cbn. exact Ec.
Qed.

Lemma tight_tail : forall c s, tight (c :: s) = true -> tight s = true.
Proof. intros c s H. cbn in H. apply andb_true_iff in H as [_ H]. exact H. Qed.

Lemma trimStart_tight :
  forall s, tight s = true ->
            tight (trimStart s) = true
            /\ starts_with_space (trimStart s) = false.
Proof.
  induction s as [|c s IH]; intros H; [split; reflexivity|].
  cbn [trimStart]. destruct (is_space c) eqn:Ec.
  - apply IH. eapply tight_tail, H.
  - split; [exact H | exact Ec].
Qed.

Lemma trimEnd_head :
  forall s c r, trimEnd s = c :: r -> exists s', s = c :: s'.
Proof.
  intros [|d s] c r H; [discriminate|].
  cbn in H. destruct (trimEnd s); [destruct (is_space d)|];
    try discriminate; injection H as -> _; eauto.
Qed.

Lemma trimEnd_tight :
  forall s, tight s = true ->
            tight (trimEnd s) = true
            /\ ends_with_space (trimEnd s) = false
            /\ (starts_with_space s = false ->
                starts_with_space (trimEnd s) = false).
Proof.
  induction s as [|c s IH]; intros H; [repeat split|].
  pose proof (tight_tail _ _ H) as Hs.
  destruct (IH Hs) as (Ht & He & Hst).
  cbn [trimEnd]. destruct (trimEnd s) as [|d r] eqn:E.
  - destruct (is_space c) eqn:Ec; [repeat split|].
    repeat split; cbn; rewrite Ec; reflexivity.
  - destruct (trimEnd_head _ _ _ E) as [s' ->].
    repeat split.
    + cbn in H |- *. apply andb_true_iff in H as [Hc _].
      rewrite Hc. exact Ht.
    + rewrite ends_with_space_cons by discriminate. exact He.
    + intros Hc. exact Hc.
Qed.

Lemma normalizeSpacing_well_spaced :
  forall s, well_spaced (normalizeSpacing s) = true.
Proof.
  intros s. unfold normalizeSpacing, trim, well_spaced.
  destruct (collapse_spaces_tight s false) as [Ht _].
  destruct (trimStart_tight _ Ht) as [Ht' Hs].
  destruct (trimEnd_tight _ Ht') as (Ht'' & He & Hst).
  rewrite Ht'', He, (Hst Hs). reflexivity.
Qed.

(** *** Code units *)

Ltac nat_cases :=
  repeat match goal with
         | H : context [Nat.leb ?a ?b] |- _ => destruct (Nat.leb_spec a b)
         | H : context [Nat.eqb ?a ?b] |- _ => destruct (Nat.eqb_spec a b)
         | |- context [Nat.leb ?a ?b] => destruct (Nat.leb_spec a b)
         | |- context [Nat.eqb ?a ?b] => destruct (Nat.eqb_spec a b)
         end;
  cbn [andb orb negb] in *; try lia; try discriminate; try reflexivity.

Lemma code_bound : forall c, code c < 256.
Proof. intros c; apply nat_ascii_bounded. Qed.

Lemma toLowerChar_not_upper : forall c, is_upper (toLowerChar c) = false.
Proof.
  intros c. unfold toLowerChar.
  destruct (is_upper c
            || (192 <=? code c) && (code c <=? 222) && negb (code c =? 215))
           eqn:E.
  - pose proof (code_bound c) as Hb.
    assert (65 <= code c <= 222) as Hr.
    { unfold is_upper in E. nat_cases. }
    unfold is_upper. rewrite code_ascii_of_nat by lia. nat_cases.
  - apply orb_false_iff in E as [E _]. exact E.
Qed.

(** The code units of a normalized answer: digits, small letters and the
    blank. *)
Definition canonical_char (c : ascii) : bool :=
  is_digit c || is_lower c || char_eqb c " "%char.

Lemma canonical_char_cases :
  forall c, canonical_char c = true ->
            code c = 32 \/ 48 <= code c <= 57 \/ 97 <= code c <= 122.
Proof.
  intros c H. unfold canonical_char in H.
  apply orb_true_iff in H as [H | H];
    [apply orb_true_iff in H as [H | H] |].
  - right; left. unfold is_digit in H.
    apply andb_true_iff in H as [H1 H2].
    apply Nat.leb_le in H1, H2. lia.
  - right; right. unfold is_lower in H.
    apply andb_true_iff in H as [H1 H2].
    apply Nat.leb_le in H1, H2. lia.
  - left. apply char_eqb_eq in H. subst c. reflexivity.
Qed.

Ltac by_code c :=
  generalize dependent (code c); intros n Hn;
  repeat match goal with
         | |- context [Nat.leb ?a ?b] => destruct (Nat.leb_spec a b)
         | |- context [Nat.eqb ?a ?b] => destruct (Nat.eqb_spec a b)
         end;
  try reflexivity; exfalso; lia.

Lemma canonical_not_quote :
  forall c, canonical_char c = true -> negb (is_quote c) = true.
Proof.
  intros c H. apply canonical_char_cases in H.
  unfold is_quote. by_code c.
Qed.

Lemma canonical_lower :
  forall c, canonical_char c = true -> toLowerChar c = c.
Proof.
  intros c H. apply canonical_char_cases in H.
  unfold toLowerChar.
  assert (is_upper c
          || (192 <=? code c) && (code c <=? 222) && negb (code c =? 215)
          = false) as ->; [|reflexivity].
  unfold is_upper. by_code c.
Qed.

Lemma canonical_kept :
  forall c, canonical_char c = true ->
            is_alphanumeric c || is_space c = true.
Proof.
  intros c H. apply canonical_char_cases in H.
  unfold is_alphanumeric, is_digit, is_upper, is_lower, is_space.
  by_code c.
Qed.

Lemma kept_lowered_canonical :
  forall c,
    is_alphanumeric (toLowerChar c) || is_space (toLowerChar c) = true ->
    is_space (toLowerChar c) || canonical_char (toLowerChar c) = true.
Proof.
  intros c H. pose proof (toLowerChar_not_upper c) as Hu.
  unfold is_alphanumeric, canonical_char in *. rewrite Hu in H.
  destruct (is_space (toLowerChar c)); [reflexivity|].
  destruct (is_digit (toLowerChar c)); [reflexivity|].
  destruct (is_lower (toLowerChar c)); [reflexivity|].
  discriminate.
Qed.

(** *** The code units that [normalizeSpacing] lets through *)

Section Through.
Variable P : ascii -> bool.
Hypothesis P_blank : P " "%char = true.

Lemma collapse_spaces_forallb :
  forall s b,
    forallb (fun c => is_space c || P c) s = true ->
    forallb P (collapse_spaces b s) = true.
Proof.
  induction s as [|c s IH]; intros b H; [reflexivity|].
  cbn in H. apply andb_true_iff in H as [Hc H].
  cbn [collapse_spaces]. destruct (is_space c) eqn:Ec.
  - destruct b; [apply IH, H|]. cbn. rewrite P_blank. apply IH, H.
  - cbn in Hc |- *. rewrite Hc. apply IH, H.
Qed.

Lemma trimStart_forallb :
  forall s, forallb P s = true -> forallb P (trimStart s) = true.
Proof.
  induction s as [|c s IH]; intros H; [reflexivity|].
  cbn [trimStart]. destruct (is_space c); [|exact H].
  cbn in H. apply andb_true_iff in H as [_ H]. apply IH, H.
Qed.

Lemma trimEnd_forallb :
  forall s, forallb P s = true -> forallb P (trimEnd s) = true.
Proof.
  induction s as [|c s IH]; intros H; [reflexivity|].
  cbn in H. apply andb_true_iff in H as [Hc H].
  cbn [trimEnd]. specialize (IH H). destruct (trimEnd s).
  - destruct (is_space c); cbn; rewrite ?Hc; reflexivity.
  - cbn [forallb]. rewrite Hc. exact IH.
Qed.

Lemma normalizeSpacing_forallb :
  forall s,
    forallb (fun c => is_space c || P c) s = true ->
    forallb P (normalizeSpacing s) = true.
Proof.
  intros s H. unfold normalizeSpacing, trim.
  apply trimEnd_forallb, trimStart_forallb, collapse_spaces_forallb, H.
Qed.

End Through.

Definition canonical (t : jsstring) : bool :=
  forallb canonical_char t && well_spaced t.

Lemma normalized_canonical :
  forall u,
    canonical (normalizeSpacing (removeNonAlphanumeric (toLowerCase u)))
    = true.
Proof.
  intros u. unfold canonical.
  rewrite normalizeSpacing_well_spaced, andb_true_r.
  apply normalizeSpacing_forallb; [reflexivity|].
  unfold removeNonAlphanumeric, toLowerCase.
  apply forallb_forall. intros c Hc.
  apply filter_In in Hc as [Hin Hk].
  apply in_map_iff in Hin as (c0 & <- & _).
  apply kept_lowered_canonical, Hk.
Qed.

(** *** [convertNumberToWords] without numerals *)

Definition no_numeral (t : jsstring) : bool :=
  forallb (fun w => negb (isNumeric w)) (split_on " "%char t).

Lemma mapM_unchanged :
  forall {A} (f : A -> option A) l,
    (forall x, In x l -> f x = Some x) -> mapM f l = Some l.
Proof.
  induction l as [|x l IH]; intros H; [reflexivity|].
  cbn. rewrite (H x (or_introl eq_refl)), IH; [reflexivity|].
  intros y Hy. apply H. right; exact Hy.
Qed.

Lemma convertNumberToWords_no_numeral :
  forall t, no_numeral t = true -> convertNumberToWords t = Some t.
Proof.
  intros t H. unfold convertNumberToWords.
  rewrite mapM_unchanged.
  - f_equal. apply (join_split_on " "%char).
  - intros w Hw. unfold no_numeral in H. rewrite forallb_forall in H.
    specialize (H w Hw). apply negb_true_iff in H. rewrite H. reflexivity.
Qed.

(** *** Counting digits: a numeral does not survive a second pass *)

Definition digits (s : jsstring) : nat := length (filter is_digit s).

Lemma digits_app : forall a b, digits (a ++ b) = digits a + digits b.
Proof.
  intros a b. unfold digits. rewrite filter_app, length_app. reflexivity.
Qed.

Lemma digits_cons :
  forall c s, digits (c :: s) = (if is_digit c then 1 else 0) + digits s.
Proof. intros c s. unfold digits. cbn. destruct (is_digit c); reflexivity. Qed.

Lemma space_not_digit : forall c, is_space c = true -> is_digit c = false.
Proof.
  intros c H. unfold is_space, is_digit in *.
  generalize dependent (code c); intros n H.
  repeat match goal with
         | H : context [Nat.leb ?a ?b] |- _ => destruct (Nat.leb_spec a b)
         | H : context [Nat.eqb ?a ?b] |- _ => destruct (Nat.eqb_spec a b)
         | |- context [Nat.leb ?a ?b] => destruct (Nat.leb_spec a b)
         end;
    cbn [andb orb] in *; try reflexivity; try discriminate; lia.
Qed.

Fixpoint total_digits (ws : list jsstring) : nat :=
  match ws with
  | [] => 0
  | w :: ws' => digits w + total_digits ws'
  end.

Lemma digits_join :
  forall ws, digits (join (str " ") ws) = total_digits ws.
Proof.
  induction ws as [|w ws IH]; [reflexivity|].
  cbn [total_digits].
  destruct ws as [|w' ws].
  - cbn [join total_digits]. lia.
  - change (join (str " ") (w :: w' :: ws))
      with (w ++ str " " ++ join (str " ") (w' :: ws)).
    rewrite !digits_app, IH. reflexivity.
Qed.

Lemma digits_split :
  forall s, total_digits (split_on " "%char s) = digits s.
Proof.
  intros s. rewrite <- digits_join.
  change (str " ") with [" "%char]. rewrite join_split_on. reflexivity.
Qed.

Lemma digits_filter_le :
  forall p s, digits (filter p s) <= digits s.
Proof.
  intros p; induction s as [|c s IH]; [reflexivity|].
  cbn [filter]. destruct (p c); rewrite ?digits_cons; lia.
Qed.

Lemma digits_collapse_spaces :
  forall s b, digits (collapse_spaces b s) = digits s.
Proof.
  induction s as [|c s IH]; intros b; [reflexivity|].
  cbn [collapse_spaces]. destruct (is_space c) eqn:Ec.
  - rewrite digits_cons, (space_not_digit c Ec).
    destruct b; rewrite ?digits_cons, IH; reflexivity.
  - rewrite !digits_cons, IH. reflexivity.
Qed.

Lemma digits_trimStart : forall s, digits (trimStart s) = digits s.
Proof.
  induction s as [|c s IH]; [reflexivity|].
  cbn [trimStart]. destruct (is_space c) eqn:Ec; [|reflexivity].
  rewrite digits_cons, (space_not_digit c Ec), IH. reflexivity.
Qed.

Lemma digits_trimEnd : forall s, digits (trimEnd s) = digits s.
Proof.
  induction s as [|c s IH]; [reflexivity|].
  cbn [trimEnd]. rewrite digits_cons, <- IH.
  destruct (trimEnd s) as [|d r].
  - destruct (is_space c) eqn:Ec.
    + rewrite (space_not_digit c Ec). reflexivity.
    + rewrite digits_cons. reflexivity.
  - rewrite digits_cons. reflexivity.
Qed.

Lemma digits_normalizeSpacing :
  forall s, digits (normalizeSpacing s) = digits s.
Proof.
  intros s. unfold normalizeSpacing, trim.
  rewrite digits_trimEnd, digits_trimStart. apply digits_collapse_spaces.
Qed.

Lemma toLowerChar_digit : forall c, is_digit (toLowerChar c) = is_digit c.
Proof.
  intros c. unfold toLowerChar.
  destruct (is_upper c
            || (192 <=? code c) && (code c <=? 222) && negb (code c =? 215))
           eqn:E; [|reflexivity].
  pose proof (code_bound c) as Hb.
  assert (Hr : 65 <= code c <= 222).
  { unfold is_upper in E. revert E.
    generalize dependent (code c); intros n Hn.
    repeat match goal with
           | |- context [Nat.leb ?a ?b] => destruct (Nat.leb_spec a b)
           | |- context [Nat.eqb ?a ?b] => destruct (Nat.eqb_spec a b)
           end;
      cbn [andb orb negb]; intros; try discriminate; lia. }
  unfold is_digit. rewrite code_ascii_of_nat by lia.
  generalize dependent (code c); intros n _ _ Hn.
  repeat match goal with
         | |- context [Nat.leb ?a ?b] => destruct (Nat.leb_spec a b)
         end;
    try reflexivity; lia.
Qed.

Lemma digits_toLowerCase : forall s, digits (toLowerCase s) = digits s.
Proof.
  induction s as [|c s IH]; [reflexivity|].
  unfold toLowerCase in *. cbn [map].
  rewrite !digits_cons, toLowerChar_digit, IH. reflexivity.
Qed.

(** The words of [toWords] hold no digit. *)
Definition digit_free (w : jsstring) : Prop := digits w = 0.

Lemma table_digit_free :
  forall table n,
    Forall digit_free table -> digit_free (nth n table []).
Proof.
  intros table n H. destruct (nth_in_or_default n table []) as [Hin | ->];
    [|reflexivity].
  rewrite Forall_forall in H. apply H, Hin.
Qed.

Lemma LESS_THAN_TWENTY_digit_free : Forall digit_free LESS_THAN_TWENTY.
Proof. repeat constructor. Qed.

Lemma TENTHS_digit_free : Forall digit_free TENTHS_LESS_THAN_HUNDRED.
Proof. repeat constructor. Qed.

Lemma dropFinalComma_digits :
  forall s, digits (dropFinalComma s) = digits s.
Proof.
  intros s. unfold dropFinalComma.
  destruct (rev s) as [|c r] eqn:E; [reflexivity|].
  assert (Hs : s = rev r ++ [c])
    by (rewrite <- (rev_involutive s), E; reflexivity).
  destruct (Ascii.eqb_spec c ","%char) as [-> | Hc].
  - rewrite Hs, digits_app. cbn [digits filter length].
    change (is_digit ","%char) with false. cbn [length]. lia.
  - destruct c as [[] [] [] [] [] [] [] []]; try reflexivity.
    contradiction Hc; reflexivity.
Qed.

Lemma join_digit_free :
  forall ws, Forall digit_free ws -> digit_free (join (str " ") ws).
Proof.
  intros ws H. unfold digit_free. rewrite digits_join.
  induction H as [|w ws Hw _ IH]; [reflexivity|].
  cbn [total_digits]. rewrite Hw, IH. reflexivity.
Qed.

Lemma generateWords_digit_free :
  forall fuel number words,
    (forall ws, words = Some ws -> Forall digit_free ws) ->
    digit_free (generateWords fuel number words).
Proof.
  induction fuel as [|fuel IH]; intros number words Hws; [reflexivity|].
  cbn [generateWords].
  destruct (number =? 0)%Z.
  - destruct words as [ws|]; [|reflexivity].
    unfold digit_free. rewrite dropFinalComma_digits.
    apply join_digit_free, Hws. reflexivity.
  - set (ws0 := match words with Some ws => ws | None => [] end).
    assert (Hws0 : Forall digit_free ws0).
    { unfold ws0. destruct words; [apply Hws; reflexivity | constructor]. }
    set (ws1 := if (number <? 0)%Z then ws0 ++ [str "minus"] else ws0).
    assert (Hws1 : Forall digit_free ws1).
    { unfold ws1. destruct (number <? 0)%Z; [|exact Hws0].
      apply Forall_app. split; [exact Hws0 | repeat constructor]. }
    assert (Hscale : forall unit name,
               digit_free (str name) ->
               digit_free (generateWords fuel (Z.abs number / unit) None
                             ++ str name)).
    { intros unit name Hn. unfold digit_free. rewrite digits_app.
      rewrite (IH _ None) by discriminate. exact Hn. }
    assert (Hnext : forall word remainder,
               digit_free word ->
               digit_free (generateWords fuel remainder
                             (Some (ws1 ++ [word])))).
    { intros word remainder Hw. apply IH. intros ws E. injection E as <-.
      apply Forall_app. split; [exact Hws1 | repeat constructor; exact Hw]. }
    repeat match goal with
           | |- context [if ?b then _ else _] => destruct b
           end;
      apply Hnext;
      try (apply Hscale; reflexivity);
      try (apply table_digit_free;
           first [apply LESS_THAN_TWENTY_digit_free | apply TENTHS_digit_free]).
    unfold digit_free. rewrite !digits_app.
    rewrite (table_digit_free _ _ TENTHS_digit_free).
    rewrite (table_digit_free _ _ LESS_THAN_TWENTY_digit_free).
    reflexivity.
Qed.

Lemma toWords_digit_free :
  forall w u, toWords w = Some u -> digit_free u.
Proof.
  intros w u H. unfold toWords in H.
  destruct (Z.abs (parseInt w) <=? MAX_SAFE_INTEGER)%Z; [|discriminate].
  assert (E : generateWords 64 (parseInt w) None = u) by congruence.
  rewrite <- E. apply generateWords_digit_free. discriminate.
Qed.

Lemma unsigned_part_cases :
  forall s, unsigned_part s = s \/ s = "-"%char :: unsigned_part s.
Proof.
  intros [|c r]; [left; reflexivity|].
  destruct c as [[] [] [] [] [] [] [] []];
    first [left; reflexivity | right; reflexivity].
Qed.

Lemma isNumeric_digits : forall w, isNumeric w = true -> 1 <= digits w.
Proof.
  intros w H. unfold isNumeric in H. cbn zeta in H.
  apply andb_true_iff in H as [Hne Hall].
  assert (Hd : 1 <= digits (unsigned_part w)).
  { destruct (unsigned_part w) as [|c d]; [discriminate|].
    cbn [forallb] in Hall. apply andb_true_iff in Hall as [Hc _].
    rewrite digits_cons, Hc. lia. }
  destruct (unsigned_part_cases w) as [E | E].
  - rewrite E in Hd. exact Hd.
  - rewrite E, digits_cons. lia.
Qed.

(** Converting the words one by one never adds a digit, and removes the
    digits of every numeral. *)
Lemma mapM_convert_digits :
  forall ws us,
    mapM (fun w => if isNumeric w then toWords w else Some w) ws = Some us ->
    total_digits us <= total_digits ws
    /\ (forallb (fun w => negb (isNumeric w)) ws = false ->
        total_digits us < total_digits ws).
Proof.
  induction ws as [|w ws IH]; intros us H.
  - injection H as <-. split; [reflexivity | discriminate].
  - cbn [mapM] in H.
    destruct (if isNumeric w then toWords w else Some w) as [u|] eqn:Eu;
      [|discriminate].
    destruct (mapM _ ws) as [us'|] eqn:Eus; [|discriminate].
    injection H as <-. destruct (IH us' eq_refl) as [Hle Hlt].
    cbn [total_digits forallb].
    destruct (isNumeric w) eqn:En.
    + pose proof (toWords_digit_free _ _ Eu) as Hu. unfold digit_free in Hu.
      pose proof (isNumeric_digits _ En). rewrite Hu. cbn [negb andb].
      split; [lia | intros _; lia].
    + injection Eu as <-. cbn [negb andb]. split; [lia|].
      intros Hf. specialize (Hlt Hf). lia.
Qed.

Lemma convertNumberToWords_digits :
  forall t u,
    convertNumberToWords t = Some u ->
    no_numeral t = false ->
    digits u < digits t.
Proof.
  intros t u H Hn. unfold convertNumberToWords in H.
  destruct (mapM _ (split_on " "%char t)) as [us|] eqn:E; [|discriminate].
  injection H as <-. rewrite digits_join, <- (digits_split t).
  apply (mapM_convert_digits _ _ E). exact Hn.
Qed.

Section Idempotence.
Context `{Nlp}.

(** The language library leaves text alone that is already normalized. *)
Hypothesis normalize_light_canonical :
  forall t, canonical t = true -> normalize_light t = t.

Lemma normalizeAnswer_canonical :
  forall s t, normalizeAnswer s = Some t -> canonical t = true.
Proof.
  intros s t Hs. unfold normalizeAnswer in Hs.
  destruct (convertNumberToWords (removeQuotes (normalize_light s)));
    [|discriminate].
  injection Hs as <-. apply normalized_canonical.
Qed.

Lemma normalizeAnswer_fixed :
  forall t, canonical t = true -> no_numeral t = true ->
            normalizeAnswer t = Some t.
Proof.
  intros t Hc Hn. unfold normalizeAnswer.
  rewrite (normalize_light_canonical t Hc).
  unfold canonical in Hc. apply andb_true_iff in Hc as [Hch Hws].
  assert (removeQuotes t = t) as ->.
  { apply filter_all. eapply forallb_impl; [|exact Hch].
    apply canonical_not_quote. }
  rewrite (convertNumberToWords_no_numeral t Hn). f_equal.
  assert (toLowerCase t = t) as ->.
  { unfold toLowerCase. rewrite <- (map_id t) at 2.
    apply map_ext_in. intros c Hc. apply canonical_lower.
    rewrite forallb_forall in Hch. apply Hch, Hc. }
  assert (removeNonAlphanumeric t = t) as ->.
  { apply filter_all. eapply forallb_impl; [|exact Hch].
    apply canonical_kept. }
  apply normalizeSpacing_id, Hws.
Qed.

Lemma removeQuotes_canonical :
  forall t, forallb canonical_char t = true -> removeQuotes t = t.
Proof.
  intros t Ht. apply filter_all. eapply forallb_impl; [|exact Ht].
  apply canonical_not_quote.
Qed.

(** A normalized text with a numeral loses digits in a second pass. *)
Lemma normalizeAnswer_numeral_changes :
  forall t t',
    canonical t = true -> no_numeral t = false ->
    normalizeAnswer t = Some t' -> digits t' < digits t.
Proof.
  intros t t' Hc Hn Ht. unfold normalizeAnswer in Ht.
  rewrite (normalize_light_canonical t Hc) in Ht.
  unfold canonical in Hc. apply andb_true_iff in Hc as [Hch _].
  rewrite (removeQuotes_canonical t Hch) in Ht.
  destruct (convertNumberToWords t) as [u|] eqn:Eu; [|discriminate].
  injection Ht as <-.
  pose proof (convertNumberToWords_digits t u Eu Hn) as Hlt.
  rewrite digits_normalizeSpacing.
  pose proof (digits_filter_le (fun c => is_alphanumeric c || is_space c)
                               (toLowerCase u)) as Hle.
  unfold removeNonAlphanumeric. rewrite digits_toLowerCase in Hle. lia.
Qed.

(** C7 (amended). Whenever [normalizeAnswer] returns a text, normalizing
    that text again returns it unchanged exactly when none of its words
    is a numeral (digits only); the language library is assumed to leave
    normalized text alone. *)
Theorem normalizeAnswer_idempotent_without_numerals :
  forall s t : jsstring,
    normalizeAnswer s = Some t ->
    (normalizeAnswer t = Some t <-> no_numeral t = true).
Proof.
  intros s t Hs.
  pose proof (normalizeAnswer_canonical s t Hs) as Hc.
  split.
  - intros Ht. destruct (no_numeral t) eqn:Hn; [reflexivity|].
    pose proof (normalizeAnswer_numeral_changes t t Hc Hn Ht) as Hlt. lia.
  - intros Hn. apply normalizeAnswer_fixed; assumption.
Qed.

End Idempotence.

(** The reference library satisfies the assumption. *)
Lemma reference_normalize_light_canonical :
  forall t, canonical t = true -> @normalize_light Reference.nlp t = t.
Proof.
  intros t Hc. unfold canonical in Hc.
  apply andb_true_iff in Hc as [_ Hws]. apply normalizeSpacing_id, Hws.
Qed.

Lemma normalizeAnswer_idempotent_without_numerals_witness :
  Reference.normalizeAnswer (str "the raven") = Some (str "the raven").
Proof.
  exact (proj2 (normalizeAnswer_idempotent_without_numerals
                  reference_normalize_light_canonical
                  (str "The   'Raven'!") (str "the raven") eq_refl)
               eq_refl).
Defined.

(** C7 as stated fails: the normalizer turns a numeral into words only
    where it stands as a word of its own before punctuation is stripped.
    "3+4" normalizes to "34", and "34" to "thirtyfour". *)
Lemma normalizeAnswer_not_idempotent :
  Reference.normalizeAnswer (str "3+4") = Some (str "34")
  /\ Reference.normalizeAnswer (str "34") = Some (str "thirtyfour")
  /\ (match Reference.normalizeAnswer (str "3+4") with
      | Some t => Reference.normalizeAnswer t
      | None => None
      end) <> Reference.normalizeAnswer (str "3+4").
Proof.
  split; [vm_compute; reflexivity|]. split; [vm_compute; reflexivity|].
  vm_compute. discriminate.
Qed.

End NormalizerFacts.

(** ** The answerline parser *)

Module ParserFacts.
Import JsFacts Normalizer NormalizerFacts Parser.

(** *** Scanning past text in which an expression never matches *)

(** [r] matches at no position of [a] when [a] is followed by [b]. *)
Definition never_at (r : Matcher) (a b : jsstring) : Prop :=
  forall a1 a2, a = a1 ++ a2 -> a2 <> [] -> r (a2 ++ b) = None.

Lemma never_at_tail :
  forall r c a b, never_at r (c :: a) b -> never_at r a b.
Proof.
  intros r c a b H a1 a2 E Hne. apply (H (c :: a1) a2); [|exact Hne].
  rewrite E; reflexivity.
Qed.

Lemma never_at_head :
  forall r c a b, never_at r (c :: a) b -> r (c :: a ++ b) = None.
Proof.
  intros r c a b H. apply (H [] (c :: a)); [reflexivity | discriminate].
Qed.

Lemma matchAll_from_through :
  forall r a b idx,
    never_at r a b ->
    matchAll_from r 0 idx (a ++ b) = matchAll_from r 0 (idx + length a) b.
Proof.
  intros r; induction a as [|c a IH]; intros b idx H.
  - cbn. rewrite Nat.add_0_r. reflexivity.
  - cbn [app matchAll_from]. rewrite (never_at_head _ _ _ _ H).
    rewrite IH by (eapply never_at_tail, H).
    cbn [length]. f_equal. lia.
Qed.

Lemma matchAll_from_skip :
  forall r a b idx,
    matchAll_from r (length a) idx (a ++ b)
    = matchAll_from r 0 (idx + length a) b.
Proof.
  intros r; induction a as [|c a IH]; intros b idx.
  - cbn. rewrite Nat.add_0_r. reflexivity.
  - cbn [app length matchAll_from]. rewrite IH. f_equal. lia.
Qed.

Lemma removeAll_from_through :
  forall r a b,
    never_at r a b ->
    removeAll_from r 0 (a ++ b) = a ++ removeAll_from r 0 b.
Proof.
  intros r; induction a as [|c a IH]; intros b H; [reflexivity|].
  cbn [app removeAll_from]. rewrite (never_at_head _ _ _ _ H).
  rewrite IH by (eapply never_at_tail, H). reflexivity.
Qed.

Lemma removeAll_from_skip :
  forall r a b,
    removeAll_from r (length a) (a ++ b) = removeAll_from r 0 b.
Proof.
  intros r; induction a as [|c a IH]; intros b; [reflexivity|].
  cbn [app length removeAll_from]. apply IH.
Qed.

Lemma matchAll_none :
  forall r s, never_at r s [] -> matchAll s r = [].
Proof.
  intros r s H. unfold matchAll.
  rewrite <- (app_nil_r s). rewrite matchAll_from_through by exact H.
  reflexivity.
Qed.

Lemma remove_none :
  forall r s, never_at r s [] -> remove s r = s.
Proof.
  intros r s H. unfold remove.
  rewrite <- (app_nil_r s) at 1. rewrite removeAll_from_through by exact H.
  cbn. apply app_nil_r.
Qed.

(** An expression that can only start with one of the code units [firsts]
    never matches in text without them. *)
Definition starts_with_one_of (firsts : jsstring) (r : Matcher) : Prop :=
  forall s, r s <> None ->
            exists c s', s = c :: s' /\ existsb (char_eqb c) firsts = true.

Definition free_of (chars : jsstring) (s : jsstring) : bool :=
  forallb (fun c => negb (existsb (char_eqb c) chars)) s.

Lemma free_of_app :
  forall chars a b,
    free_of chars (a ++ b) = free_of chars a && free_of chars b.
Proof. intros; apply forallb_app. Qed.

Lemma never_at_free :
  forall firsts r a b,
    starts_with_one_of firsts r ->
    free_of firsts a = true ->
    never_at r a b.
Proof.
  intros firsts r a b Hr Hfree a1 a2 -> Hne.
  destruct (r (a2 ++ b)) eqn:E; [|reflexivity]. exfalso.
  destruct (Hr (a2 ++ b)) as (c & s' & Hs & Hc); [rewrite E; discriminate|].
  destruct a2 as [|d a2]; [contradiction|].
  injection Hs as <- _.
  rewrite free_of_app in Hfree. apply andb_true_iff in Hfree as [_ Hfree].
  cbn in Hfree. rewrite Hc in Hfree. discriminate.
Qed.

Lemma delimited_starts :
  forall o open close,
    starts_with_one_of [o] (delimited (o :: open) close).
Proof.
  intros o open close s Hs. unfold delimited in Hs.
  destruct s as [|c s']; [contradiction Hs; reflexivity|].
  cbn in Hs. destruct (char_eqb o c) eqn:E; [|contradiction Hs; reflexivity].
  apply char_eqb_eq in E; subst c.
  exists o, s'. split; [reflexivity|]. cbn. rewrite char_eqb_refl.
  reflexivity.
Qed.

Lemma aside_starts : starts_with_one_of (str "(") aside.
Proof.
  intros s Hs. unfold aside in Hs.
  destruct s as [|c s']; [contradiction Hs; reflexivity|].
  destruct (char_eqb c "("%char) eqn:E.
  - exists c, s'. split; [reflexivity|]. cbn. rewrite E. reflexivity.
  - exfalso. apply Hs.
    destruct c as [[] [] [] [] [] [] [] []]; try reflexivity; discriminate E.
Qed.

Lemma answerMatcher_starts :
  forall keywords, starts_with_one_of (str "[,; ") (answerMatcher keywords).
Proof.
  intros keywords s Hs. unfold answerMatcher in Hs.
  destruct s as [|d r]; [contradiction Hs; reflexivity|].
  exists d, r. split; [reflexivity|].
  unfold is_opening in Hs.
  destruct (existsb (char_eqb d) (str "[,; ")); [reflexivity|].
  contradiction Hs; reflexivity.
Qed.

Lemma replaceChar_free :
  forall a b s, free_of [a] s = true -> replaceChar a b s = s.
Proof.
  intros a b s H. unfold replaceChar.
  rewrite <- (map_id s) at 2. apply map_ext_in. intros c Hc.
  unfold free_of in H. rewrite forallb_forall in H. specialize (H c Hc).
  cbn in H. rewrite orb_false_r in H. apply negb_true_iff in H.
  rewrite H. reflexivity.
Qed.

Lemma free_of_weaken :
  forall big small s,
    (forall c, existsb (char_eqb c) small = true ->
               existsb (char_eqb c) big = true) ->
    free_of big s = true -> free_of small s = true.
Proof.
  intros big small s Hsub H. unfold free_of in *.
  eapply forallb_impl; [|exact H].
  intros c Hc. cbn in Hc. apply negb_true_iff in Hc.
  apply negb_true_iff. destruct (existsb (char_eqb c) small) eqn:E;
    [|reflexivity].
  rewrite (Hsub c E) in Hc. discriminate.
Qed.

(** *** The primary answer and the lazy capture *)

Definition no_line_break (s : jsstring) : bool :=
  forallb (fun c => negb (is_line_terminator c)) s.

Lemma tight_no_line_break :
  forall s, tight s = true -> no_line_break s = true.
Proof.
  unfold no_line_break.
  induction s as [|c s IH]; intros H; [reflexivity|].
  cbn in H. apply andb_true_iff in H as [Hc H].
  cbn [forallb]. rewrite (IH H), andb_true_r.
  destruct (is_space c) eqn:Ec.
  - apply andb_true_iff in Hc as [Hc _]. apply char_eqb_eq in Hc; subst c.
    reflexivity.
  - apply negb_true_iff. unfold is_line_terminator, is_space in *.
    destruct (Nat.eqb_spec (code c) 10), (Nat.eqb_spec (code c) 13);
      try reflexivity; exfalso;
      repeat match goal with H : code c = _ |- _ => rewrite H in Ec end;
      discriminate.
Qed.

Definition primary_stop (s : jsstring) : bool :=
  prefixb (str "[") s || prefixb (str " or ") s.

Lemma primaryAnswer_through :
  forall a b,
    no_line_break a = true ->
    (forall a1 a2, a = a1 ++ a2 -> a2 <> [] -> primary_stop (a2 ++ b) = false) ->
    primaryAnswer (a ++ b) = option_map (app a) (primaryAnswer b).
Proof.
  induction a as [|c a IH]; intros b Hlb Hstop.
  - cbn. destruct (primaryAnswer b); reflexivity.
  - cbn in Hlb. apply andb_true_iff in Hlb as [Hc Hlb].
    apply negb_true_iff in Hc.
    pose proof (Hstop [] (c :: a) eq_refl ltac:(discriminate)) as H0.
    unfold primary_stop in H0.
    cbn [app primaryAnswer]. cbn [app] in H0. rewrite H0, Hc.
    rewrite IH; [destruct (primaryAnswer b); reflexivity | exact Hlb |].
    intros a1 a2 E Hne. apply (Hstop (c :: a1) a2); [|exact Hne].
    rewrite E; reflexivity.
Qed.

Lemma lazy_capture_through :
  forall a b,
    no_line_break a = true ->
    (forall a1 a2, a = a1 ++ a2 -> a2 <> [] -> lookahead (a2 ++ b) = false) ->
    lookahead b = true ->
    lazy_capture (a ++ b) = Some a.
Proof.
  induction a as [|c a IH]; intros b Hlb Hla Hb.
  - cbn [app]. destruct b; cbn [lazy_capture]; rewrite Hb; reflexivity.
  - cbn in Hlb. apply andb_true_iff in Hlb as [Hc Hlb].
    apply negb_true_iff in Hc.
    pose proof (Hla [] (c :: a) eq_refl ltac:(discriminate)) as H0.
    cbn [app lazy_capture]. cbn [app] in H0. rewrite H0, Hc.
    rewrite IH; [reflexivity | exact Hlb | | exact Hb].
    intros a1 a2 E Hne. apply (Hla (c :: a1) a2); [|exact Hne].
    rewrite E; reflexivity.
Qed.

(** *** Lines without special tokens *)

(** Markup, brackets and parentheses. *)
Definition markup_free (s : jsstring) : bool := free_of (str "<>[]()&") s.

(** One of the parser's markers stands at the front of [s]: an opening
    delimiter (bracket, comma, semicolon or blank) followed by "accept ",
    "or " or "prompt on ". *)
Definition marker_at (s : jsstring) : bool :=
  match s with
  | [] => false
  | d :: r =>
      is_opening d
      && (prefixb (str "accept ") r || prefixb (str "or ") r
          || prefixb (str "prompt on ") r)
  end.

Fixpoint has_marker (s : jsstring) : bool :=
  marker_at s
  || match s with
     | [] => false
     | _ :: s' => has_marker s'
     end.

Lemma has_marker_suffix :
  forall a1 a2, has_marker (a1 ++ a2) = false -> marker_at a2 = false.
Proof.
  induction a1 as [|c a1 IH]; intros a2 H.
  - destruct a2; [reflexivity|]. cbn [app has_marker] in H.
    apply orb_false_iff in H as [H _]. exact H.
  - cbn [app has_marker] in H. apply orb_false_iff in H as [_ H].
    apply IH, H.
Qed.

Lemma answerMatcher_no_marker :
  forall keywords s,
    (forall k, In k keywords ->
               In k [str "accept "; str "or "; str "prompt on "]) ->
    marker_at s = false -> answerMatcher keywords s = None.
Proof.
  intros keywords s Hk Hm. unfold answerMatcher.
  destruct s as [|d r]; [reflexivity|].
  unfold marker_at in Hm. destruct (is_opening d); [|reflexivity].
  rewrite andb_true_l in Hm.
  destruct (find (fun k => prefixb k r) keywords) as [k|] eqn:E;
    [|reflexivity].
  apply find_some in E as [Hin Hp]. exfalso.
  apply Hk in Hin. cbn [In] in Hin.
  apply orb_false_iff in Hm as [Hm H3]. apply orb_false_iff in Hm as [H1 H2].
  destruct Hin as [<- | [<- | [<- | []]]]; congruence.
Qed.

Lemma never_at_no_marker :
  forall keywords s,
    (forall k, In k keywords ->
               In k [str "accept "; str "or "; str "prompt on "]) ->
    has_marker s = false -> never_at (answerMatcher keywords) s [].
Proof.
  intros keywords s Hk Hm a1 a2 -> _. rewrite app_nil_r.
  apply answerMatcher_no_marker; [exact Hk|].
  eapply has_marker_suffix, Hm.
Qed.

Lemma markup_free_normalizeSpacing :
  forall s, markup_free s = true -> markup_free (normalizeSpacing s) = true.
Proof.
  intros s H. unfold markup_free, free_of in *.
  apply normalizeSpacing_forallb; [reflexivity|].
  eapply forallb_impl; [|exact H].
  intros c Hc. rewrite Hc. apply orb_true_r.
Qed.

Lemma free_of_char :
  forall chars x s,
    existsb (char_eqb x) chars = true ->
    free_of chars s = true -> free_of [x] s = true.
Proof.
  intros chars x s Hx. apply free_of_weaken.
  intros c Hc. cbn [existsb] in Hc. rewrite orb_false_r in Hc.
  apply char_eqb_eq in Hc. subst c. exact Hx.
Qed.

Lemma cleanAnswerline_markup_free :
  forall s, markup_free s = true -> cleanAnswerline s = normalizeSpacing s.
Proof.
  intros s H. unfold cleanAnswerline, markup_free in *.
  rewrite (remove_none ltgt s)
    by (eapply never_at_free;
        [apply delimited_starts
        | eapply free_of_char; [|exact H]; reflexivity]).
  rewrite (remove_none aside s)
    by (eapply never_at_free;
        [apply aside_starts
        | eapply free_of_char; [|exact H]; reflexivity]).
  rewrite (replaceChar_free "("%char "["%char s)
    by (eapply free_of_char; [|exact H]; reflexivity).
  rewrite (replaceChar_free ")"%char "]"%char s)
    by (eapply free_of_char; [|exact H]; reflexivity).
  reflexivity.
Qed.

Lemma betweenTags_starts :
  forall t, starts_with_one_of (str "<") (betweenTags t).
Proof.
  intros t. exact (delimited_starts "<"%char (t ++ str ">") _).
Qed.

Lemma anyTag_starts : starts_with_one_of (str "<") anyTag.
Proof. exact (delimited_starts "<"%char [] _). Qed.

Lemma no_tags :
  forall s t,
    markup_free s = true ->
    getTextBetweenTags s t = [] /\ remove s anyTag = s.
Proof.
  intros s t H. unfold markup_free in H. split.
  - unfold getTextBetweenTags, getCaptureGroups.
    rewrite matchAll_none; [reflexivity|].
    eapply never_at_free; [apply betweenTags_starts|].
    eapply free_of_char; [|exact H]; reflexivity.
  - apply remove_none.
    eapply never_at_free; [apply anyTag_starts|].
    eapply free_of_char; [|exact H]; reflexivity.
Qed.

(** Text without the opening angle bracket of a tag. *)
Definition markup_free_tags (s : jsstring) : bool := free_of ["<"%char] s.

Lemma no_tags_lt :
  forall s t,
    markup_free_tags s = true ->
    getTextBetweenTags s t = [] /\ remove s anyTag = s.
Proof.
  intros s t H. unfold markup_free_tags in H. split.
  - unfold getTextBetweenTags, getCaptureGroups.
    rewrite matchAll_none; [reflexivity|].
    eapply never_at_free; [apply betweenTags_starts | exact H].
  - apply remove_none.
    eapply never_at_free; [apply anyTag_starts | exact H].
Qed.

Lemma primary_stop_no_marker :
  forall s,
    free_of (str "[") s = true -> marker_at s = false ->
    primary_stop s = false.
Proof.
  intros [|c r] Hf Hm; [reflexivity|].
  unfold primary_stop.
  change (prefixb (str "[") (c :: r)) with (char_eqb "["%char c && true).
  change (prefixb (str " or ") (c :: r))
    with (char_eqb " "%char c && prefixb (str "or ") r).
  apply orb_false_iff. split.
  - rewrite andb_true_r. apply char_eqb_neq. intros <-.
    discriminate Hf.
  - destruct (char_eqb " "%char c) eqn:E; [|reflexivity].
    apply char_eqb_eq in E; subst c.
    unfold marker_at in Hm.
    change (is_opening " "%char) with true in Hm.
    rewrite andb_true_l in Hm.
    apply orb_false_iff in Hm as [Hm _]. apply orb_false_iff in Hm as [_ Hm].
    exact Hm.
Qed.

Lemma primaryAnswer_whole :
  forall s,
    tight s = true -> free_of (str "[") s = true -> has_marker s = false ->
    primaryAnswers s = [s].
Proof.
  intros s Ht Hf Hm. unfold primaryAnswers.
  rewrite <- (app_nil_r s) at 1.
  rewrite primaryAnswer_through.
  - cbn. rewrite app_nil_r. reflexivity.
  - apply tight_no_line_break, Ht.
  - intros a1 a2 -> _. rewrite app_nil_r.
    rewrite free_of_app in Hf. apply andb_true_iff in Hf as [_ Hf].
    apply primary_stop_no_marker; [exact Hf|].
    eapply has_marker_suffix, Hm.
Qed.

Lemma well_spaced_tight : forall s, well_spaced s = true -> tight s = true.
Proof.
  intros s H. unfold well_spaced in H.
  apply andb_true_iff in H as [H _]. apply andb_true_iff in H as [H _].
  exact H.
Qed.

Section PlainLine.
Context `{Nlp}.

(** C6 (amended). A line without markup, brackets or parentheses in which,
    once its whitespace is collapsed, none of the markers "accept ", "or ",
    "prompt on " follows a blank, comma or semicolon: the acceptable
    answers are the normalized line and the normalized line without first
    names, empty strings dropped and a repeated value kept once; the
    promptable answers are none.  The acceptable list is the one-element
    list of the normalized line when that is not empty and removing first
    names gives the same or an empty normalized text. *)
Theorem parse_line_without_special_tokens :
  forall line n1 n2 : jsstring,
    markup_free line = true ->
    has_marker (normalizeSpacing line) = false ->
    normalizeAnswer (normalizeSpacing line) = Some n1 ->
    normalizeAnswer (removeFirstNames (normalizeSpacing line)) = Some n2 ->
    parseAcceptableAnswers line
    = Some (getUnique (filter emptyStringFilter [n1; n2]))
    /\ parsePromptableAnswers line = Some []
    /\ (n1 <> [] -> n2 = n1 \/ n2 = [] ->
        parseAcceptableAnswers line = Some [n1]).
Proof.
  intros line n1 n2 Hfree Hmark Hn1 Hn2.
  set (t := normalizeSpacing line) in *.
  assert (Hclean : cleanAnswerline line = t)
    by (apply cleanAnswerline_markup_free, Hfree).
  assert (Hfree_t : markup_free t = true)
    by (apply markup_free_normalizeSpacing, Hfree).
  assert (Htight : tight t = true)
    by (apply well_spaced_tight, normalizeSpacing_well_spaced).
  assert (Hacc : parseAcceptableAnswers line
                 = Some (getUnique (filter emptyStringFilter [n1; n2]))).
  { unfold parseAcceptableAnswers. rewrite Hclean.
    destruct (no_tags t (str "strong") Hfree_t) as [-> ->].
    rewrite primaryAnswer_whole;
      [| exact Htight
       | eapply free_of_char; [|exact Hfree_t]; reflexivity
       | exact Hmark].
    rewrite (matchAll_none acceptableAnswers t).
    2:{ apply never_at_no_marker; [|exact Hmark].
        intros k [<- | [<- | []]]; cbn; auto. }
    cbn [map filter app combine mapM]. unfold combine. cbn [map app mapM].
    rewrite Hn1, Hn2. reflexivity. }
  split; [exact Hacc|]. split.
  - unfold parsePromptableAnswers. rewrite Hclean.
    destruct (no_tags t (str "u") Hfree_t) as [-> ->].
    rewrite (matchAll_none promptRegex t).
    2:{ apply never_at_no_marker; [|exact Hmark].
        intros k [<- | [<- | []]]; cbn; auto. }
    reflexivity.
  - intros Hne Hn2'. rewrite Hacc. f_equal.
    destruct n1 as [|c n1]; [contradiction|].
    destruct Hn2' as [-> | ->].
    + unfold getUnique. cbn [filter emptyStringFilter length Nat.eqb negb
                             getUnique_from existsb].
      rewrite str_eqb_refl. reflexivity.
    + reflexivity.
Qed.

End PlainLine.


(** *** Lines of the form X [accept Y or Z] (do not accept W) *)

Lemma firstn_exact :
  forall {A} (a b : list A), firstn (length a) (a ++ b) = a.
Proof.
  intros A a b. rewrite firstn_app, Nat.sub_diag, firstn_all.
  cbn. apply app_nil_r.
Qed.

Lemma skipn_exact :
  forall {A} (a b : list A), skipn (length a) (a ++ b) = b.
Proof.
  intros A a b. rewrite skipn_app, Nat.sub_diag, skipn_all. reflexivity.
Qed.

Lemma removeAll_from_all :
  forall r a, removeAll_from r (length a) a = [].
Proof.
  intros r a. rewrite <- (app_nil_r a) at 2.
  rewrite removeAll_from_skip. reflexivity.
Qed.

Lemma free_of_cons :
  forall chars c s,
    free_of chars (c :: s)
    = negb (existsb (char_eqb c) chars) && free_of chars s.
Proof. reflexivity. Qed.

Lemma lazy_until_found :
  forall c g rest,
    free_of [c] g = true -> no_line_break g = true ->
    lazy_until [c] (g ++ c :: rest) = Some g.
Proof.
  intros c; induction g as [|x g IH]; intros rest Hf Hl.
  - cbn. rewrite char_eqb_refl. reflexivity.
  - rewrite free_of_cons in Hf. apply andb_true_iff in Hf as [Hx Hf].
    cbn [existsb] in Hx. rewrite orb_false_r in Hx.
    apply negb_true_iff in Hx.
    unfold no_line_break in Hl. cbn [forallb] in Hl.
    apply andb_true_iff in Hl as [Hlx Hl]. apply negb_true_iff in Hlx.
    cbn [app lazy_until prefixb].
    assert (char_eqb c x = false) as ->.
    { apply char_eqb_neq. intros ->. rewrite char_eqb_refl in Hx.
      discriminate. }
    cbn [andb]. rewrite Hlx, (IH rest Hf Hl). reflexivity.
Qed.

(** The text of an aside: no closing parenthesis, ampersand or line
    break. *)
Definition aside_text (w : jsstring) : bool :=
  free_of (str ")&") w && no_line_break w.

Lemma aside_do_not_accept :
  forall w,
    aside_text w = true ->
    aside (str "(do not accept " ++ w ++ str ")")
    = Some (length (str "do not accept " ++ w) + 2,
            str "do not accept " ++ w).
Proof.
  intros w H. unfold aside_text in H. apply andb_true_iff in H as [Hf Hl].
  change (str "(do not accept " ++ w ++ str ")")
    with ("("%char :: (str "do not accept " ++ w) ++ ")"%char :: []).
  unfold aside.
  change (prefixb (str "accept") ((str "do not accept " ++ w) ++ [")"%char]))
    with false.
  change (prefixb (str "or") ((str "do not accept " ++ w) ++ [")"%char]))
    with false.
  change (prefixb (str "prompt") ((str "do not accept " ++ w) ++ [")"%char]))
    with false.
  cbn [orb]. change (str ")") with [")"%char].
  rewrite lazy_until_found; [reflexivity | |].
  - rewrite free_of_app. apply andb_true_iff. split; [reflexivity|].
    eapply free_of_char; [|exact Hf]; reflexivity.
  - unfold no_line_break in *. rewrite forallb_app, Hl. reflexivity.
Qed.

Lemma removeAll_from_match :
  forall r c s len g,
    r (c :: s) = Some (len, g) ->
    removeAll_from r 0 (c :: s) = removeAll_from r (len - 1) s.
Proof.
  intros r c s len g H. cbn [removeAll_from]. rewrite H. reflexivity.
Qed.

(** The whole aside goes. *)
Lemma remove_aside_do_not_accept :
  forall w,
    aside_text w = true ->
    removeAll_from aside 0 (str "(do not accept " ++ w ++ str ")") = [].
Proof.
  intros w Hw.
  pose proof (aside_do_not_accept w Hw) as Ha.
  assert (E : str "(do not accept " ++ w ++ str ")"
              = "("%char :: (str "do not accept " ++ w ++ str ")"))
    by reflexivity.
  rewrite E in *.
  rewrite (removeAll_from_match _ _ _ _ _ Ha).
  replace (length (str "do not accept " ++ w) + 2 - 1)
    with (length (str "do not accept " ++ w ++ str ")"))
    by (rewrite !length_app; cbn [length str list_ascii_of_string]; lia).
  apply removeAll_from_all.
Qed.

(** The code units that delimit or mark up answers. *)
Definition plain (p : jsstring) : bool := free_of (str "<>[]()&,;") p.

(** None of the words that end a captured answer stands in [p] as a word
    of its own. *)
Definition stop_free (p : jsstring) : bool :=
  forallb (fun w => negb (includes (str " " ++ p ++ str " ")
                                   (str " " ++ w ++ str " ")))
          stopWords.

(** A phrase: not empty, single blanks between its words and none at its
    ends, no delimiter or markup, no stop word. *)
Definition phrase (p : jsstring) : bool :=
  negb (length p =? 0) && well_spaced p && plain p && stop_free p.

Lemma phrase_parts :
  forall p, phrase p = true ->
            p <> [] /\ well_spaced p = true /\ plain p = true
            /\ stop_free p = true.
Proof.
  intros p H. unfold phrase in H.
  apply andb_true_iff in H as [H H4]. apply andb_true_iff in H as [H H3].
  apply andb_true_iff in H as [H1 H2].
  repeat split; try assumption. intros ->. discriminate H1.
Qed.

Lemma well_spaced_parts :
  forall s, well_spaced s = true ->
            tight s = true /\ starts_with_space s = false
            /\ ends_with_space s = false.
Proof.
  intros s H. unfold well_spaced in H.
  apply andb_true_iff in H as [H H3]. apply andb_true_iff in H as [H1 H2].
  apply negb_true_iff in H2, H3. auto.
Qed.

Lemma well_spaced_join :
  forall a b,
    well_spaced a = true -> well_spaced b = true -> a <> [] -> b <> [] ->
    well_spaced (a ++ " "%char :: b) = true.
Proof.
  intros a b Ha Hb Hna Hnb.
  apply well_spaced_parts in Ha as (Ha1 & Ha2 & Ha3).
  apply well_spaced_parts in Hb as (Hb1 & Hb2 & Hb3).
  unfold well_spaced.
  rewrite tight_app; [| exact Ha1 | | left; exact Ha3].
  - rewrite starts_with_space_app by exact Hna. rewrite Ha2.
    rewrite ends_with_space_app by discriminate.
    rewrite ends_with_space_cons by exact Hnb. rewrite Hb3. reflexivity.
  - cbn [tight]. change (is_space " "%char) with true. cbn match.
    rewrite char_eqb_refl, Hb2, Hb1. reflexivity.
Qed.

Lemma well_spaced_snoc :
  forall a c,
    well_spaced a = true -> a <> [] -> is_space c = false ->
    well_spaced (a ++ [c]) = true.
Proof.
  intros a c Ha Hna Hc.
  apply well_spaced_parts in Ha as (Ha1 & Ha2 & Ha3).
  unfold well_spaced.
  rewrite tight_app; [| exact Ha1 | | left; exact Ha3].
  - rewrite starts_with_space_app by exact Hna. rewrite Ha2.
    rewrite ends_with_space_app by discriminate.
    cbn. rewrite Hc. reflexivity.
  - cbn. rewrite Hc. reflexivity.
Qed.


Lemma existsb_false :
  forall {A} (f : A -> bool) l,
    (forall x, In x l -> f x = false) -> existsb f l = false.
Proof.
  induction l as [|x l IH]; intros H; [reflexivity|].
  cbn. rewrite (H x (or_introl eq_refl)), IH; [reflexivity|].
  intros y Hy. apply H. right; exact Hy.
Qed.

Lemma stop_inside_false :
  forall p w,
    stop_free p = true -> In w stopWords ->
    includes (p ++ str " ") (str " " ++ w ++ str " ") = false.
Proof.
  intros p w H Hw. unfold stop_free in H. rewrite forallb_forall in H.
  specialize (H w Hw). apply negb_true_iff in H.
  eapply includes_cons_false. exact H.
Qed.

(** *** The three answers of the line *)

(** One of the keywords of [acceptableAnswers] stands at the front of [s]:
    an opening delimiter (bracket, comma, semicolon or blank) followed by
    "accept " or "or ". *)
Definition accept_marker_at (s : jsstring) : bool :=
  match s with
  | [] => false
  | d :: r =>
      is_opening d && (prefixb (str "accept ") r || prefixb (str "or ") r)
  end.

Fixpoint has_accept_marker (s : jsstring) : bool :=
  accept_marker_at s
  || match s with
     | [] => false
     | _ :: s' => has_accept_marker s'
     end.

(** The answer in front of the bracket: not empty, single blanks between
    its words and none at its ends, no markup, bracket or parenthesis,
    and, the blank behind it included, no " or ".  Commas, semicolons and
    the stop words may occur. *)
Definition leading_answer (p : jsstring) : bool :=
  negb (length p =? 0) && well_spaced p && markup_free p
  && negb (includes (p ++ str " ") (str " or ")).

(** None of the words that end a captured answer follows a blank of [p]
    as a word of its own; [p] may begin with one. *)
Definition stop_free_behind (p : jsstring) : bool :=
  forallb (fun w => negb (includes (p ++ str " ") (str " " ++ w ++ str " ")))
          stopWords.

(** None of them stands between two blanks of [p]; [p] may begin or end
    with one. *)
Definition stop_free_inside (p : jsstring) : bool :=
  forallb (fun w => negb (includes p (str " " ++ w ++ str " "))) stopWords.

(** The alternative behind "accept": not empty, single blanks, no
    delimiter or markup, no stop word behind a blank. *)
Definition first_alternative (p : jsstring) : bool :=
  negb (length p =? 0) && well_spaced p && plain p && stop_free_behind p.

(** The alternative in front of the closing bracket: not empty, single
    blanks, no delimiter or markup, no stop word between two blanks. *)
Definition last_alternative (p : jsstring) : bool :=
  negb (length p =? 0) && well_spaced p && plain p && stop_free_inside p.

Lemma leading_answer_parts :
  forall p, leading_answer p = true ->
            p <> [] /\ well_spaced p = true /\ markup_free p = true
            /\ includes (p ++ str " ") (str " or ") = false.
Proof.
  intros p H. unfold leading_answer in H.
  apply andb_true_iff in H as [H H4]. apply andb_true_iff in H as [H H3].
  apply andb_true_iff in H as [H1 H2]. apply negb_true_iff in H4.
  repeat split; try assumption. intros ->. discriminate H1.
Qed.

Lemma first_alternative_parts :
  forall p, first_alternative p = true ->
            p <> [] /\ well_spaced p = true /\ plain p = true
            /\ stop_free_behind p = true.
Proof.
  intros p H. unfold first_alternative in H.
  apply andb_true_iff in H as [H H4]. apply andb_true_iff in H as [H H3].
  apply andb_true_iff in H as [H1 H2].
  repeat split; try assumption. intros ->. discriminate H1.
Qed.

Lemma last_alternative_parts :
  forall p, last_alternative p = true ->
            p <> [] /\ well_spaced p = true /\ plain p = true
            /\ stop_free_inside p = true.
Proof.
  intros p H. unfold last_alternative in H.
  apply andb_true_iff in H as [H H4]. apply andb_true_iff in H as [H H3].
  apply andb_true_iff in H as [H1 H2].
  repeat split; try assumption. intros ->. discriminate H1.
Qed.

Lemma has_accept_marker_suffix :
  forall a1 a2,
    has_accept_marker (a1 ++ a2) = false -> accept_marker_at a2 = false.
Proof.
  induction a1 as [|c a1 IH]; intros a2 H.
  - destruct a2; [reflexivity|]. cbn [app has_accept_marker] in H.
    apply orb_false_iff in H as [H _]. exact H.
  - cbn [app has_accept_marker] in H. apply orb_false_iff in H as [_ H].
    apply IH, H.
Qed.

Lemma stop_behind_false :
  forall p w,
    stop_free_behind p = true -> In w stopWords ->
    includes (p ++ str " ") (str " " ++ w ++ str " ") = false.
Proof.
  intros p w H Hw. unfold stop_free_behind in H.
  rewrite forallb_forall in H. apply negb_true_iff, (H w Hw).
Qed.

Lemma stop_inside_none :
  forall p w,
    stop_free_inside p = true -> In w stopWords ->
    includes p (str " " ++ w ++ str " ") = false.
Proof.
  intros p w H Hw. unfold stop_free_inside in H.
  rewrite forallb_forall in H. apply negb_true_iff, (H w Hw).
Qed.

(** A phrase can stand in front of the closing bracket. *)
Lemma phrase_last_alternative :
  forall p, phrase p = true -> last_alternative p = true.
Proof.
  intros p H. destruct (phrase_parts _ H) as (Hn & Hw & Hp & Hs).
  unfold last_alternative. rewrite Hw, Hp.
  destruct p as [|c p]; [contradiction Hn; reflexivity|].
  cbn [length Nat.eqb negb andb].
  apply forallb_forall. intros w Hin. apply negb_true_iff.
  pose proof (stop_inside_false _ w Hs Hin) as Hf.
  destruct (includes (c :: p) (str " " ++ w ++ str " ")) eqn:E;
    [|reflexivity].
  rewrite (includes_app_l _ (str " ") _ E) in Hf. discriminate.
Qed.

Lemma stopWords_or : In (str "or") stopWords.
Proof. cbn. auto 10. Qed.

Lemma stopWords_no_bracket :
  forall w c,
    In w stopWords -> In c [ "["%char; "]"%char ] ->
    existsb (char_eqb c) (str " " ++ w ++ str " ") = false.
Proof.
  intros w c Hw Hc. cbn in Hw, Hc.
  repeat (destruct Hw as [<- | Hw]; [destruct Hc as [<- | [<- | []]];
                                     reflexivity |]).
  contradiction.
Qed.

(** No stop word has a blank followed by "o" behind its first code unit,
    so none can run from inside a phrase into a following " or ". *)
Lemma stopWords_no_blank_o :
  forall w, In w stopWords ->
            includes (skipn 1 (str " " ++ w ++ str " ")) (str " o") = false.
Proof.
  intros w Hw. cbn in Hw.
  repeat (destruct Hw as [<- | Hw]; [reflexivity |]). contradiction.
Qed.

Lemma stop_word_false_before_or :
  forall p p1 p2 w rest,
    stop_free_behind p = true -> In w stopWords -> p = p1 ++ p2 ->
    p2 <> [] ->
    prefixb (str " " ++ w ++ str " ") (p2 ++ str " or " ++ rest) = false.
Proof.
  intros p p1 p2 w rest Hs Hw -> Hne.
  set (pat := str " " ++ w ++ str " ").
  destruct (prefixb pat (p2 ++ str " or " ++ rest)) eqn:E; [|reflexivity].
  exfalso.
  change (p2 ++ str " or " ++ rest)
    with (p2 ++ " "%char :: "o"%char :: str "r " ++ rest) in E.
  change (p2 ++ " "%char :: "o"%char :: str "r " ++ rest)
    with (p2 ++ [" "%char] ++ "o"%char :: str "r " ++ rest) in E.
  rewrite app_assoc in E.
  apply prefixb_app_cases in E as [E | (Hlen & Hfirst & Hrest)].
  - assert (Hf : includes (p1 ++ p2 ++ [" "%char]) pat = false)
      by (rewrite app_assoc; exact (stop_behind_false _ w Hs Hw)).
    rewrite (includes_suffix p1 (p2 ++ [" "%char]) _ E) in Hf.
    discriminate.
  - assert (Hno : includes (skipn 1 pat) (str " o") = false)
      by exact (stopWords_no_blank_o w Hw).
    destruct (skipn (length (p2 ++ [" "%char])) pat) as [|x tail] eqn:Es.
    + apply (f_equal (@length _)) in Es. rewrite length_skipn in Es.
      cbn [length] in Es. lia.
    + cbn [prefixb] in Hrest. apply andb_true_iff in Hrest as [Hx _].
      apply char_eqb_eq in Hx. subst x.
      pose proof (firstn_skipn (length (p2 ++ [" "%char])) pat) as Hsplit.
      rewrite <- Hfirst, Es in Hsplit.
      destruct p2 as [|c p2']; [contradiction|].
      rewrite <- Hsplit in Hno. cbn [app skipn] in Hno.
      rewrite <- app_assoc in Hno.
      rewrite (includes_suffix p2' _ (str " o")) in Hno; [discriminate|].
      reflexivity.
Qed.

Lemma plain_char :
  forall p c,
    plain p = true -> existsb (char_eqb c) (str "<>[]()&,;") = true ->
    forall p1 p2, p = p1 ++ c :: p2 -> False.
Proof.
  intros p c Hp Hc p1 p2 ->. unfold plain in Hp.
  rewrite free_of_app, free_of_cons in Hp. rewrite Hc in Hp.
  cbn in Hp. rewrite andb_false_r in Hp. discriminate.
Qed.


Lemma stop_word_false_barrier :
  forall p p1 p2 w b rest,
    stop_free_inside p = true -> In w stopWords -> p = p1 ++ p2 ->
    existsb (char_eqb b) (str " " ++ w ++ str " ") = false ->
    prefixb (str " " ++ w ++ str " ") (p2 ++ b :: rest) = false.
Proof.
  intros p p1 p2 w b rest Hs Hw -> Hb.
  destruct (prefixb (str " " ++ w ++ str " ") (p2 ++ b :: rest)) eqn:E;
    [|reflexivity].
  apply prefixb_barrier in E; [|exact Hb].
  pose proof (stop_inside_none _ w Hs Hw) as Hf.
  rewrite (includes_suffix p1 p2 _ E) in Hf. discriminate.
Qed.

Lemma opening_cases :
  forall d, is_opening d = true ->
            d = " "%char
            \/ existsb (char_eqb d) (str "<>[]()&,;") = true.
Proof.
  intros d H. unfold is_opening in H.
  change (str "[,; ") with ["["%char; ","%char; ";"%char; " "%char] in H.
  cbn [existsb] in H. rewrite orb_false_r in H.
  repeat (apply orb_true_iff in H as [H | H]);
    apply char_eqb_eq in H; subst d; auto.
Qed.

Lemma closing_special :
  forall d, is_closing d = true ->
            existsb (char_eqb d) (str "<>[]()&,;") = true.
Proof.
  intros d H. unfold is_closing in H.
  change (str ",;[]") with [","%char; ";"%char; "["%char; "]"%char] in H.
  cbn [existsb] in H. rewrite orb_false_r in H.
  repeat (apply orb_true_iff in H as [H | H]);
    apply char_eqb_eq in H; subst d; reflexivity.
Qed.

(** A match of [answerMatcher]: delimiter, keyword, captured answer. *)
Lemma answerMatcher_at :
  forall keywords d k r g,
    is_opening d = true ->
    find (fun k' => prefixb k' (k ++ r)) keywords = Some k ->
    lazy_capture r = Some g ->
    answerMatcher keywords (d :: k ++ r)
    = Some (1 + length k + length g, g).
Proof.
  intros keywords d k r g Hd Hk Hg. unfold answerMatcher.
  rewrite Hd, Hk, skipn_exact, Hg. reflexivity.
Qed.

(** The capture of a text without delimiters runs to its end. *)
Lemma lazy_capture_plain :
  forall p rest,
    well_spaced p = true -> plain p = true ->
    lookahead rest = true ->
    (forall p1 p2 w, p = p1 ++ p2 -> p2 <> [] -> In w stopWords ->
                     prefixb (str " " ++ w ++ str " ") (p2 ++ rest) = false) ->
    lazy_capture (p ++ rest) = Some p.
Proof.
  intros p rest Hw Hpl Hrest Hstop.
  apply lazy_capture_through; [| | exact Hrest].
  - apply tight_no_line_break, well_spaced_tight, Hw.
  - intros p1 p2 E Hne. destruct p2 as [|c p2]; [contradiction|].
    cbn [app]. unfold lookahead. apply orb_false_iff. split.
    + destruct (is_closing c) eqn:Ec; [|reflexivity]. exfalso.
      eapply (plain_char p c Hpl (closing_special _ Ec)). exact E.
    + apply existsb_false. intros w Hin.
      apply (Hstop p1 (c :: p2) w E ltac:(discriminate) Hin).
Qed.

(** A capture ends where the lookahead holds at the latest. *)
Lemma lazy_capture_bounded :
  forall a b g,
    lookahead b = true -> lazy_capture (a ++ b) = Some g ->
    exists a', a = g ++ a'.
Proof.
  induction a as [|c a IH]; intros b g Hb Hg.
  - cbn [app] in Hg. destruct b; cbn [lazy_capture] in Hg;
      rewrite ?Hb in Hg; injection Hg as <-; exists []; reflexivity.
  - cbn [app lazy_capture] in Hg.
    destruct (lookahead (c :: a ++ b)).
    + injection Hg as <-. exists (c :: a). reflexivity.
    + destruct (is_line_terminator c); [discriminate|].
      destruct (lazy_capture (a ++ b)) as [g'|] eqn:Eg; [|discriminate].
      injection Hg as <-. destruct (IH b g' Hb Eg) as (a' & ->).
      exists a'. reflexivity.
Qed.

(** Scanning a text [a] in which every match ends within [a]: the matches
    of [a], then those of what follows. *)
Lemma matchAll_from_inside :
  forall r a b,
    (forall a1 a2 len g,
        a = a1 ++ a2 -> a2 <> [] -> r (a2 ++ b) = Some (len, g) ->
        len <= length a2) ->
    forall skip idx,
      skip <= length a ->
      exists ms,
        matchAll_from r skip idx (a ++ b)
        = ms ++ matchAll_from r 0 (idx + length a) b.
Proof.
  intros r; induction a as [|c a IH]; intros b Hin skip idx Hskip.
  - cbn [length] in Hskip. assert (skip = 0) as -> by lia.
    exists []. cbn. rewrite Nat.add_0_r. reflexivity.
  - assert (Hin' : forall a1 a2 len g,
               a = a1 ++ a2 -> a2 <> [] -> r (a2 ++ b) = Some (len, g) ->
               len <= length a2).
    { intros a1 a2 len g E. apply (Hin (c :: a1)). rewrite E. reflexivity. }
    cbn [length] in Hskip.
    replace (idx + length (c :: a)) with (S idx + length a)
      by (cbn [length]; lia).
    cbn [app matchAll_from]. destruct skip as [|k].
    + destruct (r (c :: a ++ b)) as [[len g]|] eqn:Er.
      * pose proof (Hin [] (c :: a) len g eq_refl ltac:(discriminate) Er)
          as Hlen.
        cbn [length] in Hlen.
        destruct (IH b Hin' (len - 1) (S idx) ltac:(lia)) as (ms & ->).
        eexists (_ :: ms). reflexivity.
      * apply (IH b Hin' 0 (S idx)). lia.
    + apply (IH b Hin' k (S idx)). lia.
Qed.

(** What [mapM] returns holds the image of every element. *)
Lemma mapM_member :
  forall {A B} (f : A -> option B) l l' x,
    mapM f l = Some l' -> In x l -> exists y, f x = Some y /\ In y l'.
Proof.
  intros A B f; induction l as [|a l IH]; intros l' x H Hx; [destruct Hx|].
  cbn [mapM] in H.
  destruct (f a) as [b|] eqn:Ea; [|discriminate].
  destruct (mapM f l) as [bs|] eqn:El; [|discriminate].
  injection H as <-. destruct Hx as [<- | Hx].
  - exists b. split; [exact Ea | left; reflexivity].
  - destruct (IH bs x eq_refl Hx) as (y & Hy & Hin).
    exists y. split; [exact Hy | right; exact Hin].
Qed.

(** *** [lastIndexOf] for one code unit *)

Lemma lastIndexOf_from_free :
  forall c s i found,
    free_of [c] s = true -> lastIndexOf_from [c] s i found = found.
Proof.
  intros c; induction s as [|x s IH]; intros i found H; [reflexivity|].
  rewrite free_of_cons in H. apply andb_true_iff in H as [Hx H].
  cbn [existsb] in Hx. rewrite orb_false_r in Hx. apply negb_true_iff in Hx.
  cbn [lastIndexOf_from prefixb].
  assert (char_eqb c x = false) as ->.
  { apply char_eqb_neq. intros ->. rewrite char_eqb_refl in Hx.
    discriminate. }
  cbn [andb]. apply IH, H.
Qed.

Lemma lastIndexOf_from_last :
  forall c a b i found,
    free_of [c] b = true ->
    lastIndexOf_from [c] (a ++ c :: b) i found = Z.of_nat (i + length a).
Proof.
  intros c; induction a as [|x a IH]; intros b i found H.
  - cbn [app lastIndexOf_from prefixb]. rewrite char_eqb_refl. cbn [andb].
    rewrite lastIndexOf_from_free by exact H. cbn. f_equal. lia.
  - cbn [app lastIndexOf_from]. rewrite IH by exact H.
    cbn [length]. f_equal. lia.
Qed.

(** An occurrence in [a] lies in front of whatever follows [a]. *)
Lemma lastIndexOf_from_before :
  forall c a b i found,
    free_of [c] b = true ->
    (found < Z.of_nat (i + length a))%Z ->
    (lastIndexOf_from [c] (a ++ b) i found < Z.of_nat (i + length a))%Z.
Proof.
  intros c; induction a as [|x a IH]; intros b i found Hb Hf.
  - cbn [app]. rewrite lastIndexOf_from_free by exact Hb. exact Hf.
  - cbn [app lastIndexOf_from length].
    replace (i + S (length a)) with (S i + length a) by lia.
    apply IH; [exact Hb|].
    destruct (prefixb [c] (x :: a ++ b)); cbn [length] in Hf; lia.
Qed.

Section AcceptOr.
Variables X Y Z W : jsstring.
Hypothesis HX : leading_answer X = true.
Hypothesis HY : first_alternative Y = true.
Hypothesis HZ : last_alternative Z = true.
Hypothesis HW : aside_text W = true.

Definition accept_or_line : jsstring :=
  X ++ str " [accept " ++ Y ++ str " or " ++ Z ++ str "] (do not accept "
    ++ W ++ str ")".

(** The line without its aside. *)
Definition accept_or_clean : jsstring :=
  X ++ str " [accept " ++ Y ++ str " or " ++ Z ++ str "]".

Let HnX := proj1 (leading_answer_parts _ HX).
Let HwX := proj1 (proj2 (leading_answer_parts _ HX)).
Let HpX := proj1 (proj2 (proj2 (leading_answer_parts _ HX))).
Let HoX := proj2 (proj2 (proj2 (leading_answer_parts _ HX))).
Let HnY := proj1 (first_alternative_parts _ HY).
Let HwY := proj1 (proj2 (first_alternative_parts _ HY)).
Let HpY := proj1 (proj2 (proj2 (first_alternative_parts _ HY))).
Let HsY := proj2 (proj2 (proj2 (first_alternative_parts _ HY))).
Let HnZ := proj1 (last_alternative_parts _ HZ).
Let HwZ := proj1 (proj2 (last_alternative_parts _ HZ)).
Let HpZ := proj1 (proj2 (proj2 (last_alternative_parts _ HZ))).
Let HsZ := proj2 (proj2 (proj2 (last_alternative_parts _ HZ))).

Lemma accept_or_clean_plain :
  forall c, existsb (char_eqb c) (str "<>()&") = true ->
            free_of [c] accept_or_clean = true.
Proof.
  intros c Hc.
  assert (Hin : existsb (char_eqb c) (str "<>[]()&") = true).
  { cbn in Hc |- *. repeat (apply orb_true_iff in Hc as [Hc | Hc]);
      rewrite ?Hc, ?orb_true_r; try reflexivity; discriminate. }
  assert (Hin' : existsb (char_eqb c) (str "<>[]()&,;") = true).
  { cbn in Hc |- *. repeat (apply orb_true_iff in Hc as [Hc | Hc]);
      rewrite ?Hc, ?orb_true_r; try reflexivity; discriminate. }
  unfold accept_or_clean. rewrite !free_of_app.
  rewrite (free_of_char _ c X Hin HpX), (free_of_char _ c Y Hin' HpY),
    (free_of_char _ c Z Hin' HpZ).
  cbn in Hc. rewrite !orb_false_r in Hc.
  repeat (apply orb_true_iff in Hc as [Hc | Hc]);
    apply char_eqb_eq in Hc; subst c; reflexivity.
Qed.

Lemma accept_or_well_spaced : well_spaced accept_or_clean = true.
Proof.
  change accept_or_clean
    with (X ++ " "%char :: str "[accept" ++ " "%char :: Y
            ++ " "%char :: str "or" ++ " "%char :: Z ++ ["]"%char]).
  assert (HZ' : well_spaced (Z ++ ["]"%char]) = true)
    by (apply well_spaced_snoc; [exact HwZ | exact HnZ | reflexivity]).
  repeat (apply well_spaced_join; try assumption; try reflexivity;
          try discriminate);
    try (intros E; apply app_eq_nil in E as [E _]; contradiction);
    try (intros E; apply app_eq_nil in E as [_ E]; discriminate).
Qed.

(** Cleaning removes the aside and nothing else. *)
Lemma cleanAnswerline_accept_or :
  cleanAnswerline accept_or_line = accept_or_clean.
Proof.
  pose proof HW as HW'. unfold aside_text in HW'.
  apply andb_true_iff in HW' as [HfW _].
  unfold cleanAnswerline.
  assert (Hline : accept_or_line
                  = (accept_or_clean ++ [" "%char])
                      ++ (str "(do not accept " ++ W ++ str ")")).
  { unfold accept_or_line, accept_or_clean.
    repeat rewrite <- app_assoc. reflexivity. }
  rewrite (remove_none ltgt accept_or_line).
  2:{ eapply never_at_free; [apply delimited_starts|].
      rewrite Hline, !free_of_app.
      repeat (apply andb_true_iff; split); try reflexivity.
      - apply (accept_or_clean_plain "&"%char eq_refl).
      - apply (free_of_char (str ")&") "&"%char W eq_refl HfW). }
  rewrite Hline at 1. unfold remove.
  rewrite removeAll_from_through.
  2:{ eapply never_at_free; [apply aside_starts|].
      rewrite free_of_app. apply andb_true_iff. split; [|reflexivity].
      apply (accept_or_clean_plain "("%char eq_refl). }
  rewrite (remove_aside_do_not_accept W HW).
  rewrite app_nil_r.
  rewrite (replaceChar_free "("%char "["%char).
  2:{ rewrite free_of_app. apply andb_true_iff. split; [|reflexivity].
      apply (accept_or_clean_plain "("%char eq_refl). }
  rewrite (replaceChar_free ")"%char "]"%char).
  2:{ rewrite free_of_app. apply andb_true_iff. split; [|reflexivity].
      apply (accept_or_clean_plain ")"%char eq_refl). }
  apply normalizeSpacing_trailing, accept_or_well_spaced.
Qed.

(** The line without its aside is clean as it stands. *)
Lemma cleanAnswerline_accept_or_clean :
  cleanAnswerline accept_or_clean = accept_or_clean.
Proof.
  unfold cleanAnswerline.
  rewrite (remove_none ltgt accept_or_clean)
    by (eapply never_at_free;
        [apply delimited_starts
        | apply (accept_or_clean_plain "&"%char eq_refl)]).
  rewrite (remove_none aside accept_or_clean)
    by (eapply never_at_free;
        [apply aside_starts
        | apply (accept_or_clean_plain "("%char eq_refl)]).
  rewrite (replaceChar_free "("%char "["%char)
    by apply (accept_or_clean_plain "("%char eq_refl).
  rewrite (replaceChar_free ")"%char "]"%char)
    by apply (accept_or_clean_plain ")"%char eq_refl).
  apply normalizeSpacing_id, accept_or_well_spaced.
Qed.

(** The text behind X and its blank. *)
Definition bracket_part : jsstring :=
  str "[accept " ++ Y ++ str " or " ++ Z ++ str "]".

Lemma accept_or_clean_split :
  accept_or_clean = (X ++ str " ") ++ bracket_part.
Proof.
  unfold accept_or_clean, bracket_part. rewrite <- app_assoc. reflexivity.
Qed.

(** A suffix of X and its blank starts with a blank or with a code unit
    of X. *)
Lemma suffix_head :
  forall p a1 d a2,
    p ++ str " " = a1 ++ d :: a2 ->
    d = " "%char \/ exists p1 p2, p = p1 ++ d :: p2.
Proof.
  intros p a1 d a2 E.
  assert (Hin : In d (p ++ str " ")) by (rewrite E; apply in_elt).
  apply in_app_or in Hin as [Hin | [<- | []]]; [right | left; reflexivity].
  apply in_split in Hin. exact Hin.
Qed.

(** The primary answer is X with the blank behind it. *)
Lemma primaryAnswers_accept_or :
  primaryAnswers accept_or_clean = [X ++ str " "].
Proof.
  unfold primaryAnswers. rewrite accept_or_clean_split.
  rewrite primaryAnswer_through.
  - change (primaryAnswer bracket_part) with (Some (@nil ascii)).
    cbn [option_map]. rewrite app_nil_r. reflexivity.
  - apply tight_no_line_break.
    apply tight_app;
      [apply well_spaced_tight, HwX | reflexivity
       | left; apply (well_spaced_parts _ HwX)].
  - intros a1 a2 E Hne. destruct a2 as [|d a2]; [contradiction|].
    unfold primary_stop. apply orb_false_iff. split.
    + change (prefixb (str "[") ((d :: a2) ++ bracket_part))
        with (char_eqb "["%char d && true).
      rewrite andb_true_r. apply char_eqb_neq. intros <-.
      destruct (suffix_head _ _ _ _ E) as [Hd | (p1 & p2 & Hp)];
        [discriminate|].
      pose proof HpX as Hf. unfold markup_free in Hf.
      rewrite Hp, free_of_app, free_of_cons in Hf.
      cbn in Hf. rewrite andb_false_r in Hf. discriminate Hf.
    + destruct (prefixb (str " or ") ((d :: a2) ++ bracket_part)) eqn:Ep;
        [|reflexivity].
      exfalso.
      change bracket_part
        with ("["%char :: str "accept " ++ Y ++ str " or " ++ Z ++ str "]")
        in Ep.
      apply prefixb_barrier in Ep; [|reflexivity].
      pose proof HoX as Hf. rewrite E in Hf.
      rewrite (includes_suffix a1 (d :: a2) _ Ep) in Hf.
      discriminate Hf.
Qed.

Definition or_part : jsstring := str " or " ++ Z ++ str "]".

Lemma lazy_capture_first : lazy_capture (Y ++ or_part) = Some Y.
Proof.
  apply lazy_capture_plain; [exact HwY | exact HpY | reflexivity |].
  intros p1 p2 w E Hne Hw.
  apply (stop_word_false_before_or Y p1 p2 w (Z ++ str "]") HsY Hw E Hne).
Qed.

Lemma lazy_capture_last : lazy_capture (Z ++ str "]") = Some Z.
Proof.
  apply lazy_capture_plain; [exact HwZ | exact HpZ | reflexivity |].
  intros p1 p2 w E Hne Hw.
  apply (stop_word_false_barrier Z p1 p2 w "]"%char [] HsZ Hw E).
  apply stopWords_no_bracket; cbn; auto.
Qed.

Definition first_match : Match :=
  {| m_index := length X + 1;
     m_text := str "[accept " ++ Y;
     m_group := Y |}.

Definition second_match : Match :=
  {| m_index := length X + 9 + length Y;
     m_text := str " or " ++ Z;
     m_group := Z |}.

(** The two matches in the bracket. *)
Lemma matchAll_bracket_part :
  matchAll_from acceptableAnswers 0 (0 + length (X ++ str " ")) bracket_part
  = [first_match; second_match].
Proof.
  change bracket_part
    with ("["%char :: str "accept " ++ Y ++ or_part).
  cbn [matchAll_from].
  unfold acceptableAnswers at 1.
  rewrite (answerMatcher_at _ "["%char (str "accept ") (Y ++ or_part) Y
             eq_refl);
    [| cbn [find]; rewrite prefixb_app; reflexivity
     | exact lazy_capture_first].
  f_equal.
  - unfold first_match. f_equal.
    + rewrite length_app. reflexivity.
    + change ("["%char :: str "accept " ++ Y ++ or_part)
        with ((str "[accept " ++ Y) ++ or_part).
      replace (1 + length (str "accept ") + length Y)
        with (length (str "[accept " ++ Y))
        by (rewrite length_app; reflexivity).
      apply firstn_exact.
  - replace (1 + length (str "accept ") + length Y - 1)
      with (length (str "accept " ++ Y))
      by (rewrite length_app; cbn [length str list_ascii_of_string]; lia).
    rewrite app_assoc, matchAll_from_skip.
    change or_part with (" "%char :: str "or " ++ Z ++ str "]").
    cbn [matchAll_from].
    unfold acceptableAnswers at 1.
    rewrite (answerMatcher_at _ " "%char (str "or ") (Z ++ str "]") Z
               eq_refl);
      [| cbn [find]; rewrite prefixb_app; reflexivity
       | exact lazy_capture_last].
    f_equal.
    + unfold second_match. f_equal.
      * rewrite !length_app. cbn [length str list_ascii_of_string]. lia.
      * change (" "%char :: str "or " ++ Z ++ str "]")
          with ((str " or " ++ Z) ++ str "]").
        replace (1 + length (str "or ") + length Z)
          with (length (str " or " ++ Z))
          by (rewrite length_app; reflexivity).
        apply firstn_exact.
    + replace (1 + length (str "or ") + length Z - 1)
        with (length (str "or " ++ Z))
        by (rewrite length_app; cbn [length str list_ascii_of_string]; lia).
      rewrite app_assoc, matchAll_from_skip. reflexivity.
Qed.

(** A match that begins in X or at its blank ends in front of the
    bracket. *)
Lemma acceptableAnswers_inside_X :
  forall a1 a2 len g,
    X ++ str " " = a1 ++ a2 -> a2 <> [] ->
    acceptableAnswers (a2 ++ bracket_part) = Some (len, g) ->
    len <= length a2.
Proof.
  intros a1 a2 len g E Hne Hm. destruct a2 as [|d r]; [contradiction|].
  unfold acceptableAnswers, answerMatcher in Hm. cbn [app] in Hm.
  destruct (is_opening d); [|discriminate].
  destruct (find (fun k => prefixb k (r ++ bracket_part))
                 [str "accept "; str "or "]) as [k|] eqn:Ek;
    [|discriminate].
  apply find_some in Ek as [Hin Hp].
  change bracket_part
    with ("["%char :: str "accept " ++ Y ++ str " or " ++ Z ++ str "]")
    in Hp.
  apply prefixb_barrier in Hp;
    [| destruct Hin as [<- | [<- | []]]; reflexivity].
  apply prefixb_spec in Hp as (r2 & ->).
  rewrite <- app_assoc, skipn_exact in Hm.
  destruct (lazy_capture (r2 ++ bracket_part)) as [g'|] eqn:Eg;
    [|discriminate].
  injection Hm as <- <-.
  destruct (lazy_capture_bounded r2 bracket_part g' eq_refl Eg)
    as (r3 & ->).
  cbn [length]. rewrite !length_app. lia.
Qed.

(** The matches of the line: those within X, then the two of the
    bracket. *)
Lemma matchAll_accept_or :
  exists ms,
    matchAll accept_or_clean acceptableAnswers
    = ms ++ [first_match; second_match].
Proof.
  unfold matchAll. rewrite accept_or_clean_split.
  destruct (matchAll_from_inside acceptableAnswers (X ++ str " ")
              bracket_part acceptableAnswers_inside_X 0 0 ltac:(lia))
    as (ms & Hms).
  exists ms. rewrite Hms, matchAll_bracket_part. reflexivity.
Qed.

(** Without a keyword behind a delimiter there is no match within X. *)
Lemma acceptableAnswers_never_in_X :
  has_accept_marker (X ++ str " ") = false ->
  never_at acceptableAnswers (X ++ str " ") bracket_part.
Proof.
  intros Hmarker a1 a2 E Hne. destruct a2 as [|d a2]; [contradiction|].
  unfold acceptableAnswers, answerMatcher. cbn [app].
  destruct (is_opening d) eqn:Eo; [|reflexivity].
  assert (Hno : forall k,
             In k [str "accept "; str "or "] ->
             prefixb k (a2 ++ bracket_part) = false).
  { intros k Hk.
    destruct (prefixb k (a2 ++ bracket_part)) eqn:Ep; [|reflexivity].
    exfalso.
    change bracket_part
      with ("["%char :: str "accept " ++ Y ++ str " or " ++ Z ++ str "]")
      in Ep.
    apply prefixb_barrier in Ep;
      [| destruct Hk as [<- | [<- | []]]; reflexivity].
    pose proof Hmarker as Hm. rewrite E in Hm.
    apply has_accept_marker_suffix in Hm.
    cbn [accept_marker_at] in Hm. rewrite Eo in Hm.
    destruct Hk as [<- | [<- | []]]; rewrite Ep in Hm;
      rewrite ?orb_true_r in Hm; discriminate Hm. }
  cbn [find].
  rewrite (Hno (str "accept ")) by (cbn; auto).
  rewrite (Hno (str "or ")) by (cbn; auto).
  reflexivity.
Qed.

Lemma matchAll_accept_or_exact :
  has_accept_marker (X ++ str " ") = false ->
  matchAll accept_or_clean acceptableAnswers = [first_match; second_match].
Proof.
  intros Hmarker. unfold matchAll. rewrite accept_or_clean_split.
  rewrite matchAll_from_through
    by exact (acceptableAnswers_never_in_X Hmarker).
  apply matchAll_bracket_part.
Qed.

Hypothesis HY_prompt : includes Y (str "prompt") = false.
Hypothesis HY_negated : includes Y (str "do not accept") = false.

Lemma filter_first_match :
  filterNegativeAnswers accept_or_clean first_match AcceptType = true.
Proof.
  unfold filterNegativeAnswers, first_match. cbn [m_index m_text].
  change (skipn 1 (str "[accept " ++ Y))
    with (str "accept" ++ " "%char :: Y).
  rewrite split_on_word by reflexivity. cbn [hd].
  change (true && str_eqb (str "accept") (str "accept")) with true.
  cbn match. unfold none_of, endsWith.
  rewrite accept_or_clean_split.
  replace (length X + 1) with (length (X ++ str " "))
    by (rewrite length_app; reflexivity).
  rewrite firstn_exact, rev_app_distr. reflexivity.
Qed.

Lemma accept_or_clean_split2 :
  accept_or_clean
  = (X ++ str " [accept " ++ Y ++ str " ") ++ str "or " ++ Z ++ str "]".
Proof.
  unfold accept_or_clean. repeat rewrite <- app_assoc. reflexivity.
Qed.

(** The last delimiter in front of " or " is the opening bracket, also
    when X holds commas or semicolons. *)
Lemma startIndex_second_match :
  multipleLastIndexOf accept_or_clean (map str [";"; ","; "["]%string)
                      (length X + 9 + length Y)
  = Z.of_nat (length X + 1).
Proof.
  unfold multipleLastIndexOf, lastIndexOf_upto.
  cbn [map length str list_ascii_of_string].
  rewrite accept_or_clean_split2.
  replace (length X + 9 + length Y + 1)
    with (length (X ++ str " [accept " ++ Y ++ str " "))
    by (rewrite !length_app; cbn [length str list_ascii_of_string]; lia).
  rewrite firstn_exact. unfold lastIndexOf.
  assert (Hfree : forall c,
             existsb (char_eqb c) (str "<>[]()&,;") = true ->
             free_of [c] (str " [accept " ++ Y ++ str " ")
             = negb (char_eqb c "["%char)).
  { intros c Hc. rewrite !free_of_app.
    rewrite (free_of_char _ c Y Hc HpY).
    cbn in Hc. rewrite !orb_false_r in Hc.
    repeat (apply orb_true_iff in Hc as [Hc | Hc]);
      apply char_eqb_eq in Hc; subst c; reflexivity. }
  pose proof (lastIndexOf_from_before ";"%char X _ 0 (-1)%Z
                (Hfree ";"%char eq_refl) ltac:(lia)) as Hsemi.
  pose proof (lastIndexOf_from_before ","%char X _ 0 (-1)%Z
                (Hfree ","%char eq_refl) ltac:(lia)) as Hcomma.
  assert (Hbracket :
            lastIndexOf_from (str "[") (X ++ str " [accept " ++ Y ++ str " ")
                             0 (-1)%Z
            = Z.of_nat (length X + 1)).
  { change (X ++ str " [accept " ++ Y ++ str " ")
      with (X ++ [" "%char] ++ "["%char :: str "accept " ++ Y ++ str " ").
    rewrite app_assoc.
    change (str "[") with ["["%char].
    rewrite (lastIndexOf_from_last "["%char).
    - rewrite length_app. cbn [length]. f_equal.
    - rewrite !free_of_app.
      rewrite (free_of_char (str "<>[]()&,;") "["%char Y eq_refl HpY).
      reflexivity. }
  cbn [fold_left]. change ["["%char] with (str "["). rewrite Hbracket.
  cbn [Nat.add] in Hsemi, Hcomma. lia.
Qed.

Lemma prevString_second_match :
  slice accept_or_clean (Z.of_nat (length X + 1)) (length X + 9 + length Y)
  = str "[accept " ++ Y.
Proof.
  unfold slice.
  assert (Hlen : length accept_or_clean
                 = length X + 9 + length Y + 5 + length Z).
  { unfold accept_or_clean. rewrite !length_app.
    cbn [length str list_ascii_of_string]. lia. }
  destruct (Z.of_nat (length X + 1) <? 0)%Z eqn:E;
    [apply Z.ltb_lt in E; lia|].
  rewrite Z.min_l by lia. rewrite Nat2Z.id.
  rewrite Nat.min_l by lia.
  rewrite accept_or_clean_split.
  replace (length X + 1) with (length (X ++ str " "))
    by (rewrite length_app; reflexivity).
  rewrite skipn_exact.
  change bracket_part with ((str "[accept " ++ Y) ++ or_part).
  replace (length X + 9 + length Y - length (X ++ str " "))
    with (length (str "[accept " ++ Y))
    by (rewrite !length_app; cbn [length str list_ascii_of_string]; lia).
  apply firstn_exact.
Qed.

Lemma filter_second_match :
  filterNegativeAnswers accept_or_clean second_match AcceptType = true.
Proof.
  unfold filterNegativeAnswers, second_match. cbn [m_index m_text].
  change (skipn 1 (str " or " ++ Z)) with (str "or" ++ " "%char :: Z).
  rewrite split_on_word by reflexivity. cbn [hd].
  change (true && str_eqb (str "or") (str "accept")) with false.
  change (false && str_eqb (str "or") (str "prompt")) with false.
  change (true && str_eqb (str "or") (str "or")) with true.
  cbn match.
  rewrite startIndex_second_match, prevString_second_match.
  unfold none_of. cbn [map forallb].
  change (includes (str "[accept " ++ Y) (str "do not accept"))
    with (includes Y (str "do not accept")).
  change (includes (str "[accept " ++ Y) (str "prompt on"))
    with (includes Y (str "prompt on")).
  change (includes (str "[accept " ++ Y) (str "prompt"))
    with (includes Y (str "prompt")).
  rewrite HY_negated, HY_prompt.
  destruct (includes Y (str "prompt on")) eqn:E; [|reflexivity].
  change (str "prompt on") with (str "prompt" ++ str " on") in E.
  apply includes_prefix_of_pattern in E. congruence.
Qed.

(** The texts the parser normalizes: X with its blank, whatever is
    accepted within X, then Y and Z. *)
Lemma answers_accept_or :
  exists inner,
    primaryAnswers accept_or_clean
    ++ map m_group
         (filter (fun m => filterNegativeAnswers accept_or_clean m AcceptType)
                 (matchAll accept_or_clean acceptableAnswers))
    = (X ++ str " ") :: inner ++ [Y; Z].
Proof.
  destruct matchAll_accept_or as (ms & ->).
  rewrite primaryAnswers_accept_or, filter_app. cbn [filter].
  rewrite filter_first_match, filter_second_match.
  rewrite map_app. cbn [map m_group first_match second_match app].
  eexists. reflexivity.
Qed.

Lemma answers_accept_or_exact :
  has_accept_marker (X ++ str " ") = false ->
  primaryAnswers accept_or_clean
  ++ map m_group
       (filter (fun m => filterNegativeAnswers accept_or_clean m AcceptType)
               (matchAll accept_or_clean acceptableAnswers))
  = [X ++ str " "; Y; Z].
Proof.
  intros Hmarker.
  rewrite primaryAnswers_accept_or, (matchAll_accept_or_exact Hmarker).
  cbn [filter]. rewrite filter_first_match, filter_second_match.
  reflexivity.
Qed.

End AcceptOr.

(** The capture in front of a closing bracket, for a phrase. *)
Lemma lazy_capture_Z :
  forall Z, phrase Z = true -> lazy_capture (Z ++ str "]") = Some Z.
Proof.
  intros Z HZ. apply lazy_capture_last, phrase_last_alternative, HZ.
Qed.


(** *** [getUnique] keeps exactly the values of the list *)

Lemma existsb_str_eqb :
  forall x seen, existsb (str_eqb x) seen = true <-> In x seen.
Proof.
  intros x seen. rewrite existsb_exists. split.
  - intros (y & Hy & E). apply str_eqb_eq in E. subst y. exact Hy.
  - intros Hx. exists x. split; [exact Hx | apply str_eqb_refl].
Qed.

Lemma In_getUnique_from :
  forall arr seen x,
    In x (getUnique_from seen arr) <-> In x arr /\ ~ In x seen.
Proof.
  induction arr as [|y arr IH]; intros seen x; cbn [getUnique_from].
  - cbn. tauto.
  - destruct (existsb (str_eqb y) seen) eqn:E.
    + apply existsb_str_eqb in E. rewrite IH. cbn [In]. split.
      * intros [Hx Hn]. auto.
      * intros [[<- | Hx] Hn]; [contradiction | auto].
    + assert (Hy : ~ In y seen).
      { intros Hy. apply existsb_str_eqb in Hy. congruence. }
      cbn [In]. rewrite IH. cbn [In]. split.
      * intros [<- | [Hx Hn]]; [auto | tauto].
      * intros [[<- | Hx] Hn]; [auto|].
        destruct (str_eqb y x) eqn:Eyx.
        -- apply str_eqb_eq in Eyx. auto.
        -- right. split; [exact Hx|]. intros [-> | Hs]; [|contradiction].
           rewrite str_eqb_refl in Eyx. discriminate.
Qed.

Lemma In_getUnique :
  forall arr x, In x (getUnique arr) <-> In x arr.
Proof.
  intros arr x. unfold getUnique. rewrite In_getUnique_from. cbn. tauto.
Qed.

Lemma In_parsed :
  forall arr x,
    In x (getUnique (filter emptyStringFilter arr)) <-> In x arr /\ x <> [].
Proof.
  intros arr x. rewrite In_getUnique, filter_In.
  unfold emptyStringFilter. destruct x; cbn; intuition congruence.
Qed.

Section AcceptOrParse.
Context `{Nlp}.

(** C3 (amended). In "X [accept Y or Z] (do not accept W)" let X, Y and Z
    be not empty, with single blanks between their words and none at
    their ends, and without markup, bracket, parenthesis or ampersand;
    let X with the blank behind it not contain " or "; let Y and Z have no
    comma or semicolon, Y no stop word of the parser as a word behind a
    blank, Z none between two blanks, and let Y contain neither "prompt"
    nor "do not accept"; let W have no closing parenthesis, ampersand or
    line break.  Then (1) the acceptable answers are those of the line
    without its aside, so W contributes nothing; (2) whenever the parser
    returns, X with the blank behind it (the primary answer is captured
    with that blank), Y and Z normalize without error and their
    normalized forms that are not empty are among the acceptable answers;
    (3) when moreover neither "accept " nor "or " directly follows a
    blank, comma or semicolon in X with its blank, and normalization does
    not throw, the acceptable answers are exactly the distinct non-empty
    texts among the normalized forms of X with its blank, of Y and of Z,
    and of the three with first names removed. *)
Theorem parseAcceptableAnswers_accept_or :
  forall X Y Z W : jsstring,
    leading_answer X = true ->
    first_alternative Y = true ->
    last_alternative Z = true ->
    aside_text W = true ->
    includes Y (str "prompt") = false ->
    includes Y (str "do not accept") = false ->
    parseAcceptableAnswers (accept_or_line X Y Z W)
    = parseAcceptableAnswers (accept_or_clean X Y Z)
    /\ (forall parsed,
          parseAcceptableAnswers (accept_or_line X Y Z W) = Some parsed ->
          exists nX nY nZ,
            normalizeAnswer (X ++ str " ") = Some nX
            /\ normalizeAnswer Y = Some nY
            /\ normalizeAnswer Z = Some nZ
            /\ (nX <> [] -> In nX parsed)
            /\ (nY <> [] -> In nY parsed)
            /\ (nZ <> [] -> In nZ parsed))
    /\ (has_accept_marker (X ++ str " ") = false ->
        forall nX nY nZ fX fY fZ,
          normalizeAnswer (X ++ str " ") = Some nX ->
          normalizeAnswer Y = Some nY ->
          normalizeAnswer Z = Some nZ ->
          normalizeAnswer (removeFirstNames (X ++ str " ")) = Some fX ->
          normalizeAnswer (removeFirstNames Y) = Some fY ->
          normalizeAnswer (removeFirstNames Z) = Some fZ ->
          parseAcceptableAnswers (accept_or_line X Y Z W)
          = Some (getUnique
                    (filter emptyStringFilter [nX; nY; nZ; fX; fY; fZ]))).
Proof.
  intros X Y Z W HX HY HZ HW HYp HYn.
  assert (Hfree : markup_free_tags (accept_or_clean X Y Z) = true)
    by (apply (accept_or_clean_plain X Y Z HX HY HZ "<"%char eq_refl)).
  assert (Hparse :
            parseAcceptableAnswers (accept_or_line X Y Z W)
            = match
                mapM normalizeAnswer
                     (combine
                        (primaryAnswers (accept_or_clean X Y Z)
                         ++ map m_group
                              (filter
                                 (fun m =>
                                    filterNegativeAnswers
                                      (accept_or_clean X Y Z) m AcceptType)
                                 (matchAll (accept_or_clean X Y Z)
                                           acceptableAnswers)))
                        (map removeFirstNames
                           (primaryAnswers (accept_or_clean X Y Z)
                            ++ map m_group
                                 (filter
                                    (fun m =>
                                       filterNegativeAnswers
                                         (accept_or_clean X Y Z) m
                                         AcceptType)
                                    (matchAll (accept_or_clean X Y Z)
                                              acceptableAnswers)))))
              with
              | Some allAnswers =>
                  Some (getUnique (filter emptyStringFilter allAnswers))
              | None => None
              end).
  { unfold parseAcceptableAnswers.
    rewrite (cleanAnswerline_accept_or X Y Z W HX HY HZ HW).
    destruct (no_tags_lt _ (str "strong") Hfree) as [-> ->].
    reflexivity. }
  split; [|split].
  - rewrite Hparse. unfold parseAcceptableAnswers.
    rewrite (cleanAnswerline_accept_or_clean X Y Z HX HY HZ).
    destruct (no_tags_lt _ (str "strong") Hfree) as [-> ->].
    reflexivity.
  - intros parsed Hp. rewrite Hparse in Hp.
    destruct (answers_accept_or X Y Z HX HY HZ HYp HYn) as (inner & Hin).
    rewrite Hin in Hp. unfold combine in Hp.
    match type of Hp with
    | match mapM _ ?c with _ => _ end = _ =>
        assert (HinX : In (X ++ str " ") c) by (left; reflexivity);
        assert (HinY : In Y c)
          by (apply in_or_app; left; right; apply in_or_app; right;
              left; reflexivity);
        assert (HinZ : In Z c)
          by (apply in_or_app; left; right; apply in_or_app; right;
              right; left; reflexivity);
        destruct (mapM normalizeAnswer c) as [l|] eqn:El; [|discriminate]
    end.
    injection Hp as <-.
    destruct (mapM_member _ _ _ _ El HinX) as (nX & HnX & HlX).
    destruct (mapM_member _ _ _ _ El HinY) as (nY & HnY & HlY).
    destruct (mapM_member _ _ _ _ El HinZ) as (nZ & HnZ & HlZ).
    exists nX, nY, nZ.
    repeat split; try assumption; intros Hne; apply In_parsed; auto.
  - intros Hmarker nX nY nZ fX fY fZ HnX HnY HnZ HfX HfY HfZ.
    rewrite Hparse.
    rewrite (answers_accept_or_exact X Y Z HX HY HZ HYp HYn Hmarker).
    unfold combine. cbn [map app mapM].
    rewrite HnX, HnY, HnZ, HfX, HfY, HfZ. reflexivity.
Qed.

End AcceptOrParse.

(** *** On concrete lines, with the reference library *)

Lemma parse_line_without_special_tokens_witness :
  Reference.parseAcceptableAnswers (str "The  Raven")
  = Some [str "the raven"]
  /\ Reference.parsePromptableAnswers (str "The  Raven") = Some [].
Proof.
  destruct (@parse_line_without_special_tokens Reference.nlp
              (str "The  Raven") (str "the raven") (str "the raven")
              eq_refl eq_refl eq_refl eq_refl)
    as (_ & Hprompt & Hone).
  split; [|exact Hprompt].
  apply Hone; [discriminate | left; reflexivity].
Defined.

(** C6 as stated fails: the acceptable answers of a line without special
    tokens need not be one.  The first-name variant of step 9 adds a
    second answer, and a line that normalizes to the empty string has
    none. *)
Lemma parse_plain_line_not_singleton :
  Reference.parseAcceptableAnswers (str "George Washington")
  = Some [str "george washington"; str "washington"]
  /\ Reference.parseAcceptableAnswers (str "") = Some [].
Proof. split; vm_compute; reflexivity. Qed.

Lemma parseAcceptableAnswers_accept_or_witness :
  Reference.parseAcceptableAnswers
    (str "Foo [accept Bar or Baz] (do not accept Qux)")
  = Some [str "foo"; str "bar"; str "baz"].
Proof.
  destruct (@parseAcceptableAnswers_accept_or Reference.nlp
              (str "Foo") (str "Bar") (str "Baz") (str "Qux")
              eq_refl eq_refl eq_refl eq_refl eq_refl eq_refl)
    as (_ & _ & Hexact).
  exact (Hexact eq_refl
                (str "foo") (str "bar") (str "baz")
                (str "foo") (str "bar") (str "baz")
                eq_refl eq_refl eq_refl eq_refl eq_refl eq_refl).
Defined.

(** C3 as stated fails: an alternative behind "or" is dropped when the
    text since the last delimiter contains "prompt", also inside a word.
    Of "Foo [accept teleprompter or autocue] (do not accept Qux)" the
    answer "autocue" is not acceptable. *)
Lemma parseAcceptableAnswers_drops_alternative :
  Reference.parseAcceptableAnswers
    (str "Foo [accept teleprompter or autocue] (do not accept Qux)")
  = Some [str "foo"; str "teleprompter"]
  /\ Reference.normalizeAnswer (str "autocue") = Some (str "autocue")
  /\ ~ In (str "autocue") [str "foo"; str "teleprompter"].
Proof.
  split; [vm_compute; reflexivity|]. split; [vm_compute; reflexivity|].
  intros [E | [E | []]]; discriminate E.
Qed.

(** [answer] normalizes to a text that is not empty and not among the
    acceptable answers of [line]. *)
Definition not_accepted (line answer : jsstring) : Prop :=
  exists l n,
    Reference.parseAcceptableAnswers line = Some l
    /\ Reference.normalizeAnswer answer = Some n
    /\ n <> [] /\ ~ In n l.

(** The conditions on X, Y and Z matter.  With " or " in X the primary
    answer ends in front of it; a stop word behind a blank of Y or
    between two blanks of Z, and a comma in Y, end the captured
    alternative there. *)
Lemma accept_or_conditions_matter :
  not_accepted
    (str "bread or butter [accept Bar or Baz] (do not accept Qux)")
    (str "bread or butter")
  /\ not_accepted
       (str "Foo [accept the day after or Baz] (do not accept Qux)")
       (str "the day after")
  /\ not_accepted
       (str "Foo [accept Bar or dusk until dawn] (do not accept Qux)")
       (str "dusk until dawn")
  /\ not_accepted
       (str "Foo [accept red, green or Baz] (do not accept Qux)")
       (str "red, green").
Proof.
  repeat split; unfold not_accepted; eexists; eexists;
    (split; [vm_compute; reflexivity|]);
    (split; [vm_compute; reflexivity|]);
    (split; [discriminate|]);
    intros Hin; cbn [In] in Hin;
    repeat (destruct Hin as [Hin | Hin]; [discriminate Hin|]);
    exact Hin.
Qed.

End ParserFacts.

(** ** The judge and the normalizer *)

Module JudgeNormalization.
Import Similarity Judging JudgingFacts.

(** The judge as the specification words it: the submission is normalized
    and the normalized text is compared. *)
Definition judge_as_specified (J : Judge) (userAnswer : jsstring)
  : option (JudgeResult * Judge) :=
  match Reference.normalizeAnswer userAnswer with
  | Some normalized => Some (judge J normalized)
  | None => None
  end.

Definition napoleon_only : Judge :=
  {| acceptableAnswers := [str "napoleon"]; promptableAnswers := [] |}.

(** C1 as stated fails: [judge] does not normalize the submission.  For
    the acceptable answer "napoleon" and the submission "NAPOLEON" the
    normalized submission rates 1, above 0.6, and the verdict would be
    [correct]; [judge] compares the capitals as they are, rates 0 and
    answers [incorrect]. *)
Lemma judge_does_not_normalize :
  option_map fst (judge_as_specified napoleon_only (str "NAPOLEON"))
  = Some correct
  /\ (compareTwoStrings (str "NAPOLEON") (str "napoleon") == 0)%Q
  /\ fst (judge napoleon_only (str "NAPOLEON")) = incorrect.
Proof. repeat split; vm_compute; reflexivity. Qed.

End JudgeNormalization.

(** ** More on JavaScript strings *)

Module TextFacts.
Import JsFacts.

Lemma forallb_mapped :
  forall {A B} (p : B -> bool) (f : A -> B) l,
    forallb p (map f l) = forallb (fun x => p (f x)) l.
Proof.
  intros A B p f; induction l as [|x l IH]; [reflexivity|].
  cbn. rewrite IH. reflexivity.
Qed.

Lemma filter_none :
  forall {A} (p : A -> bool) l,
    (forall x, In x l -> p x = false) -> filter p l = [].
Proof.
  intros A p; induction l as [|x l IH]; intros H; [reflexivity|].
  cbn. rewrite (H x (or_introl eq_refl)). apply IH.
  intros y Hy. apply H. right; exact Hy.
Qed.

(** *** Occurrences *)

Lemma includes_cons :
  forall c s p, includes s p = true -> includes (c :: s) p = true.
Proof. intros c s p H. cbn [includes]. rewrite H. apply orb_true_r. Qed.

Lemma includes_cases :
  forall c s p,
    includes (c :: s) p = true ->
    prefixb p (c :: s) = true \/ includes s p = true.
Proof. intros c s p H. cbn [includes] in H. apply orb_true_iff, H. Qed.

Lemma includes_front :
  forall s p, prefixb p s = true -> includes s p = true.
Proof. intros s p H. apply (includes_suffix [] s p H). Qed.

Lemma includes_skipn :
  forall n s p, prefixb p (skipn n s) = true -> includes s p = true.
Proof.
  intros n s p H. rewrite <- (firstn_skipn n s).
  apply includes_suffix, H.
Qed.

Lemma includes_false_suffix :
  forall a1 a2 p, includes (a1 ++ a2) p = false -> includes a2 p = false.
Proof.
  induction a1 as [|c a1 IH]; intros a2 p H; [exact H|].
  apply IH. eapply includes_cons_false. exact H.
Qed.

Lemma includes_false_prefixb :
  forall s p, includes s p = false -> prefixb p s = false.
Proof.
  intros s p H. destruct s; cbn in H; apply orb_false_iff in H; apply H.
Qed.

Lemma includes_occurrence :
  forall s p, includes s p = true -> exists a b, s = a ++ p ++ b.
Proof.
  induction s as [|c s IH]; intros p H.
  - cbn in H. rewrite orb_false_r in H.
    apply prefixb_spec in H as (r & H). exists [], r. exact H.
  - apply includes_cases in H as [H | H].
    + apply prefixb_spec in H as (r & H). exists [], r. exact H.
    + destruct (IH _ H) as (a & b & ->). exists (c :: a), b. reflexivity.
Qed.

Lemma includes_at :
  forall a p b, includes (a ++ p ++ b) p = true.
Proof. intros a p b. apply includes_suffix, prefixb_app. Qed.

(** A text found in a stretch of [s] is found in [s]. *)
Lemma includes_stretch :
  forall s p n m,
    includes (firstn n (skipn m s)) p = true -> includes s p = true.
Proof.
  intros s p n m H. apply includes_occurrence in H as (a & b & E).
  assert (Hs : s = (firstn m s ++ a) ++ p ++ (b ++ skipn n (skipn m s))).
  { transitivity (firstn m s ++ skipn m s);
      [symmetry; apply firstn_skipn|].
    rewrite <- app_assoc. f_equal.
    transitivity (firstn n (skipn m s) ++ skipn n (skipn m s));
      [symmetry; apply firstn_skipn|].
    rewrite E, <- !app_assoc. reflexivity. }
  rewrite Hs. apply includes_at.
Qed.

(** *** [split] and [join] *)

Lemma join_cons :
  forall sep w ws,
    ws <> [] -> join sep (w :: ws) = w ++ sep ++ join sep ws.
Proof. intros sep w [|w2 ws] H; [contradiction | reflexivity]. Qed.

Lemma join_app :
  forall sep a b,
    a <> [] -> b <> [] ->
    join sep (a ++ b) = join sep a ++ sep ++ join sep b.
Proof.
  intros sep; induction a as [|w a IH]; intros b Ha Hb; [contradiction|].
  destruct a as [|w2 a].
  - cbn [app]. apply join_cons, Hb.
  - change ((w :: w2 :: a) ++ b) with (w :: (w2 :: a) ++ b).
    rewrite join_cons by discriminate.
    rewrite IH by (discriminate || exact Hb).
    rewrite (join_cons sep w (w2 :: a)) by discriminate.
    rewrite <- !app_assoc. reflexivity.
Qed.

Lemma split_on_app_sep :
  forall sep u r,
    split_on sep (u ++ sep :: r) = split_on sep u ++ split_on sep r.
Proof.
  intros sep; induction u as [|c u IH]; intros r.
  - cbn [app split_on]. rewrite char_eqb_refl. reflexivity.
  - cbn [app split_on]. rewrite IH.
    destruct (char_eqb c sep); [reflexivity|].
    destruct (split_on_cons sep u) as (w & ws & ->). reflexivity.
Qed.

Lemma split_on_free :
  forall sep w,
    existsb (fun c => char_eqb c sep) w = false -> split_on sep w = [w].
Proof.
  intros sep; induction w as [|c w IH]; intros H; [reflexivity|].
  cbn in H. apply orb_false_iff in H as [Hc Hw].
  cbn [split_on]. rewrite Hc, (IH Hw). reflexivity.
Qed.

(** The pieces of a split do not contain the separator. *)
Lemma split_on_pieces :
  forall sep s w,
    In w (split_on sep s) -> existsb (fun c => char_eqb c sep) w = false.
Proof.
  intros sep; induction s as [|c s IH]; intros w H.
  - destruct H as [<- | []]. reflexivity.
  - cbn [split_on] in H. destruct (char_eqb c sep) eqn:Ec.
    + destruct H as [<- | H]; [reflexivity | apply IH, H].
    + destruct (split_on_cons sep s) as (w0 & ws & E). rewrite E in *.
      destruct H as [<- | H].
      * cbn. rewrite Ec. apply IH. left; reflexivity.
      * apply IH. right; exact H.
Qed.

Lemma split_on_join :
  forall sep ws,
    ws <> [] ->
    split_on sep (join [sep] ws) = concat (map (split_on sep) ws).
Proof.
  intros sep; induction ws as [|w ws IH]; intros Hne; [contradiction|].
  destruct ws as [|w2 ws].
  - cbn. rewrite app_nil_r. reflexivity.
  - rewrite join_cons by discriminate. cbn [app].
    rewrite split_on_app_sep, IH by discriminate. reflexivity.
Qed.

Lemma split_on_join_free :
  forall sep ws,
    ws <> [] ->
    forallb (fun w => negb (existsb (fun c => char_eqb c sep) w)) ws = true ->
    split_on sep (join [sep] ws) = ws.
Proof.
  intros sep ws Hne Hw. rewrite split_on_join by exact Hne.
  clear Hne. induction ws as [|w ws IH]; [reflexivity|].
  cbn in Hw. apply andb_true_iff in Hw as [Hw Hws].
  apply negb_true_iff in Hw.
  cbn [map concat]. rewrite (split_on_free _ _ Hw), (IH Hws). reflexivity.
Qed.

(** A word between two separators is one of the pieces. *)
Lemma split_on_between :
  forall sep w a b,
    existsb (fun c => char_eqb c sep) w = false ->
    In w (split_on sep (a ++ sep :: w ++ sep :: b)).
Proof.
  intros sep w a b Hw.
  rewrite split_on_app_sep, split_on_app_sep, (split_on_free _ _ Hw).
  apply in_or_app. right. left. reflexivity.
Qed.

(** *** [lastIndexOf] *)

Lemma lastIndexOf_from_absent :
  forall sub s i found,
    includes s sub = false -> lastIndexOf_from sub s i found = found.
Proof.
  intros sub; induction s as [|c s IH]; intros i found H.
  - cbn in H |- *. rewrite orb_false_r in H. rewrite H. reflexivity.
  - cbn [lastIndexOf_from]. rewrite (includes_false_prefixb _ _ H).
    apply IH. eapply includes_cons_false, H.
Qed.

Lemma lastIndexOf_absent :
  forall s sub, includes s sub = false -> lastIndexOf s sub = (-1)%Z.
Proof. intros s sub H. apply lastIndexOf_from_absent, H. Qed.

End TextFacts.

(** ** The tossup reader: the history, the queue and the filters *)

Module ReaderInvariants.
Import Scoring Reader ReaderFacts.

(** The points of a history, added up. *)
Definition history_total (rs : list TossupResult) : Z :=
  fold_right (fun r acc => (TossupScore_value (score r) + acc)%Z) 0%Z rs.

(** What every reducer keeps: the score is the sum over the history, a
    current result is the newest entry of the history, and in [judged]
    there is a current result. *)
Definition history_inv (s : TossupReaderState) : Prop :=
  total s = history_total (results s)
  /\ (forall r, currentResult s = Some r -> hd_error (results s) = Some r)
  /\ (status s = judged -> currentResult s <> None).

Lemma history_inv_initial : history_inv initialState.
Proof.
  repeat split; cbn; try discriminate.
Qed.

Lemma history_inv_reducer :
  forall s a, history_inv s -> history_inv (reducer s a).
Proof.
  intros s a (Ht & Hc & Hj).
  destruct a; cbn [reducer];
    unfold buzz, prompt, submitAnswer, setBuzz, filterTossupsByCategory,
      filterTossupsBySubcategory, filterTossupsByDifficulties,
      fetchTossups_fulfilled, set_tossups, set_status, history_inv;
    destruct (status s) eqn:E; cbn;
    repeat split; try assumption; try discriminate; try congruence;
    try (intros _; apply Hj; reflexivity);
    rewrite Ht; unfold history_total; lia.
Qed.

Lemma history_inv_fulfilled :
  forall s, history_inv s -> history_inv (nextTossup_fulfilled s).
Proof.
  intros s (Ht & Hc & Hj). unfold nextTossup_fulfilled, history_inv.
  destruct (length (tossups s) =? 0); cbn;
    repeat split; try assumption; try discriminate.
Qed.

Lemma history_inv_pending :
  forall s, history_inv s -> history_inv (nextTossup_pending s).
Proof.
  intros s (Ht & Hc & Hj). unfold nextTossup_pending, history_inv; cbn.
  repeat split; try assumption; discriminate.
Qed.

Lemma reachable_history_inv :
  forall st, reachable st -> history_inv (state st).
Proof.
  induction 1 as [| st st' _ IH Hstep].
  - apply history_inv_initial.
  - destruct Hstep; cbn [state].
    + apply history_inv_reducer, IH.
    + apply history_inv_pending, IH.
    + apply history_inv_fulfilled, IH.
    + exact IH.
Qed.

(** X1. In every state the store can reach, the running score equals the sum
    of the points of the results in the history. *)
Theorem score_is_history_total :
  forall st : Store,
    reachable st ->
    total (state st) = history_total (results (state st)).
Proof.
  intros st H. apply (reachable_history_inv st H).
Qed.

(** X2. In every state the store can reach, a current result is the entry at
    the front of the history, and the status [judged] comes with a current
    result. *)
Theorem current_result_heads_history :
  forall st : Store,
    reachable st ->
    (forall r, currentResult (state st) = Some r ->
               hd_error (results (state st)) = Some r)
    /\ (status (state st) = judged ->
        exists r, currentResult (state st) = Some r
                  /\ hd_error (results (state st)) = Some r).
Proof.
  intros st H. destruct (reachable_history_inv st H) as (_ & Hc & Hj).
  split; [exact Hc|].
  intros Hs. destruct (currentResult (state st)) as [r|] eqn:E.
  - exists r. split; [reflexivity | apply Hc; reflexivity].
  - contradiction (Hj Hs). reflexivity.
Qed.

(** X3. At most one [nextTossup] is under way at any time, and while one is
    the reader is [fetching]: the thunk's [condition] turns a second one
    away. *)
Theorem one_nextTossup_in_flight :
  forall st : Store,
    reachable st ->
    inFlight st <= 1
    /\ (inFlight st = 1 -> status (state st) = fetching)
    /\ (inFlight st = 1 -> nextTossup_condition (state st) = false).
Proof.
  intros st H. destruct (reachable_inv st H) as [H0 | [H1 Hf]].
  - rewrite H0. repeat split; try lia; discriminate.
  - rewrite H1. repeat split; try lia; try (intros _; exact Hf).
    intros _. unfold nextTossup_condition. rewrite Hf. reflexivity.
Qed.

(** *** A game of one tossup *)

Definition sample_tossup : Tossup :=
  {| text := str "For ten points, name this city.";
     answer := str "Paris"; formattedText := []; formattedAnswer := [];
     category := 0; subcategory := 0; difficulty := 0; tournament := [] |}.

Definition sample_result : TossupResult :=
  {| tossup := sample_tossup; isCorrect := true;
     submittedAnswer := str "paris"; score := ten;
     buzz_of := currentBuzz initialState |}.

(** Two tossups fetched, the next tossup asked for and delivered, a
    buzz and a correct answer. *)
Definition played : Store :=
  {| state :=
       {| status := judged;
          tossups := [sample_tossup];
          results := [sample_result];
          currentTossup := Some sample_tossup;
          currentResult := Some sample_result;
          currentBuzz := currentBuzz initialState;
          total := 10 |};
     inFlight := 0 |}.

(** The same game while the next tossup is being fetched. *)
Definition waiting : Store :=
  {| state :=
       {| status := fetching;
          tossups := [sample_tossup; sample_tossup];
          results := [];
          currentTossup := None;
          currentResult := None;
          currentBuzz := currentBuzz initialState;
          total := 0 |};
     inFlight := 1 |}.

Definition fetched : Store :=
  {| state := fetchTossups_fulfilled initialState
                                     [sample_tossup; sample_tossup];
     inFlight := 0 |}.

Definition reading_first : Store :=
  {| state := nextTossup_fulfilled (state waiting); inFlight := 0 |}.

Definition answering_first : Store :=
  {| state := buzz (state reading_first); inFlight := 0 |}.

Lemma waiting_reachable : reachable waiting.
Proof.
  apply (reachable_step fetched).
  - apply (reachable_step initialStore); [apply reachable_init|].
    exact (step_action initialStore
             (FetchTossupsFulfilled [sample_tossup; sample_tossup])).
  - exact (step_next_pending fetched eq_refl).
Qed.

Lemma played_reachable : reachable played.
Proof.
  apply (reachable_step answering_first).
  - apply (reachable_step reading_first).
    + apply (reachable_step waiting); [apply waiting_reachable|].
      exact (step_next_fulfilled waiting 0 eq_refl).
    + exact (step_action reading_first Buzz).
  - exact (step_action answering_first (SubmitAnswer sample_result)).
Qed.

Lemma score_is_history_total_witness :
  reachable played
  /\ total (state played) = history_total (results (state played))
  /\ total (state played) = 10%Z.
Proof.
  split; [exact played_reachable|].
  split; [apply (score_is_history_total played played_reachable)
         | reflexivity].
Defined.

Lemma current_result_heads_history_witness :
  reachable played
  /\ exists r, currentResult (state played) = Some r
               /\ hd_error (results (state played)) = Some r.
Proof.
  split; [exact played_reachable|].
  apply (current_result_heads_history played played_reachable).
  reflexivity.
Defined.

Lemma one_nextTossup_in_flight_witness :
  reachable waiting
  /\ inFlight waiting <= 1
  /\ nextTossup_condition (state waiting) = false.
Proof.
  split; [exact waiting_reachable|].
  destruct (one_nextTossup_in_flight waiting waiting_reachable)
    as (Hle & _ & Hc).
  split; [exact Hle | apply Hc; reflexivity].
Defined.

(** X4. A result submitted right after another one is ignored, whatever the
    state: no answer is counted twice. *)
Theorem submitAnswer_absorbs :
  forall (s : TossupReaderState) (r1 r2 : TossupResult),
    submitAnswer (submitAnswer s r1) r2 = submitAnswer s r1.
Proof.
  intros s r1 r2. unfold submitAnswer.
  destruct (status s) eqn:E; cbn; rewrite ?E; reflexivity.
Qed.

(** *** The queue filters *)

Lemma filter_comm :
  forall {A} (f g : A -> bool) l,
    filter f (filter g l) = filter g (filter f l).
Proof.
  intros A f g; induction l as [|x l IH]; [reflexivity|].
  cbn. destruct (g x) eqn:Eg, (f x) eqn:Ef; cbn;
    rewrite ?Eg, ?Ef, IH; reflexivity.
Qed.

Lemma filter_filter :
  forall {A} (f g : A -> bool) l,
    filter f (filter g l) = filter (fun x => g x && f x) l.
Proof.
  intros A f g; induction l as [|x l IH]; [reflexivity|].
  cbn. destruct (g x) eqn:Eg; cbn; [destruct (f x)|]; rewrite IH;
    reflexivity.
Qed.

Lemma existsb_inter :
  forall (a b : list nat) n,
    existsb (Nat.eqb n) a && existsb (Nat.eqb n) b
    = existsb (Nat.eqb n) (filter (fun c => existsb (Nat.eqb c) b) a).
Proof.
  intros a b n; induction a as [|x a IH]; [reflexivity|].
  cbn [existsb filter].
  destruct (existsb (Nat.eqb x) b) eqn:E; cbn [existsb]; rewrite <- IH;
    destruct (Nat.eqb_spec n x) as [Heq|Hne]; try reflexivity;
    subst x; rewrite E; cbn; rewrite ?andb_false_r; reflexivity.
Qed.

(** X5. The three filters commute with one another, and filtering twice by
    category is filtering once by the categories common to both payloads. *)
Theorem filters_commute :
  forall (s : TossupReaderState) (cs cs' : list Category)
         (scs : list Subcategory) (ds : list Difficulty),
    filterTossupsByCategory (filterTossupsBySubcategory s scs) cs
    = filterTossupsBySubcategory (filterTossupsByCategory s cs) scs
    /\ filterTossupsByCategory (filterTossupsByDifficulties s ds) cs
       = filterTossupsByDifficulties (filterTossupsByCategory s cs) ds
    /\ filterTossupsBySubcategory (filterTossupsByDifficulties s ds) scs
       = filterTossupsByDifficulties (filterTossupsBySubcategory s scs) ds
    /\ filterTossupsByCategory (filterTossupsByCategory s cs) cs'
       = filterTossupsByCategory
           s (filter (fun c => existsb (Nat.eqb c) cs') cs)
    /\ filterTossupsByCategory (filterTossupsByCategory s cs) cs
       = filterTossupsByCategory s cs.
Proof.
  intros s cs cs' scs ds.
  unfold filterTossupsByCategory, filterTossupsBySubcategory,
    filterTossupsByDifficulties, set_tossups; cbn.
  repeat split; f_equal; try apply filter_comm.
  - rewrite filter_filter. apply filter_ext. intros tu.
    apply existsb_inter.
  - rewrite filter_filter. apply filter_ext. intros tu.
    apply andb_diag.
Qed.

(** X6. A fetched batch goes to the end of the queue: a batch without
    tossups, which is what a failed request delivers, changes nothing, two
    batches in a row count as one, and filtering after a batch is the same
    as filtering the queue and the batch. *)
Theorem fetchTossups_fulfilled_batches :
  forall (s : TossupReaderState) (a b : list Tossup) (cs : list Category),
    fetchTossups_fulfilled s [] = s
    /\ fetchTossups_fulfilled (fetchTossups_fulfilled s a) b
       = fetchTossups_fulfilled s (a ++ b)
    /\ filterTossupsByCategory (fetchTossups_fulfilled s a) cs
       = fetchTossups_fulfilled
           (filterTossupsByCategory s cs)
           (filter (fun tu => existsb (Nat.eqb (category tu)) cs) a).
Proof.
  intros s a b cs.
  unfold fetchTossups_fulfilled, filterTossupsByCategory, set_tossups; cbn.
  repeat split.
  - rewrite app_nil_r. destruct s; reflexivity.
  - rewrite app_assoc. reflexivity.
  - rewrite filter_app. reflexivity.
Qed.

(** *** Stepping through the queue *)

Lemma nextTossup_fulfilled_cons :
  forall s t rest,
    tossups s = t :: rest ->
    status (nextTossup_fulfilled s) = reading
    /\ tossups (nextTossup_fulfilled s) = rest
    /\ currentTossup (nextTossup_fulfilled s) = hd_error rest.
Proof.
  intros s t rest E. unfold nextTossup_fulfilled. rewrite E. cbn.
  repeat split.
Qed.

Lemma nextTossup_fulfilled_nil :
  forall s,
    tossups s = [] ->
    status (nextTossup_fulfilled s) = empty
    /\ tossups (nextTossup_fulfilled s) = [].
Proof.
  intros s E. unfold nextTossup_fulfilled. rewrite E. cbn.
  split; [reflexivity | exact E].
Qed.

Lemma iter_fulfilled_queue :
  forall k s,
    tossups (Nat.iter k nextTossup_fulfilled s) = skipn k (tossups s).
Proof.
  induction k as [|k IH]; intros s; [reflexivity|].
  rewrite Nat.iter_succ.
  destruct (skipn k (tossups s)) as [|t rest] eqn:E.
  - destruct (nextTossup_fulfilled_nil (Nat.iter k nextTossup_fulfilled s))
      as [_ H]; [rewrite IH; exact E|].
    rewrite H. symmetry.
    replace (S k) with (1 + k) by lia. rewrite <- skipn_skipn, E.
    reflexivity.
  - destruct (nextTossup_fulfilled_cons
                (Nat.iter k nextTossup_fulfilled s) t rest)
      as (_ & H & _); [rewrite IH; exact E|].
    rewrite H. replace (S k) with (1 + k) by lia.
    rewrite <- skipn_skipn, E. reflexivity.
Qed.

(** X7. [k] fulfilled [nextTossup]s in a row, starting from a queue of [n]
    tossups: while [k <= n] the reader is [reading], the queue has lost its
    first [k] tossups and the tossup on display is the one that stood at
    index [k], so the tossup at index 0 is never displayed and for [k = n]
    nothing is; beyond [n] the reader is [empty]. *)
Theorem nextTossup_fulfilled_walk :
  forall (s : TossupReaderState) (k : nat),
    1 <= k ->
    let s' := Nat.iter k nextTossup_fulfilled s in
    (k <= length (tossups s) ->
       status s' = reading
       /\ tossups s' = skipn k (tossups s)
       /\ currentTossup s' = nth_error (tossups s) k)
    /\ (length (tossups s) < k ->
          status s' = empty /\ tossups s' = []).
Proof.
  intros s k Hk s'. subst s'.
  destruct k as [|k]; [lia|]. clear Hk. rewrite Nat.iter_succ.
  pose proof (iter_fulfilled_queue k s) as Hq.
  split; intros Hlen.
  - destruct (skipn k (tossups s)) as [|t rest] eqn:E.
    + apply (f_equal (@length _)) in E. rewrite length_skipn in E.
      cbn in E. lia.
    + destruct (nextTossup_fulfilled_cons
                  (Nat.iter k nextTossup_fulfilled s) t rest)
        as (H1 & H2 & H3); [rewrite Hq; reflexivity|].
      rewrite H1, H2, H3.
      assert (Hrest : rest = skipn (S k) (tossups s)).
      { replace (S k) with (1 + k) by lia. rewrite <- skipn_skipn, E.
        reflexivity. }
      repeat split; [exact Hrest|].
      rewrite Hrest. rewrite <- (firstn_skipn (S k) (tossups s)) at 2.
      rewrite nth_error_app2; rewrite length_firstn, Nat.min_l by lia;
        [|lia].
      rewrite Nat.sub_diag. destruct (skipn (S k) (tossups s)); reflexivity.
  - destruct (nextTossup_fulfilled_nil (Nat.iter k nextTossup_fulfilled s))
      as [H1 H2]; [|split; assumption].
    rewrite Hq. apply skipn_all2. lia.
Qed.

Lemma nextTossup_fulfilled_walk_witness :
  status (Nat.iter 2 nextTossup_fulfilled (state waiting)) = reading
  /\ tossups (Nat.iter 2 nextTossup_fulfilled (state waiting)) = []
  /\ currentTossup (Nat.iter 2 nextTossup_fulfilled (state waiting)) = None.
Proof.
  destruct (nextTossup_fulfilled_walk (state waiting) 2 ltac:(lia))
    as [Hin _].
  apply Hin. cbn. lia.
Defined.

End ReaderInvariants.

(** ** The judge in use *)

Module JudgeUse.
Import JsFacts Similarity Judging JudgingFacts JudgeSession.

Local Open Scope Q_scope.

(** Two texts that differ in whitespace only. *)
Definition same_letters (a b : jsstring) : Prop :=
  remove_spaces a = remove_spaces b.

Lemma compareTwoStrings_same_letters :
  forall u a, same_letters u a -> compareTwoStrings u a = 1.
Proof.
  intros u a H. unfold compareTwoStrings. rewrite H, str_eqb_refl.
  reflexivity.
Qed.

Lemma compareTwoStrings_main_spaces :
  forall u u' t,
    same_letters u u' -> compareTwoStrings u t = compareTwoStrings u' t.
Proof.
  intros u u' t H. unfold compareTwoStrings. rewrite H. reflexivity.
Qed.

Lemma min_rating_lt_1 : MIN_RATING < 1.
Proof. unfold MIN_RATING, Qlt; cbn; lia. Qed.

Lemma min_rating_pos : ~ MIN_RATING < 0.
Proof. unfold MIN_RATING, Qlt; cbn; lia. Qed.

Lemma passes_same_letters :
  forall u a l, In a l -> same_letters u a -> passes u l.
Proof.
  intros u a l Hin Hsame. unfold passes.
  destruct (checkAnswer_best u l) as (Hub & _ & _).
  apply Qlt_le_trans with 1; [apply min_rating_lt_1|].
  rewrite <- (compareTwoStrings_same_letters u a Hsame).
  apply Hub, Hin.
Qed.

(** A rating above the threshold against a text of fewer than two
    letters is the rating of the same text. *)
Lemma short_rating :
  forall u a,
    (length (remove_spaces u) < 2)%nat ->
    MIN_RATING < compareTwoStrings u a ->
    same_letters u a.
Proof.
  intros u a Hshort Hr. unfold compareTwoStrings in Hr.
  destruct (str_eqb (remove_spaces u) (remove_spaces a)) eqn:E.
  - apply str_eqb_eq in E. exact E.
  - destruct (Nat.ltb_spec (length (remove_spaces u)) 2) as [_|H]; [|lia].
    cbn [orb] in Hr. contradiction (min_rating_pos Hr).
Qed.

Lemma passes_inv :
  forall u l, passes u l ->
              exists a, In a l /\ MIN_RATING < compareTwoStrings u a.
Proof.
  intros u l Hp.
  destruct (prompt_removes_best u l Hp) as (n & p & Hn & _ & Hs & _).
  exists p. split; [eapply nth_error_In, Hn|].
  unfold passes in Hp. rewrite <- Hs. exact Hp.
Qed.

Lemma judge_correct_iff :
  forall J u, fst (judge J u) = correct <-> passes u (acceptableAnswers J).
Proof.
  intros J u. rewrite judge_eq.
  destruct (Qgtb (score u (acceptableAnswers J)) MIN_RATING) eqn:Ea.
  - apply Qgtb_true in Ea. cbn. split; [intros _; exact Ea | reflexivity].
  - apply Qgtb_false in Ea.
    destruct (Qgtb (score u (promptableAnswers J)) MIN_RATING); cbn;
      (split; [discriminate | intros H; unfold passes in H; q_contra]).
Qed.

Lemma judge_prompt_iff :
  forall J u,
    fst (judge J u) = prompt
    <-> ~ passes u (acceptableAnswers J) /\ passes u (promptableAnswers J).
Proof.
  intros J u. rewrite judge_eq. unfold passes.
  destruct (Qgtb (score u (acceptableAnswers J)) MIN_RATING) eqn:Ea;
    [apply Qgtb_true in Ea | apply Qgtb_false in Ea].
  - cbn. split; [discriminate | intros [H _]; contradiction].
  - destruct (Qgtb (score u (promptableAnswers J)) MIN_RATING) eqn:Ep;
      [apply Qgtb_true in Ep | apply Qgtb_false in Ep]; cbn.
    + split; [intros _; split; [intros H; q_contra | exact Ep]
             | reflexivity].
    + split; [discriminate | intros [_ H]; q_contra].
Qed.

Lemma judge_same_letters_correct :
  forall J u a,
    same_letters u a -> In a (acceptableAnswers J) ->
    judge J u = (correct, J).
Proof.
  intros J u a Hsame Hin.
  pose proof (passes_same_letters u a _ Hin Hsame) as Hp.
  rewrite judge_eq.
  apply Qgtb_true in Hp. unfold passes in Hp. rewrite Hp. reflexivity.
Qed.

(** X8. A submission that agrees with an acceptable answer up to whitespace
    is judged correct, and the judge stays as it is; one that agrees with a
    promptable answer is prompted unless the acceptable answers already let
    it pass. *)
Theorem judge_exact_match :
  forall (J : Judge) (userAnswer a : jsstring),
    same_letters userAnswer a ->
    (In a (acceptableAnswers J) -> judge J userAnswer = (correct, J))
    /\ (In a (promptableAnswers J) ->
        fst (judge J userAnswer) = correct
        \/ fst (judge J userAnswer) = prompt).
Proof.
  intros J u a Hsame. split; intros Hin.
  - apply (judge_same_letters_correct J u a Hsame Hin).
  - pose proof (passes_same_letters u a _ Hin Hsame) as Hp.
    rewrite judge_eq.
    destruct (Qgtb (score u (acceptableAnswers J)) MIN_RATING);
      [left; reflexivity | right].
    apply Qgtb_true in Hp. rewrite Hp. reflexivity.
Qed.

Definition city_judge : Judge :=
  {| acceptableAnswers := [str "new york"; str "a"];
     promptableAnswers := [str "york"] |}.

Lemma judge_exact_match_witness :
  judge city_judge (str "newyork") = (correct, city_judge).
Proof.
  apply (judge_exact_match city_judge (str "newyork") (str "new york")
                           eq_refl).
  left; reflexivity.
Defined.

(** X9. A judge without acceptable answers never answers [correct], and a
    judge without any answers answers [incorrect] to everything. *)
Theorem judge_without_answers :
  forall (J : Judge) (userAnswer : jsstring),
    acceptableAnswers J = [] ->
    fst (judge J userAnswer) <> correct
    /\ (promptableAnswers J = [] -> judge J userAnswer = (incorrect, J)).
Proof.
  intros J u Ha. split.
  - intros H. apply judge_correct_iff in H. rewrite Ha in H.
    unfold passes in H. rewrite score_empty in H.
    contradiction (min_rating_pos H).
  - intros Hp. unfold judge. rewrite Ha, Hp. reflexivity.
Qed.

Lemma judge_without_answers_witness :
  judge {| acceptableAnswers := []; promptableAnswers := [] |}
        (str "anything")
  = (incorrect, {| acceptableAnswers := []; promptableAnswers := [] |}).
Proof.
  apply (judge_without_answers
           {| acceptableAnswers := []; promptableAnswers := [] |}
           (str "anything") eq_refl).
  reflexivity.
Defined.

(** X10. A submission of fewer than two letters gets no credit for likeness:
    it is correct exactly when it agrees with an acceptable answer up to
    whitespace, and it is prompted exactly when it agrees with no acceptable
    but with a promptable answer. *)
Theorem judge_short_submission :
  forall (J : Judge) (userAnswer : jsstring),
    (length (remove_spaces userAnswer) < 2)%nat ->
    (fst (judge J userAnswer) = correct
     <-> exists a, In a (acceptableAnswers J) /\ same_letters userAnswer a)
    /\ (fst (judge J userAnswer) = prompt
        <-> (forall a, In a (acceptableAnswers J) ->
                       ~ same_letters userAnswer a)
            /\ exists p, In p (promptableAnswers J)
                         /\ same_letters userAnswer p).
Proof.
  intros J u Hshort.
  assert (Hiff : forall l,
             passes u l <-> exists a, In a l /\ same_letters u a).
  { intros l. split.
    - intros Hp. destruct (passes_inv u l Hp) as (a & Hin & Hr).
      exists a. split; [exact Hin | apply short_rating; assumption].
    - intros (a & Hin & Hs). eapply passes_same_letters; eassumption. }
  split.
  - rewrite judge_correct_iff. apply Hiff.
  - rewrite judge_prompt_iff, !Hiff. split.
    + intros [Hn Hp]. split; [|exact Hp].
      intros a Hin Hs. apply Hn. exists a. split; assumption.
    + intros [Hn Hp]. split; [|exact Hp].
      intros (a & Hin & Hs). exact (Hn a Hin Hs).
Qed.

Lemma judge_short_submission_witness :
  fst (judge city_judge (str " a ")) = correct.
Proof.
  destruct (judge_short_submission city_judge (str " a ")) as [Hc _].
  - apply Nat.ltb_lt. reflexivity.
  - apply Hc. exists (str "a").
    split; [right; left; reflexivity | reflexivity].
Defined.

Lemma findBestMatch_step_main_spaces :
  forall u u' st t,
    same_letters u u' ->
    findBestMatch_step u st t = findBestMatch_step u' st t.
Proof.
  intros u u' [rs best] t H. unfold findBestMatch_step.
  rewrite (compareTwoStrings_main_spaces u u' t H). reflexivity.
Qed.

Lemma fold_left_ext_all :
  forall {A B} (f g : A -> B -> A) l a,
    (forall a b, f a b = g a b) -> fold_left f l a = fold_left g l a.
Proof.
  intros A B f g; induction l as [|x l IH]; intros a H; [reflexivity|].
  cbn. rewrite H. apply IH, H.
Qed.

Lemma checkAnswer_main_spaces :
  forall u u' l, same_letters u u' -> checkAnswer u l = checkAnswer u' l.
Proof.
  intros u u' l H. unfold checkAnswer, findBestMatch.
  destruct l as [|t l]; [reflexivity|].
  rewrite (fold_left_ext_all (findBestMatch_step u) (findBestMatch_step u'));
    [reflexivity|].
  intros st x. apply findBestMatch_step_main_spaces, H.
Qed.

(** X11. Whitespace in the submission never matters: two submissions with
    the same letters get the same verdict and leave the same judge behind.
    *)
Theorem judge_ignores_whitespace :
  forall (J : Judge) (u u' : jsstring),
    same_letters u u' -> judge J u = judge J u'.
Proof.
  intros J u u' H. unfold judge.
  rewrite !(checkAnswer_main_spaces u u' _ H). reflexivity.
Qed.

Lemma judge_ignores_whitespace_witness :
  judge city_judge (str "y o r k") = judge city_judge (str "york").
Proof.
  apply (judge_ignores_whitespace city_judge (str "y o r k") (str "york")).
  reflexivity.
Defined.

(** *** Any number of submissions *)

Definition prompts (verdicts : list JudgeResult) : nat :=
  length (filter (fun v => match v with prompt => true | _ => false end)
                 verdicts).

Lemma judge_budget :
  forall J u,
    acceptableAnswers (snd (judge J u)) = acceptableAnswers J
    /\ (prompts [fst (judge J u)]
        + length (promptableAnswers (snd (judge J u)))
        = length (promptableAnswers J))%nat.
Proof.
  intros J u. rewrite judge_eq.
  destruct (Qgtb (score u (acceptableAnswers J)) MIN_RATING);
    [split; reflexivity|].
  destruct (Qgtb (score u (promptableAnswers J)) MIN_RATING) eqn:Ep;
    [|split; reflexivity].
  apply Qgtb_true in Ep.
  destruct (prompt_removes_best u _ Ep) as (n & p & Hp & Hsp & _).
  cbn [fst snd acceptableAnswers promptableAnswers]. rewrite Hsp.
  split; [reflexivity|].
  assert (n < length (promptableAnswers J))%nat
    by (apply nth_error_Some; rewrite Hp; discriminate).
  rewrite length_app, length_firstn, length_skipn. cbn. lia.
Qed.

(** X12. However many submissions a judge sees, it never changes its
    acceptable answers and every [prompt] it gives uses up one promptable
    answer: the prompts given and the promptable answers left add up to the
    promptable answers it started with. *)
Theorem judgeAll_prompt_budget :
  forall (userAnswers : list jsstring) (J : Judge),
    acceptableAnswers (snd (judgeAll J userAnswers)) = acceptableAnswers J
    /\ length (fst (judgeAll J userAnswers)) = length userAnswers
    /\ (prompts (fst (judgeAll J userAnswers))
        + length (promptableAnswers (snd (judgeAll J userAnswers)))
        = length (promptableAnswers J))%nat.
Proof.
  induction userAnswers as [|u us IH]; intros J.
  - cbn. repeat split.
  - cbn [judgeAll].
    destruct (judge_budget J u) as [Ha Hb].
    destruct (judge J u) as [v J1]. cbn [fst snd] in Ha, Hb.
    destruct (IH J1) as (IHa & IHl & IHb).
    destruct (judgeAll J1 us) as [vs J2]. cbn [fst snd] in *.
    split; [congruence|]. split; [cbn [length]; lia|].
    rewrite <- Hb, <- IHb. unfold prompts. cbn [filter].
    destruct v; cbn [length]; lia.
Qed.

End JudgeUse.

(** ** Bonus scores beyond three parts *)

Module BonusFacts.
Import Scoring ScoringFacts.

Lemma correctParts_perm :
  forall a b, Permutation a b -> correctParts a = correctParts b.
Proof.
  intros a b H. unfold correctParts.
  induction H as [| x a b _ IH | x y a | a b c _ IH1 _ IH2]; cbn.
  - reflexivity.
  - destruct (isCorrect x); cbn; rewrite IH; reflexivity.
  - destruct (isCorrect x), (isCorrect y); reflexivity.
  - congruence.
Qed.

(** X13. [getBonusScore] gives [zero] exactly when no part is correct or
    more than three are: a fourth correct part takes the thirty points away.
    The order of the parts does not matter. *)
Theorem getBonusScore_zero_iff :
  forall results : list BonusPartResult,
    (getBonusScore results = zero
     <-> correctParts results = 0 \/ 3 < correctParts results)
    /\ (forall results', Permutation results results' ->
                         getBonusScore results' = getBonusScore results).
Proof.
  intros results. split.
  - unfold getBonusScore. rewrite correctCount_correctParts.
    set (n := correctParts results).
    destruct (Z.eqb_spec (Z.of_nat n) 3); [split; [discriminate | lia]|].
    destruct (Z.eqb_spec (Z.of_nat n) 2); [split; [discriminate | lia]|].
    destruct (Z.eqb_spec (Z.of_nat n) 1); [split; [discriminate | lia]|].
    split; [intros _; lia | reflexivity].
  - intros results' Hp. unfold getBonusScore.
    rewrite !correctCount_correctParts, (correctParts_perm _ _ Hp).
    reflexivity.
Qed.

End BonusFacts.

(** ** The power index and the rendered question *)

Module DisplayFacts.
Import JsFacts Strings Display.

Lemma findIndex_from_spec :
  forall {A} (p : A -> bool) l i,
    (findIndex_from p i l = (-1)%Z /\ forallb (fun x => negb (p x)) l = true
     /\ (0 <= i -> findIndex_from p i l < i)%Z)
    \/ (exists n x,
           findIndex_from p i l = (i + Z.of_nat n)%Z
           /\ nth_error l n = Some x /\ p x = true
           /\ forallb (fun y => negb (p y)) (firstn n l) = true).
Proof.
  intros A p; induction l as [|x l IH]; intros i.
  - left. cbn. repeat split. lia.
  - cbn [findIndex_from]. destruct (p x) eqn:E.
    + right. exists 0, x. cbn. repeat split; try assumption. lia.
    + destruct (IH (i + 1)%Z) as [(H1 & H2 & H3) | (n & y & H1 & H2 & H3 & H4)].
      * left. cbn. rewrite E, H1, H2. repeat split. lia.
      * right. exists (S n), y. cbn. rewrite E, H1, H4.
        repeat split; try assumption. lia.
Qed.

(** X14. [getPowerIndex] is -1 exactly when no word is the power marker;
    otherwise it is the position of the first word that is the marker. *)
Theorem getPowerIndex_first_marker :
  forall tossupWords : list TossupWord,
    (getPowerIndex tossupWords = (-1)%Z
     <-> forall w, In w tossupWords -> word w <> POWER_MARKER)
    /\ (getPowerIndex tossupWords <> (-1)%Z ->
        exists n w,
          getPowerIndex tossupWords = Z.of_nat n
          /\ nth_error tossupWords n = Some w
          /\ word w = POWER_MARKER
          /\ forall m w', m < n -> nth_error tossupWords m = Some w' ->
                          word w' <> POWER_MARKER).
Proof.
  intros ws. unfold getPowerIndex, findIndex.
  set (p := fun w => str_eqb (word w) POWER_MARKER).
  destruct (findIndex_from_spec p ws 0%Z)
    as [(H1 & H2 & _) | (n & x & H1 & H2 & H3 & H4)].
  - rewrite H1. split; [|intros H; contradiction H; reflexivity].
    split; [|reflexivity]. intros _ w Hw Hm.
    rewrite forallb_forall in H2. specialize (H2 w Hw).
    unfold p in H2. rewrite Hm, str_eqb_refl in H2. discriminate.
  - rewrite H1. split.
    + split; [lia|]. intros Hall. exfalso.
      apply (Hall x); [eapply nth_error_In, H2|].
      apply str_eqb_eq, H3.
    + intros _. exists n, x.
      split; [lia|]. split; [exact H2|]. split; [apply str_eqb_eq, H3|].
      intros m w' Hm Hw' Hmark.
      rewrite forallb_forall in H4.
      assert (Hin : In w' (firstn n ws)).
      { apply (nth_error_In _ m). rewrite nth_error_firstn.
        destruct (Nat.ltb_spec m n); [exact Hw' | lia]. }
      specialize (H4 w' Hin). unfold p in H4.
      rewrite Hmark, str_eqb_refl in H4. discriminate.
Qed.

(** What [renderQuestion] draws at position [k]. *)
Lemma renderWords_nth :
  forall words visible buzz i k w,
    nth_error words k = Some w ->
    nth_error (renderWords visible buzz i words) k
    = Some {| shown := word w;
              hasRef := (i + Z.of_nat k =? visible)%Z;
              isVisible := (i + Z.of_nat k <=? visible)%Z;
              isBold := bold w;
              hasBell := (i + Z.of_nat k =? buzz)%Z |}.
Proof.
  induction words as [|x words IH]; intros visible buzz i k w H.
  - destruct k; discriminate.
  - destruct k as [|k].
    + injection H as <-. cbn. rewrite Z.add_0_r. reflexivity.
    + cbn [nth_error renderWords]. rewrite (IH _ _ _ _ _ H).
      replace (i + 1 + Z.of_nat k)%Z with (i + Z.of_nat (S k))%Z by lia.
      reflexivity.
Qed.

Lemma renderWords_length :
  forall words visible buzz i,
    length (renderWords visible buzz i words) = length words.
Proof.
  induction words as [|x words IH]; intros; cbn; [|rewrite IH]; reflexivity.
Qed.

Lemma renderWords_no_bell :
  forall words visible buzz i,
    (buzz < i)%Z ->
    filter hasBell (renderWords visible buzz i words) = [].
Proof.
  induction words as [|x words IH]; intros visible buzz i H; [reflexivity|].
  cbn. destruct (Z.eqb_spec i buzz); [lia|]. apply IH. lia.
Qed.

Lemma renderWords_bells :
  forall words visible buzz i,
    length (filter hasBell (renderWords visible buzz i words)) <= 1.
Proof.
  induction words as [|x words IH]; intros visible buzz i; [cbn; lia|].
  cbn. destruct (Z.eqb_spec i buzz).
  - cbn. rewrite renderWords_no_bell by lia. cbn; lia.
  - apply IH.
Qed.

Lemma renderWords_all_visible :
  forall words visible buzz i r,
    (i + Z.of_nat (length words) <= visible)%Z ->
    (buzz < i)%Z ->
    In r (renderWords visible buzz i words) ->
    isVisible r = true /\ hasBell r = false.
Proof.
  induction words as [|x words IH]; intros visible buzz i r Hv Hb Hin;
    [destruct Hin|].
  cbn [length] in Hv. destruct Hin as [<- | Hin].
  - cbn. split; [apply Z.leb_le; lia | apply Z.eqb_neq; lia].
  - apply (IH visible buzz (i + 1)%Z); [lia | lia | exact Hin].
Qed.

(** X15. [renderQuestion] draws one element for every word, in order; the
    word at position [k] is visible exactly when [k] is at most [visible],
    and the bell follows it exactly when [k] is [buzz], so at most one bell
    is drawn. Without indices every word is visible and there is no bell. *)
Theorem renderQuestion_layout :
  forall (words : list TossupWord) (indices : option Indices),
    let v := match indices with
             | Some {| visible := Some v |} => v
             | _ => Z.of_nat (length words)
             end in
    let b := match indices with
             | Some {| buzz := Some b |} => b
             | _ => (-1)%Z
             end in
    length (renderQuestion words indices) = length words
    /\ (forall k w,
           nth_error words k = Some w ->
           exists r,
             nth_error (renderQuestion words indices) k = Some r
             /\ shown r = word w /\ isBold r = bold w
             /\ isVisible r = (Z.of_nat k <=? v)%Z
             /\ hasBell r = (Z.of_nat k =? b)%Z)
    /\ length (filter hasBell (renderQuestion words indices)) <= 1
    /\ (indices = None ->
        forall r, In r (renderQuestion words indices) ->
                  isVisible r = true /\ hasBell r = false).
Proof.
  intros words indices v b.
  assert (E : renderQuestion words indices = renderWords v b 0 words).
  { unfold renderQuestion, v, b.
    destruct indices as [[[vi|] [bi|]]|]; reflexivity. }
  rewrite E. split; [apply renderWords_length|].
  split; [|split; [apply renderWords_bells|]].
  - intros k w H. eexists. split; [apply renderWords_nth, H|].
    cbn. repeat split.
  - intros -> r Hin. cbn in v, b. subst v b.
    apply (renderWords_all_visible
             words (Z.of_nat (length words)) (-1)%Z 0%Z r);
      [lia | lia | exact Hin].
Qed.

End DisplayFacts.

(** ** The text read so far *)

Module QuestionFacts.
Import JsFacts Strings Question.

Lemma getWords_from_original :
  forall getRand ws k, map original (getWords_from getRand k ws) = ws.
Proof.
  intros getRand; induction ws as [|w ws IH]; intros k; [reflexivity|].
  cbn. rewrite IH. reflexivity.
Qed.

Lemma join_firstn :
  forall sep ws n,
  exists rest, join sep ws = join sep (firstn n ws) ++ rest.
Proof.
  intros sep; induction ws as [|w ws IH]; intros n.
  - exists []. destruct n; reflexivity.
  - destruct n as [|n]; [eexists; reflexivity|].
    cbn [firstn]. destruct ws as [|w2 ws].
    + exists []. destruct n; cbn; rewrite app_nil_r; reflexivity.
    + destruct n as [|n].
      * cbn. eexists. reflexivity.
      * destruct (IH (S n)) as (rest & Hr).
        exists rest.
        change (join sep (w :: w2 :: ws))
          with (w ++ sep ++ join sep (w2 :: ws)).
        change (join sep (w :: firstn (S n) (w2 :: ws)))
          with (w ++ sep ++ join sep (firstn (S n) (w2 :: ws))).
        rewrite Hr, <- !app_assoc. reflexivity.
Qed.

(** X16. The words [getWords] returns are the pieces of the text between its
    blanks, and joining them gives the text back. So the text reported as
    read while the word at [visibleIndex] is shown is always the text up to
    some point, and the whole text once the last word is shown. *)
Theorem readText_is_prefix :
  forall (getRand : nat -> nat -> Z) (text : jsstring) (visibleIndex : nat),
    let words := getWords getRand text in
    map original words = split_on " "%char text
    /\ join (str " ") (map original words) = text
    /\ prefixb (readText words visibleIndex) text = true
    /\ (length words <= visibleIndex + 1 ->
        readText words visibleIndex = text).
Proof.
  intros getRand text i words.
  assert (Ho : map original words = split_on " "%char text)
    by apply getWords_from_original.
  assert (Hj : join (str " ") (map original words) = text)
    by (rewrite Ho; apply (join_split_on " "%char)).
  split; [exact Ho|]. split; [exact Hj|].
  unfold readText. rewrite <- firstn_map. split.
  - destruct (join_firstn (str " ") (map original words) (i + 1))
      as (rest & Hr).
    apply prefixb_spec. exists rest. rewrite <- Hr. symmetry; exact Hj.
  - intros Hlen. rewrite firstn_all2; [exact Hj|].
    rewrite length_map. exact Hlen.
Qed.

End QuestionFacts.

(** ** Shuffling a word *)

Module ShuffleFacts.
Import Judging Strings.

(** What [splice(start, 1)] does to an array: it takes one element out,
    or, with a start at or past the end, none. *)
Lemma splice_cases :
  forall {A} (arr : list A) (start : Z),
    (exists x, spliced arr start = Some x
               /\ Permutation (x :: splice1 arr start) arr
               /\ S (length (splice1 arr start)) = length arr)
    \/ (spliced arr start = None
        /\ splice1 arr start = arr
        /\ (arr = [] \/ (Z.of_nat (length arr) <= start)%Z)).
Proof.
  intros A arr start. unfold spliced, splice1.
  set (from := Z.to_nat
                 (if (start <? 0)%Z
                  then Z.max (Z.of_nat (length arr) + start) 0
                  else Z.min start (Z.of_nat (length arr)))).
  destruct (nth_error arr from) as [x|] eqn:E.
  - left. exists x. split; [reflexivity|].
    assert (Hlt : from < length arr)
      by (apply nth_error_Some; rewrite E; discriminate).
    apply nth_error_split in E as (l1 & l2 & Harr & Hlen).
    assert (H1 : firstn from arr = l1).
    { rewrite Harr, <- Hlen, firstn_app, Nat.sub_diag, firstn_all.
      cbn. apply app_nil_r. }
    assert (H2 : skipn (S from) arr = l2).
    { rewrite Harr, <- Hlen.
      replace (l1 ++ x :: l2) with ((l1 ++ [x]) ++ l2)
        by (rewrite <- app_assoc; reflexivity).
      rewrite skipn_app, skipn_all2 by (rewrite length_app; cbn; lia).
      rewrite length_app. cbn [length app].
      replace (S (length l1) - (length l1 + 1)) with 0 by lia.
      reflexivity. }
    rewrite H1, H2. split.
    + rewrite Harr. apply Permutation_middle.
    + rewrite Harr, !length_app. cbn. lia.
  - right. split; [reflexivity|].
    apply nth_error_None in E.
    split.
    + rewrite firstn_all2 by exact E.
      rewrite skipn_all2 by lia. apply app_nil_r.
    + destruct arr as [|a arr]; [left; reflexivity | right].
      subst from. cbn [length] in *.
      destruct (start <? 0)%Z eqn:Es;
        [apply Z.ltb_lt in Es | apply Z.ltb_ge in Es]; lia.
Qed.

Lemma join_chars_app :
  forall a b, join_chars (a ++ b) = join_chars a ++ join_chars b.
Proof. intros; unfold join_chars; apply flat_map_app. Qed.

(** The loop never makes a code unit up and never uses one twice. *)
Lemma shuffle_loop_sub :
  forall getRand turns call chars shuffled,
  exists unused,
    Permutation
      (join_chars (shuffle_loop getRand call turns chars shuffled) ++ unused)
      (join_chars shuffled ++ chars).
Proof.
  intros getRand; induction turns as [|turns IH]; intros call chars shuffled.
  - exists chars. reflexivity.
  - cbn [shuffle_loop].
    destruct (IH (S call) (splice1 chars (getRand call))
                 (shuffled ++ [spliced chars (getRand call)]))
      as (unused & Hperm).
    exists unused. rewrite Hperm, join_chars_app, <- app_assoc.
    apply Permutation_app_head.
    destruct (splice_cases chars (getRand call))
      as [(x & -> & Hp & _) | (-> & -> & _)]; cbn.
    + exact Hp.
    + reflexivity.
Qed.

(** With every draw below the number of code units still to place, the
    loop uses all of them. *)
Lemma shuffle_loop_all :
  forall (getRand : nat -> Z) turns call chars shuffled,
    length chars = turns ->
    (forall j, j < turns ->
               (getRand (call + j)%nat < Z.of_nat (turns - j))%Z) ->
    Permutation
      (join_chars (shuffle_loop getRand call turns chars shuffled))
      (join_chars shuffled ++ chars).
Proof.
  intros getRand; induction turns as [|turns IH];
    intros call chars shuffled Hlen Hdraw.
  - destruct chars; [|discriminate]. cbn. rewrite app_nil_r. reflexivity.
  - cbn [shuffle_loop].
    pose proof (Hdraw 0 ltac:(lia)) as H0.
    rewrite Nat.add_0_r, Nat.sub_0_r in H0.
    destruct (splice_cases chars (getRand call))
      as [(x & Hx & Hp & Hl) | (_ & _ & [Hnil | Hge])];
      [| subst chars; discriminate | lia].
    rewrite IH.
    + rewrite Hx, join_chars_app, <- app_assoc.
      apply Permutation_app_head. exact Hp.
    + lia.
    + intros j Hj. specialize (Hdraw (S j) ltac:(lia)).
      replace (S call + j) with (call + S j) by lia. exact Hdraw.
Qed.

(** X17. [shuffleString] never makes a code unit up and never uses one
    twice, whatever [getRand] returns: what it gives back, together with
    some code units left over, is a rearrangement of the input, and it is
    never longer than the input. *)
Theorem shuffleString_no_invention :
  forall (getRand : nat -> Z) (s : jsstring),
    (exists unused, Permutation (shuffleString getRand s ++ unused) s)
    /\ length (shuffleString getRand s) <= length s.
Proof.
  intros getRand s.
  destruct (shuffle_loop_sub getRand (length s) 0 s []) as (unused & H).
  cbn [join_chars flat_map app] in H. fold (shuffleString getRand s) in H.
  split; [exists unused; exact H|].
  apply Permutation_length in H. rewrite length_app in H. lia.
Qed.

(** X18. When every call of [getRand] returns a number below the number of
    code units not yet placed (a negative number counts from the end),
    [shuffleString] returns a rearrangement of its input. *)
Theorem shuffleString_permutation :
  forall (getRand : nat -> Z) (s : jsstring),
    (forall i, i < length s ->
               (getRand i < Z.of_nat (length s - i))%Z) ->
    Permutation (shuffleString getRand s) s.
Proof.
  intros getRand s H. unfold shuffleString.
  rewrite shuffle_loop_all; [reflexivity | reflexivity | exact H].
Qed.

(** Three draws in range for a word of three code units. *)
Definition draws_201 (i : nat) : Z :=
  match i with 0 => 2%Z | _ => 0%Z end.

Lemma shuffleString_permutation_witness :
  shuffleString draws_201 (str "cat") = str "tca"
  /\ Permutation (shuffleString draws_201 (str "cat")) (str "cat").
Proof.
  split; [reflexivity|].
  apply shuffleString_permutation.
  intros [|[|[|i]]] Hi; cbn in *; lia.
Defined.

End ShuffleFacts.

(** ** Squeezing whitespace and spacing the power marker *)

Module SpacingFacts.
Import JsFacts TextFacts Parser ParserFacts Strings.

(** *** [removeExtraSpaces] as one pass over the text *)

Definition begins_with_space (s : jsstring) : bool :=
  match s with
  | [] => false
  | c :: _ => is_space c
  end.

(** The pass: [in_run] tells that the code units before the current one
    were a run of whitespace that has been replaced. *)
Fixpoint squeeze (in_run : bool) (s : jsstring) : jsstring :=
  match s with
  | [] => []
  | c :: s' =>
      if is_space c then
        if in_run then squeeze true s'
        else if begins_with_space s' then " "%char :: squeeze true s'
             else c :: squeeze false s'
      else c :: squeeze false s'
  end.

Lemma extraSpaces_cons :
  forall c d s,
    extraSpaces (c :: d :: s)
    = if is_space c && is_space d
      then Some (S (spaces_run (d :: s)), [])
      else None.
Proof. reflexivity. Qed.

Lemma replaceAll_extraSpaces :
  forall s,
    replaceAll_from extraSpaces (str " ") (spaces_run s) s = squeeze true s
    /\ replaceAll_from extraSpaces (str " ") 0 s = squeeze false s.
Proof.
  induction s as [|c s [IH1 IH2]]; [split; reflexivity|].
  assert (H2 : replaceAll_from extraSpaces (str " ") 0 (c :: s)
               = squeeze false (c :: s)).
  { cbn [replaceAll_from squeeze].
    destruct s as [|d s'].
    - cbn. destruct (is_space c); reflexivity.
    - rewrite extraSpaces_cons. cbn [begins_with_space].
      destruct (is_space c); cbn [andb]; [|rewrite IH2; reflexivity].
      destruct (is_space d) eqn:Ed; [|rewrite IH2; reflexivity].
      cbn [Nat.sub]. rewrite Nat.sub_0_r, IH1. reflexivity. }
  split; [|exact H2].
  cbn [spaces_run]. destruct (is_space c) eqn:Ec.
  - cbn [replaceAll_from squeeze]. rewrite Ec. exact IH1.
  - rewrite H2. cbn [squeeze]. rewrite Ec. reflexivity.
Qed.

Lemma removeExtraSpaces_squeeze :
  forall s, removeExtraSpaces s = squeeze false s.
Proof. intros s. apply replaceAll_extraSpaces. Qed.

(** No two whitespace code units side by side. *)
Fixpoint single_spaced (s : jsstring) : bool :=
  match s with
  | [] => true
  | c :: s' => negb (is_space c && begins_with_space s') && single_spaced s'
  end.

Lemma squeeze_true_begin :
  forall s, begins_with_space (squeeze true s) = false.
Proof.
  induction s as [|c s IH]; [reflexivity|].
  cbn. destruct (is_space c) eqn:E; [exact IH | cbn; exact E].
Qed.

Lemma squeeze_false_begin :
  forall s, begins_with_space (squeeze false s) = begins_with_space s.
Proof.
  intros [|c s]; [reflexivity|]. cbn.
  destruct (is_space c) eqn:E; [|cbn; exact E].
  destruct (begins_with_space s); cbn; [reflexivity | exact E].
Qed.

Lemma squeeze_single_spaced :
  forall s b, single_spaced (squeeze b s) = true.
Proof.
  induction s as [|c s IH]; intros b; [reflexivity|].
  cbn [squeeze]. destruct (is_space c) eqn:E.
  - destruct b; [apply IH|].
    destruct (begins_with_space s) eqn:Es; cbn [single_spaced].
    + rewrite squeeze_true_begin, andb_false_r, IH. reflexivity.
    + rewrite squeeze_false_begin, Es, andb_false_r, IH. reflexivity.
  - cbn [single_spaced]. rewrite E, IH. reflexivity.
Qed.

Lemma squeeze_fixed :
  forall s, single_spaced s = true -> squeeze false s = s.
Proof.
  induction s as [|c s IH]; intros H; [reflexivity|].
  cbn in H |- *. apply andb_true_iff in H as [Hc Hs].
  rewrite (IH Hs).
  destruct (is_space c); [|reflexivity].
  destruct (begins_with_space s); [discriminate | reflexivity].
Qed.

Lemma squeeze_letters :
  forall s b, remove_spaces (squeeze b s) = remove_spaces s.
Proof.
  unfold remove_spaces.
  induction s as [|c s IH]; intros b; [reflexivity|].
  cbn [squeeze filter]. destruct (is_space c) eqn:E; cbn [negb].
  - destruct b; [apply IH|].
    destruct (begins_with_space s); cbn [filter].
    + replace (is_space " "%char) with true by reflexivity. apply IH.
    + rewrite E. apply IH.
  - cbn [filter]. rewrite E. cbn [negb]. rewrite IH. reflexivity.
Qed.

(** X19. [removeExtraSpaces] leaves no two whitespace code units side by
    side and keeps the other code units as they are and in their order. It
    returns its input unchanged exactly when no two whitespace code units
    stand side by side there, a single tab or line break staying what it is;
    so a second pass changes nothing. *)
Theorem removeExtraSpaces_squeezes :
  forall s : jsstring,
    single_spaced (removeExtraSpaces s) = true
    /\ remove_spaces (removeExtraSpaces s) = remove_spaces s
    /\ (removeExtraSpaces s = s <-> single_spaced s = true)
    /\ removeExtraSpaces (removeExtraSpaces s) = removeExtraSpaces s.
Proof.
  intros s. rewrite !removeExtraSpaces_squeeze.
  split; [apply squeeze_single_spaced|].
  split; [apply squeeze_letters|].
  split; [|apply squeeze_fixed, squeeze_single_spaced].
  split.
  - intros H. rewrite <- H. apply squeeze_single_spaced.
  - apply squeeze_fixed.
Qed.

(** *** [replaceAll] where the expression never matches *)

Lemma replaceAll_from_through :
  forall r rep a b,
    never_at r a b ->
    replaceAll_from r rep 0 (a ++ b) = a ++ replaceAll_from r rep 0 b.
Proof.
  intros r rep; induction a as [|c a IH]; intros b H; [reflexivity|].
  cbn [app replaceAll_from]. rewrite (never_at_head _ _ _ _ H).
  rewrite IH by (eapply never_at_tail, H). reflexivity.
Qed.

Lemma replaceAll_none :
  forall r rep s, never_at r s [] -> replaceAll s r rep = s.
Proof.
  intros r rep s H. unfold replaceAll.
  rewrite <- (app_nil_r s) at 1. rewrite replaceAll_from_through by exact H.
  cbn. apply app_nil_r.
Qed.

Lemma replaceAll_from_skip :
  forall r rep a b,
    replaceAll_from r rep (length a) (a ++ b) = replaceAll_from r rep 0 b.
Proof.
  intros r rep; induction a as [|c a IH]; intros b; [reflexivity|].
  cbn [app length replaceAll_from]. apply IH.
Qed.

Lemma powerMarker_never :
  forall s, includes s POWER_MARKER = false -> never_at powerMarker s [].
Proof.
  intros s H a1 a2 E _. rewrite app_nil_r. unfold powerMarker.
  rewrite includes_false_prefixb; [reflexivity|].
  apply (includes_false_suffix a1). rewrite <- E. exact H.
Qed.

Lemma closingStrongMarker_never :
  forall s,
    includes s POWER_MARKER = false -> never_at closingStrongMarker s [].
Proof.
  intros s H a1 a2 E _. rewrite app_nil_r. unfold closingStrongMarker.
  cbv zeta.
  destruct (prefixb (str "</strong>") a2); [|reflexivity].
  destruct (prefixb POWER_MARKER
                    (skipn (spaces_run (skipn 9 a2)) (skipn 9 a2)))
    eqn:Em; [|reflexivity].
  exfalso. rewrite skipn_skipn in Em. apply includes_skipn in Em.
  rewrite E in H. apply (includes_false_suffix a1) in H. congruence.
Qed.

(** X20. In a text without the power marker [cleanTossupText] only squeezes
    the whitespace. *)
Theorem cleanTossupText_without_marker :
  forall text : jsstring,
    includes text POWER_MARKER = false ->
    cleanTossupText text = removeExtraSpaces text.
Proof.
  intros text H. unfold cleanTossupText.
  rewrite (replaceAll_none closingStrongMarker) by
    (apply closingStrongMarker_never, H).
  rewrite (replaceAll_none powerMarker) by (apply powerMarker_never, H).
  reflexivity.
Qed.

Lemma cleanTossupText_without_marker_witness :
  cleanTossupText (str "For  ten   points, name it") =
  str "For ten points, name it".
Proof.
  rewrite (cleanTossupText_without_marker
             (str "For  ten   points, name it") eq_refl).
  reflexivity.
Defined.

End SpacingFacts.

(** ** The power marker after [cleanTossupText] *)

Module MarkerFacts.
Import JsFacts TextFacts Parser ParserFacts Strings SpacingFacts.

(** Every power marker in [s] has a blank on either side; [after_blank]
    tells whether a blank stands in front of [s]. *)
Fixpoint markers_apart (after_blank : bool) (s : jsstring) : bool :=
  match s with
  | [] => true
  | c :: s' =>
      (if prefixb POWER_MARKER s
       then after_blank && prefixb (str " ") (skipn 3 s)
       else true)
      && markers_apart (char_eqb c " "%char) s'
  end.

Definition spaced_marker : jsstring := str " (*) ".

(** *** The second replacement puts blanks around every marker *)

Lemma powerMarker_cases :
  forall s,
    (exists r, s = POWER_MARKER ++ r /\ powerMarker s = Some (3, []))
    \/ (powerMarker s = None /\ prefixb POWER_MARKER s = false).
Proof.
  intros s. unfold powerMarker.
  destruct (prefixb POWER_MARKER s) eqn:E; [left | right; split; reflexivity].
  apply prefixb_spec in E as (r & ->). exists r. split; reflexivity.
Qed.

Lemma spacing_match :
  forall r,
    replaceAll_from powerMarker spaced_marker 0 (POWER_MARKER ++ r)
    = spaced_marker ++ replaceAll_from powerMarker spaced_marker 0 r.
Proof. intros r. reflexivity. Qed.

Lemma spacing_no_match :
  forall c s,
    powerMarker (c :: s) = None ->
    replaceAll_from powerMarker spaced_marker 0 (c :: s)
    = c :: replaceAll_from powerMarker spaced_marker 0 s.
Proof. intros c s H. cbn [replaceAll_from]. rewrite H. reflexivity. Qed.

(** The first code unit of the result: a blank put in, or the first code
    unit of the input, kept. *)
Lemma spacing_first :
  forall s c t,
    replaceAll_from powerMarker spaced_marker 0 s = c :: t ->
    c = " "%char
    \/ exists s', s = c :: s'
                  /\ t = replaceAll_from powerMarker spaced_marker 0 s'.
Proof.
  intros s c t H.
  destruct (powerMarker_cases s) as [(r & -> & _) | [Hn _]].
  - rewrite spacing_match in H. injection H as <- _. left; reflexivity.
  - destruct s as [|x s']; [discriminate|].
    rewrite (spacing_no_match _ _ Hn) in H. injection H as <- <-.
    right. exists s'. split; reflexivity.
Qed.

Lemma spacing_head :
  forall s,
    powerMarker s = None ->
    prefixb POWER_MARKER (replaceAll_from powerMarker spaced_marker 0 s)
    = false.
Proof.
  intros s Hn.
  destruct (prefixb POWER_MARKER
              (replaceAll_from powerMarker spaced_marker 0 s)) eqn:E;
    [exfalso | reflexivity].
  apply prefixb_spec in E as (r & E). cbn [POWER_MARKER str
    list_ascii_of_string app] in E.
  apply spacing_first in E as [E | (s1 & -> & E)]; [discriminate|].
  symmetry in E.
  apply spacing_first in E as [E | (s2 & -> & E)]; [discriminate|].
  symmetry in E.
  apply spacing_first in E as [E | (s3 & -> & E)]; [discriminate|].
  discriminate Hn.
Qed.

Lemma spacing_apart_bounded :
  forall n s prev,
    length s <= n ->
    markers_apart prev (replaceAll_from powerMarker spaced_marker 0 s)
    = true.
Proof.
  induction n as [|n IH]; intros s prev Hlen.
  - destruct s; [reflexivity | cbn in Hlen; lia].
  - destruct (powerMarker_cases s) as [(r & -> & _) | [Hn _]].
    + rewrite spacing_match.
      change (markers_apart prev
                (spaced_marker
                   ++ replaceAll_from powerMarker spaced_marker 0 r))
        with (markers_apart true
                (replaceAll_from powerMarker spaced_marker 0 r)).
      apply IH. rewrite length_app in Hlen. cbn in Hlen. lia.
    + destruct s as [|c s']; [reflexivity|].
      pose proof (spacing_head _ Hn) as Hh.
      rewrite (spacing_no_match _ _ Hn) in Hh |- *.
      cbn [markers_apart]. rewrite Hh. cbn [andb].
      apply IH. cbn in Hlen. lia.
Qed.

Lemma spacing_apart :
  forall s,
    markers_apart false (replaceAll s powerMarker spaced_marker) = true.
Proof. intros s. apply (spacing_apart_bounded (length s)); lia. Qed.

(** *** Squeezing whitespace keeps the markers apart *)

Lemma squeeze_letter :
  forall c s b, is_space c = false -> squeeze b (c :: s) = c :: squeeze false s.
Proof. intros c s b H. cbn. rewrite H. reflexivity. Qed.

Lemma squeeze_blank :
  forall r, exists t, squeeze false (" "%char :: r) = " "%char :: t.
Proof.
  intros r. cbn [squeeze].
  replace (is_space " "%char) with true by reflexivity.
  destruct (begins_with_space r); eexists; reflexivity.
Qed.

Lemma space_not_letter :
  forall x c, is_space x = false -> is_space c = true -> char_eqb x c = false.
Proof.
  intros x c Hx Hc. destruct (char_eqb x c) eqn:E; [|reflexivity].
  apply char_eqb_eq in E. subst. congruence.
Qed.

(** A word without whitespace stands at the front of the squeezed text
    exactly when it stands at the front of the text. *)
Lemma squeeze_prefix :
  forall p s,
    forallb (fun c => negb (is_space c)) p = true ->
    prefixb p (squeeze false s) = prefixb p s.
Proof.
  induction p as [|x p IH]; intros s Hp; [reflexivity|].
  cbn in Hp. apply andb_true_iff in Hp as [Hx Hp].
  apply negb_true_iff in Hx.
  destruct s as [|c s]; [reflexivity|].
  destruct (is_space c) eqn:Ec.
  - cbn [squeeze]. rewrite Ec.
    destruct (begins_with_space s); cbn [prefixb];
      rewrite !(space_not_letter x) by (assumption || reflexivity);
      reflexivity.
  - rewrite (squeeze_letter _ _ _ Ec). cbn [prefixb].
    rewrite IH by exact Hp. reflexivity.
Qed.

Lemma marker_letters :
  forallb (fun c => negb (is_space c)) POWER_MARKER = true.
Proof. reflexivity. Qed.

Lemma marker_not_at_space :
  forall c s, is_space c = true -> prefixb POWER_MARKER (c :: s) = false.
Proof.
  intros c s H. cbn [POWER_MARKER str list_ascii_of_string prefixb].
  rewrite (space_not_letter "("%char c) by (assumption || reflexivity).
  reflexivity.
Qed.

Lemma squeeze_apart :
  forall u prev,
    markers_apart prev u = true ->
    markers_apart prev (squeeze false u) = true
    /\ markers_apart true (squeeze true u) = true.
Proof.
  induction u as [|c s IH]; intros prev H; [split; reflexivity|].
  cbn [markers_apart] in H. apply andb_true_iff in H as [Hhead Htail].
  destruct (IH _ Htail) as [IH1 IH2].
  destruct (is_space c) eqn:Ec.
  - cbn [squeeze]. rewrite Ec. split; [|exact IH2].
    destruct (begins_with_space s); cbn [markers_apart].
    + rewrite (marker_not_at_space " "%char) by reflexivity.
      cbn [andb]. exact IH2.
    + rewrite (marker_not_at_space c) by exact Ec.
      cbn [andb]. exact IH1.
  - rewrite !(squeeze_letter _ _ _ Ec).
    assert (Hm : prefixb POWER_MARKER (c :: squeeze false s)
                 = prefixb POWER_MARKER (c :: s)).
    { rewrite <- (squeeze_letter c s false Ec).
      apply squeeze_prefix, marker_letters. }
    cbn [markers_apart]. rewrite Hm, IH1, !andb_true_r.
    destruct (prefixb POWER_MARKER (c :: s)) eqn:E; [|split; reflexivity].
    apply andb_true_iff in Hhead as [Hprev Hnext]. subst prev.
    cbn [andb].
    apply prefixb_spec in E as (r & E).
    rewrite E in Hnext.
    change (skipn 3 (POWER_MARKER ++ r)) with r in Hnext.
    apply prefixb_spec in Hnext as (r' & ->).
    rewrite <- (squeeze_letter c s false Ec), E.
    destruct (squeeze_blank r') as (t & Ht).
    change (squeeze false (POWER_MARKER ++ str " " ++ r'))
      with (POWER_MARKER ++ squeeze false (" "%char :: r')).
    rewrite Ht. split; reflexivity.
Qed.

(** *** Reading the property off *)

Lemma markers_apart_occurrence :
  forall a b prev,
    markers_apart prev (a ++ POWER_MARKER ++ b) = true ->
    (a = [] -> prev = true)
    /\ (forall a' c, a = a' ++ [c] -> c = " "%char)
    /\ exists b', b = " "%char :: b'.
Proof.
  induction a as [|c a IH]; intros b prev H.
  - change (markers_apart prev ([] ++ POWER_MARKER ++ b))
      with (prev && prefixb (str " ") b
            && markers_apart false (skipn 1 POWER_MARKER ++ b)) in H.
    apply andb_true_iff in H as [H _].
    apply andb_true_iff in H as [Hp Hb].
    split; [intros _; exact Hp|].
    split; [intros [|? ?] ? ?; discriminate|].
    apply prefixb_spec in Hb as (b' & ->). exists b'; reflexivity.
  - cbn [app markers_apart] in H. apply andb_true_iff in H as [_ H].
    destruct (IH _ _ H) as (Hnil & Hlast & Hb).
    split; [discriminate|]. split; [|exact Hb].
    intros a' x E. destruct a' as [|y a'].
    + cbn in E. injection E as -> ->.
      specialize (Hnil eq_refl). apply char_eqb_eq in Hnil.
      exact Hnil.
    + cbn in E. injection E as _ E. exact (Hlast _ _ E).
Qed.

(** *** The marker is not lost *)

Definition strong_marker : jsstring := str "(*) </strong>".

Lemma strong_marker_kept :
  forall s,
    includes s POWER_MARKER = true ->
    includes (replaceAll_from closingStrongMarker strong_marker 0 s)
             POWER_MARKER = true.
Proof.
  induction s as [|c s IH]; intros H; [discriminate|].
  cbn [replaceAll_from].
  destruct (closingStrongMarker (c :: s)) as [[len g]|] eqn:Em.
  - apply includes_app_l. reflexivity.
  - apply includes_cases in H as [H | H];
      [|apply includes_cons, IH, H].
    apply prefixb_spec in H as (r & H).
    cbn in H. injection H as -> ->.
    apply includes_front. reflexivity.
Qed.

Lemma spaced_marker_kept :
  forall s,
    includes s POWER_MARKER = true ->
    includes (replaceAll_from powerMarker spaced_marker 0 s)
             POWER_MARKER = true.
Proof.
  induction s as [|c s IH]; intros H; [discriminate|].
  destruct (powerMarker_cases (c :: s)) as [(r & -> & _) | [Hn Hp]].
  - rewrite spacing_match. apply includes_app_l. reflexivity.
  - rewrite (spacing_no_match _ _ Hn).
    apply includes_cases in H as [H | H]; [congruence|].
    apply includes_cons, IH, H.
Qed.

Lemma squeeze_marker_kept :
  forall s b,
    includes s POWER_MARKER = true ->
    includes (squeeze b s) POWER_MARKER = true.
Proof.
  induction s as [|c s IH]; intros b H; [discriminate|].
  apply includes_cases in H as [H | H].
  - assert (Ec : is_space c = false).
    { destruct (is_space c) eqn:Ec; [|reflexivity].
      rewrite (marker_not_at_space c s Ec) in H. discriminate. }
    rewrite (squeeze_letter _ _ _ Ec), <- (squeeze_letter c s false Ec).
    apply includes_front. rewrite squeeze_prefix by apply marker_letters.
    exact H.
  - cbn [squeeze].
    destruct (is_space c); [destruct b; [|destruct (begins_with_space s)]|];
      try apply includes_cons; apply IH, H.
Qed.

Lemma cleanTossupText_apart :
  forall text, markers_apart false (cleanTossupText text) = true.
Proof.
  intros text. unfold cleanTossupText.
  rewrite removeExtraSpaces_squeeze.
  apply squeeze_apart, spacing_apart.
Qed.

(** X21. In the text [cleanTossupText] returns every power marker has a
    blank in front of it and a blank behind it; and a text that has a power
    marker keeps one, which then is a word of its own when the text is split
    at the blanks. *)
Theorem cleanTossupText_marker_apart :
  forall text : jsstring,
    (forall a b,
        cleanTossupText text = a ++ POWER_MARKER ++ b ->
        (exists a', a = a' ++ str " ") /\ (exists b', b = str " " ++ b'))
    /\ (includes text POWER_MARKER = true ->
        In POWER_MARKER (split_on " "%char (cleanTossupText text))).
Proof.
  intros text.
  assert (Hocc : forall a b,
             cleanTossupText text = a ++ POWER_MARKER ++ b ->
             (exists a', a = a' ++ str " ")
             /\ (exists b', b = str " " ++ b')).
  { intros a b E.
    pose proof (cleanTossupText_apart text) as H. rewrite E in H.
    apply markers_apart_occurrence in H as (Hnil & Hlast & Hb).
    split; [|exact Hb].
    destruct (exists_last (l := a)) as (a' & c & Ea).
    - intros ->. specialize (Hnil eq_refl). discriminate.
    - exists a'. rewrite Ea, (Hlast _ _ Ea). reflexivity. }
  split; [exact Hocc|].
  intros Hin.
  assert (Hout : includes (cleanTossupText text) POWER_MARKER = true).
  { unfold cleanTossupText. rewrite removeExtraSpaces_squeeze.
    apply squeeze_marker_kept, spaced_marker_kept, strong_marker_kept, Hin. }
  apply includes_occurrence in Hout as (a & b & E).
  destruct (Hocc a b E) as ((a' & ->) & (b' & ->)).
  rewrite E.
  replace ((a' ++ str " ") ++ POWER_MARKER ++ str " " ++ b')
    with (a' ++ " "%char :: POWER_MARKER ++ " "%char :: b')
    by (rewrite <- app_assoc; reflexivity).
  apply split_on_between. reflexivity.
Qed.

End MarkerFacts.

(** ** Query parameters *)

Module FetchFacts.
Import JsFacts TextFacts Fetch.

Definition nonempty (p : jsstring) : bool := negb (length p =? 0).

Lemma combineParams_eq :
  forall ps, combineParams ps = join (str "&") (filter nonempty ps).
Proof. reflexivity. Qed.

(** Joined non-empty texts give the empty text only when there are
    none. *)
Lemma join_nonempty :
  forall sep ws,
    forallb nonempty ws = true -> join sep ws = [] -> ws = [].
Proof.
  intros sep [|w ws] Hne H; [reflexivity|]. exfalso.
  cbn in Hne. apply andb_true_iff in Hne as [Hw _].
  destruct w as [|c w]; [discriminate|].
  destruct ws; discriminate.
Qed.

Lemma filter_nonempty :
  forall ps, forallb nonempty (filter nonempty ps) = true.
Proof.
  intros ps. apply forallb_forall. intros p Hp.
  apply filter_In in Hp. apply Hp.
Qed.

Lemma combineParams_nil_iff :
  forall ps, combineParams ps = [] <-> filter nonempty ps = [].
Proof.
  intros ps. rewrite combineParams_eq. split.
  - apply join_nonempty, filter_nonempty.
  - intros ->. reflexivity.
Qed.

Lemma join_flat :
  forall sep (F X Y : list jsstring),
    F <> [] ->
    forallb nonempty X = true -> forallb nonempty Y = true ->
    join sep X = join sep Y ->
    join sep (join sep F :: X) = join sep (F ++ Y).
Proof.
  intros sep F X Y HF HX HY H.
  destruct X as [|x X].
  - symmetry in H. apply join_nonempty in H; [|exact HY].
    rewrite H, app_nil_r. reflexivity.
  - assert (HYne : Y <> []).
    { intros ->. apply join_nonempty in H; [discriminate | exact HX]. }
    rewrite join_cons by discriminate.
    rewrite join_app by assumption. rewrite H. reflexivity.
Qed.

(** X22. Combining groups that were combined one by one is combining all
    their parameters at once: a group without parameters leaves no trace, no
    [&] is doubled and none stands at either end. *)
Theorem combineParams_flatten :
  forall groups : list (list jsstring),
    combineParams (map combineParams groups) = combineParams (concat groups).
Proof.
  induction groups as [|g gs IH]; [reflexivity|].
  cbn [map concat]. rewrite (combineParams_eq (g ++ _)), filter_app.
  rewrite (combineParams_eq (_ :: _)). cbn [filter].
  rewrite !combineParams_eq in IH.
  destruct (filter nonempty g) as [|p F] eqn:Eg.
  - assert (Hg : combineParams g = [])
      by (apply combineParams_nil_iff, Eg).
    rewrite Hg. cbn [nonempty length Nat.eqb negb app]. exact IH.
  - assert (Hg : nonempty (combineParams g) = true).
    { destruct (combineParams g) eqn:E; [|reflexivity].
      apply combineParams_nil_iff in E. congruence. }
    rewrite Hg, (combineParams_eq g), Eg.
    apply join_flat;
      [discriminate | apply filter_nonempty | apply filter_nonempty
       | exact IH].
Qed.

Definition no_ampersand (p : jsstring) : bool :=
  negb (existsb (fun c => char_eqb c "&"%char) p).

(** X23. When no parameter contains [&], splitting the combined text at [&]
    gives back exactly the non-empty parameters, in order. *)
Theorem combineParams_split :
  forall params : list jsstring,
    forallb no_ampersand params = true ->
    filter nonempty params <> [] ->
    split_on "&"%char (combineParams params) = filter nonempty params.
Proof.
  intros params Hamp Hne. rewrite combineParams_eq.
  apply (split_on_join_free "&"%char); [exact Hne|].
  apply forallb_forall. intros p Hp. apply filter_In in Hp as [Hp _].
  rewrite forallb_forall in Hamp. exact (Hamp p Hp).
Qed.

Lemma combineParams_split_witness :
  split_on "&"%char
           (combineParams [str "text=cat"; []; str "limit=10"; []])
  = [str "text=cat"; str "limit=10"].
Proof.
  apply (combineParams_split
           [str "text=cat"; []; str "limit=10"; []] eq_refl).
  discriminate.
Defined.

Section Created.
Variable numberToString : Z -> jsstring.

(** X24. [createParams] always sends [limit] and [offset], last and in this
    order, with 10 and 0 where the caller gave none; whatever comes before
    them ends with [&]. *)
Theorem createParams_limit_offset :
  forall p : FetchParams,
    let tail :=
      str "limit=" ++ numberToString (orElse (limit p) 10%Z)
      ++ str "&offset=" ++ numberToString (orElse (offset p) 0%Z) in
    createParams numberToString p = tail
    \/ exists front, createParams numberToString p
                     = front ++ str "&" ++ tail.
Proof.
  intros p tail. unfold createParams. cbv zeta.
  set (L := str "limit=" ++ numberToString (orElse (limit p) 10%Z)).
  set (O := str "offset=" ++ numberToString (orElse (offset p) 0%Z)).
  match goal with
  | |- combineParams [?a; ?b; ?c; ?d; ?e; L; O] = _ \/ _ =>
      change [a; b; c; d; e; L; O] with ([a; b; c; d; e] ++ [L; O]);
      generalize [a; b; c; d; e]
  end.
  intros xs. rewrite combineParams_eq, filter_app.
  assert (HLO : filter nonempty [L; O] = [L; O]) by reflexivity.
  rewrite HLO.
  assert (Htail : join (str "&") [L; O] = tail).
  { cbn [join]. unfold tail, L, O. rewrite <- !app_assoc. reflexivity. }
  destruct (filter nonempty xs) as [|x F].
  - left. exact Htail.
  - right. exists (join (str "&") (x :: F)).
    rewrite join_app by discriminate. rewrite Htail. reflexivity.
Qed.

End Created.

End FetchFacts.

(** ** The settings dialog *)

Module SettingsFacts.
Import Settings.

Section Handlers.
Variable SUBCATEGORY_MAP : nat -> option nat.

(** No selected subcategory belongs to a selected category. *)
Definition exclusive (categories subcategories : list nat) : Prop :=
  forall sc c,
    In sc subcategories -> SUBCATEGORY_MAP sc = Some c -> ~ In c categories.

(** X25. Whatever was selected before, after either handler no selected
    subcategory belongs to a selected category: the handler takes the chosen
    options as they are and drops from the other selection what they cover,
    adding nothing to it. *)
Theorem handlers_keep_selections_exclusive :
  forall (categories subcategories options : list nat),
    (let '(newCategories, newSubcategories) :=
       onCategoriesChange SUBCATEGORY_MAP subcategories options in
     newCategories = options
     /\ incl newSubcategories subcategories
     /\ exclusive newCategories newSubcategories)
    /\ (let '(newSubcategories, newCategories) :=
          onSubcategoriesChange SUBCATEGORY_MAP categories options in
        newSubcategories = options
        /\ incl newCategories categories
        /\ exclusive newCategories newSubcategories).
Proof.
  intros cats subs options. split; cbn.
  - split; [reflexivity|]. split.
    + intros sc H. apply filter_In in H. apply H.
    + intros sc c Hsc Hmap Hc.
      apply filter_In in Hsc as [_ H]. rewrite Hmap in H. cbn in H.
      apply negb_true_iff in H.
      assert (existsb (Nat.eqb c) options = true); [|congruence].
      apply existsb_exists. exists c. split; [exact Hc | apply Nat.eqb_refl].
  - split; [reflexivity|]. split.
    + intros c H. apply filter_In in H. apply H.
    + intros sc c Hsc Hmap Hc.
      apply filter_In in Hc as [_ H]. apply negb_true_iff in H.
      assert (existsb (fun e => match e with
                                | Some c' => Nat.eqb c' c
                                | None => false
                                end) (map SUBCATEGORY_MAP options) = true);
        [|congruence].
      apply existsb_exists. exists (Some c). split.
      * rewrite <- Hmap. apply in_map, Hsc.
      * apply Nat.eqb_refl.
Qed.

End Handlers.

End SettingsFacts.

(** ** Numerals in words *)

Module NumeralFacts.
Import JsFacts TextFacts Normalizer NormalizerFacts.

Definition convertWord (w : jsstring) : option jsstring :=
  if isNumeric w then toWords w else Some w.

Lemma convertNumberToWords_eq :
  forall s,
    convertNumberToWords s
    = match mapM convertWord (split_on " "%char s) with
      | Some ws => Some (join (str " ") ws)
      | None => None
      end.
Proof. reflexivity. Qed.

Lemma mapM_None_iff :
  forall {A B} (f : A -> option B) l,
    mapM f l = None <-> exists x, In x l /\ f x = None.
Proof.
  intros A B f; induction l as [|x l IH]; cbn [mapM].
  - split; [discriminate | intros (x & [] & _)].
  - destruct (f x) as [y|] eqn:E.
    + destruct (mapM f l) as [ys|].
      * split; [discriminate|].
        intros (z & [<- | Hz] & Hf); [congruence|].
        assert (Hnone : Some ys = None)
          by (apply IH; exists z; split; assumption).
        discriminate Hnone.
      * split; [|reflexivity]. intros _.
        destruct (proj1 IH eq_refl) as (z & Hz & Hf).
        exists z. split; [right; exact Hz | exact Hf].
    + split; [|reflexivity]. intros _. exists x.
      split; [left; reflexivity | exact E].
Qed.

(** X26. [convertNumberToWords] throws exactly when one of the words between
    the blanks of the text is a numeral of magnitude beyond 2^53 - 1. *)
Theorem convertNumberToWords_throws_iff :
  forall s : jsstring,
    convertNumberToWords s = None
    <-> exists w,
          In w (split_on " "%char s)
          /\ isNumeric w = true
          /\ (MAX_SAFE_INTEGER < Z.abs (parseInt w))%Z.
Proof.
  intros s. rewrite convertNumberToWords_eq.
  destruct (mapM convertWord (split_on " "%char s)) as [ws|] eqn:E.
  - split; [discriminate|]. intros (w & Hw & Hn & Hbig). exfalso.
    assert (Hnone : mapM convertWord (split_on " "%char s) = None).
    { apply mapM_None_iff. exists w. split; [exact Hw|].
      unfold convertWord, toWords. rewrite Hn.
      destruct (Z.leb_spec (Z.abs (parseInt w)) MAX_SAFE_INTEGER);
        [lia | reflexivity]. }
    congruence.
  - split; [|reflexivity]. intros _.
    apply mapM_None_iff in E as (w & Hw & Hf).
    exists w. split; [exact Hw|].
    unfold convertWord, toWords in Hf.
    destruct (isNumeric w); [|discriminate]. split; [reflexivity|].
    destruct (Z.leb_spec (Z.abs (parseInt w)) MAX_SAFE_INTEGER);
      [discriminate | assumption].
Qed.

(** A text in which no word between blanks is a numeral. *)
Definition settled (u : jsstring) : bool :=
  forallb (fun w => negb (isNumeric w)) (split_on " "%char u).

Lemma digits_piece :
  forall ws p, In p ws -> digits p <= total_digits ws.
Proof.
  induction ws as [|w ws IH]; intros p Hp; [destruct Hp|].
  cbn [total_digits]. destruct Hp as [<- | Hp]; [lia|].
  specialize (IH p Hp). lia.
Qed.

Lemma digit_free_settled :
  forall u, digit_free u -> settled u = true.
Proof.
  intros u Hu. apply forallb_forall. intros p Hp.
  apply negb_true_iff. destruct (isNumeric p) eqn:E; [|reflexivity].
  apply isNumeric_digits in E.
  pose proof (digits_piece _ _ Hp) as Hle.
  rewrite digits_split in Hle. unfold digit_free in Hu. lia.
Qed.

Lemma mapM_convert_settled :
  forall ws us,
    mapM convertWord ws = Some us ->
    (forall w, In w ws -> split_on " "%char w = [w]) ->
    forallb settled us = true.
Proof.
  induction ws as [|w ws IH]; intros us H Hw.
  - injection H as <-. reflexivity.
  - cbn [mapM] in H.
    destruct (convertWord w) as [u|] eqn:Eu; [|discriminate].
    destruct (mapM convertWord ws) as [us'|] eqn:Eus; [|discriminate].
    injection H as <-. cbn [forallb].
    rewrite (IH us' eq_refl) by (intros x Hx; apply Hw; right; exact Hx).
    rewrite andb_true_r. unfold convertWord in Eu.
    destruct (isNumeric w) eqn:En.
    + apply digit_free_settled. eapply toWords_digit_free, Eu.
    + injection Eu as <-. unfold settled.
      rewrite (Hw w (or_introl eq_refl)). cbn. rewrite En. reflexivity.
Qed.

Lemma mapM_nonempty :
  forall {A B} (f : A -> option B) l ys,
    mapM f l = Some ys -> l <> [] -> ys <> [].
Proof.
  intros A B f [|x l] ys H Hne; [contradiction|].
  cbn in H. destruct (f x); [|discriminate].
  destruct (mapM f l); [|discriminate]. injection H as <-. discriminate.
Qed.

Lemma forallb_concat :
  forall {A} (p : A -> bool) ls,
    forallb p (concat ls) = forallb (forallb p) ls.
Proof.
  intros A p; induction ls as [|l ls IH]; [reflexivity|].
  cbn. rewrite forallb_app, IH. reflexivity.
Qed.

(** X27. What [convertNumberToWords] returns has no numeral left among its
    words, so a second pass returns it unchanged; and the first pass returns
    its input unchanged exactly when the input has no numeral among its
    words. *)
Theorem convertNumberToWords_settles :
  forall s t : jsstring,
    convertNumberToWords s = Some t ->
    no_numeral t = true
    /\ convertNumberToWords t = Some t
    /\ (t = s <-> no_numeral s = true).
Proof.
  intros s t H.
  assert (Ht : no_numeral t = true).
  { rewrite convertNumberToWords_eq in H.
    destruct (mapM convertWord (split_on " "%char s)) as [us|] eqn:E;
      [|discriminate].
    injection H as <-. unfold no_numeral.
    change (str " ") with [" "%char].
    rewrite split_on_join.
    - rewrite forallb_concat, forallb_mapped.
      apply (mapM_convert_settled _ _ E).
      intros w Hw. apply split_on_free. eapply split_on_pieces, Hw.
    - apply (mapM_nonempty _ _ _ E).
      destruct (split_on_cons " "%char s) as (w & ws & ->). discriminate. }
  split; [exact Ht|].
  split; [apply convertNumberToWords_no_numeral, Ht|].
  split.
  - intros <-. exact Ht.
  - intros Hs. rewrite (convertNumberToWords_no_numeral _ Hs) in H.
    congruence.
Qed.

Lemma convertNumberToWords_settles_witness :
  convertNumberToWords (str "3 blind mice") = Some (str "three blind mice")
  /\ convertNumberToWords (str "three blind mice")
     = Some (str "three blind mice").
Proof.
  split; [reflexivity|].
  apply (convertNumberToWords_settles
           (str "3 blind mice") (str "three blind mice") eq_refl).
Defined.

End NumeralFacts.

(** ** Answer lines *)

Module AnswerlineFacts.
Import JsFacts TextFacts Similarity Normalizer NormalizerFacts.
Import Parser ParserFacts Judging JudgingFacts JudgeSession JudgeUse.

(** *** What the parsers found is what the judge accepts *)

Lemma mapM_In :
  forall {A B} (f : A -> option B) l ys x,
    mapM f l = Some ys -> In x l ->
    exists y, f x = Some y /\ In y ys.
Proof.
  intros A B f; induction l as [|a l IH]; intros ys x H Hx; [destruct Hx|].
  cbn in H. destruct (f a) as [b|] eqn:Ea; [|discriminate].
  destruct (mapM f l) as [bs|] eqn:El; [|discriminate].
  injection H as <-. destruct Hx as [<- | Hx].
  - exists b. split; [exact Ea | left; reflexivity].
  - destruct (IH bs x eq_refl Hx) as (y & Hy & Hin).
    exists y. split; [exact Hy | right; exact Hin].
Qed.

Section Accepted.
Context `{Nlp}.

(** X28. The primary answer, which is the text in front of the first bracket
    or " or ", and every answer marked bold are acceptable once normalized,
    whenever the normalized text is not empty; and the judge built from the
    line judges such a text correct. *)
Theorem primary_answer_accepted :
  forall (answerline : jsstring) (J : Judge),
    newJudge answerline = Some J ->
    let cleaned := cleanAnswerline answerline in
    forall a,
      primaryAnswer (remove cleaned anyTag) = Some a
      \/ In a (map removeTags (getTextBetweenTags cleaned (str "strong"))) ->
      exists n,
        normalizeAnswer a = Some n
        /\ (n <> [] ->
            In n (acceptableAnswers J) /\ judge J n = (correct, J)).
Proof.
  intros line J HJ cleaned a Ha. unfold newJudge in HJ.
  destruct (parseAcceptableAnswers line) as [acc|] eqn:Eacc; [|discriminate].
  destruct (parsePromptableAnswers line) as [pro|]; [|discriminate].
  injection HJ as <-. cbn [acceptableAnswers].
  unfold parseAcceptableAnswers in Eacc. cbv zeta in Eacc.
  fold cleaned in Eacc.
  destruct (mapM normalizeAnswer _) as [ns|] eqn:Ens; [|discriminate].
  injection Eacc as <-.
  match type of Ens with
  | mapM _ ?candidates = _ => assert (Hin : In a candidates)
  end.
  { unfold combine. apply in_or_app. left. apply in_or_app.
    destruct Ha as [Ha | Ha]; [right | left; exact Ha].
    apply in_or_app. left. unfold primaryAnswers. rewrite Ha.
    left; reflexivity. }
  destruct (mapM_In _ _ _ _ Ens Hin) as (n & Hn & Hns).
  exists n. split; [exact Hn|]. intros Hne.
  assert (Hacc : In n (getUnique (filter emptyStringFilter ns)))
    by (apply In_parsed; split; assumption).
  split; [exact Hacc|].
  apply (judge_same_letters_correct _ n n); [reflexivity | exact Hacc].
Qed.

End Accepted.

Definition paris_line : jsstring := str "Paris [accept Lutetia or Paname]".

Definition paris_judge : Judge :=
  {| acceptableAnswers := [str "paris"; str "lutetia"; str "paname"];
     promptableAnswers := [] |}.

Lemma primary_answer_accepted_witness :
  exists n,
    Reference.normalizeAnswer (str "Paris ") = Some n
    /\ (n <> [] ->
        In n (acceptableAnswers paris_judge)
        /\ judge paris_judge n = (correct, paris_judge)).
Proof.
  apply (@primary_answer_accepted Reference.nlp paris_line paris_judge
                                  eq_refl).
  left; reflexivity.
Defined.

(** *** Lines without "prompt on" *)

Lemma matchAll_from_sound :
  forall r s skip idx m,
    In m (matchAll_from r skip idx s) ->
    exists a t len,
      s = a ++ t
      /\ r t = Some (len, m_group m)
      /\ m_text m = firstn len t
      /\ m_index m = idx + length a.
Proof.
  intros r; induction s as [|c s IH]; intros skip idx m H; [destruct H|].
  assert (Hrec : forall k,
             In m (matchAll_from r k (S idx) s) ->
             exists a t len,
               c :: s = a ++ t /\ r t = Some (len, m_group m)
               /\ m_text m = firstn len t
               /\ m_index m = idx + length a).
  { intros k Hk. destruct (IH _ _ _ Hk) as (a & t & len & -> & Hr & Ht & Hi).
    exists (c :: a), t, len. repeat split; try assumption.
    cbn [length]. lia. }
  cbn [matchAll_from] in H. destruct skip as [|k]; [|exact (Hrec _ H)].
  destruct (r (c :: s)) as [[len g]|] eqn:Er; [|exact (Hrec _ H)].
  destruct H as [<- | H]; [|exact (Hrec _ H)].
  exists [], (c :: s), len. cbn. repeat split; try assumption. lia.
Qed.

Lemma answerMatcher_inv :
  forall keywords t len g,
    answerMatcher keywords t = Some (len, g) ->
    exists d k rest,
      t = d :: k ++ rest
      /\ In k keywords
      /\ len = 1 + length k + length g
      /\ (length g <= length rest)%nat.
Proof.
  intros keywords t len g H. unfold answerMatcher in H.
  destruct t as [|d r]; [discriminate|].
  destruct (is_opening d); [|discriminate].
  destruct (find (fun k => prefixb k r) keywords) as [k|] eqn:Ek;
    [|discriminate].
  apply find_some in Ek as [Hk Hp].
  apply prefixb_spec in Hp as (rest & ->).
  rewrite skipn_exact in H.
  destruct (lazy_capture rest) as [g'|] eqn:Eg; [|discriminate].
  injection H as <- <-.
  exists d, k, rest. repeat split; try assumption.
  clear -Eg. revert g' Eg.
  induction rest as [|c rest IH]; intros g Eg.
  - cbn in Eg. injection Eg as <-. cbn; lia.
  - cbn [lazy_capture] in Eg.
    destruct (lookahead (c :: rest)); [injection Eg as <-; cbn; lia|].
    destruct (is_line_terminator c); [discriminate|].
    destruct (lazy_capture rest) as [g'|]; [|discriminate].
    injection Eg as <-. specialize (IH g' eq_refl). cbn; lia.
Qed.

Lemma first_word :
  forall w rest n,
    existsb (fun c => char_eqb c " "%char) w = false ->
    hd [] (split_on " "%char (firstn (length w + 1 + n)
                                    (w ++ " "%char :: rest)))
    = w.
Proof.
  intros w rest n Hw.
  replace (length w + 1 + n) with (length w + (1 + n)) by lia.
  rewrite firstn_app_2. cbn [firstn Nat.add].
  rewrite split_on_word by exact Hw. reflexivity.
Qed.

(** A match of [promptRegex] in a text without "prompt on" is one of the
    word "or", and the filter turns it down. *)
Lemma prompt_filter_without_prompt_on :
  forall input m,
    includes input (str "prompt on") = false ->
    In m (matchAll input promptRegex) ->
    filterNegativeAnswers input m PromptType = false.
Proof.
  intros input m Hno Hm.
  apply matchAll_from_sound in Hm as (a & t & len & Hinput & Hr & Htext & _).
  apply answerMatcher_inv in Hr as (d & k & rest & -> & Hk & -> & Hlen).
  destruct Hk as [<- | [<- | []]].
  - exfalso. rewrite Hinput in Hno.
    assert (includes (a ++ d :: str "prompt on " ++ rest)
                     (str "prompt on") = true); [|congruence].
    change (a ++ d :: str "prompt on " ++ rest)
      with (a ++ [d] ++ str "prompt on" ++ (" "%char :: rest)).
    rewrite app_assoc. apply includes_at.
  - assert (Hprefix : hd [] (split_on " "%char (skipn 1 (m_text m)))
                      = str "or").
    { rewrite Htext.
      change (skipn 1 (firstn (1 + length (str "or ") + length (m_group m))
                              (d :: str "or " ++ rest)))
        with (firstn (length (str "or") + 1 + length (m_group m))
                     (str "or" ++ " "%char :: rest)).
      apply first_word. reflexivity. }
    unfold filterNegativeAnswers. cbv zeta. rewrite Hprefix.
    replace (str_eqb (str "or") (str "accept")) with false by reflexivity.
    replace (str_eqb (str "or") (str "prompt")) with false by reflexivity.
    replace (str_eqb (str "or") (str "or")) with true by reflexivity.
    cbn [andb].
    rewrite lastIndexOf_absent; [reflexivity|].
    destruct (includes (slice input _ _) (str "prompt on")) eqn:E;
      [|reflexivity].
    unfold slice in E. apply includes_stretch in E. congruence.
Qed.

Section Promptable.
Context `{Nlp}.

(** X29. An answer line that, once cleaned, has no underlined text and does
    not contain "prompt on" has no promptable answers, and the judge built
    from it never prompts. *)
Theorem no_prompt_without_prompt_on :
  forall (answerline : jsstring),
    let cleaned := cleanAnswerline answerline in
    getTextBetweenTags cleaned (str "u") = [] ->
    includes (remove cleaned anyTag) (str "prompt on") = false ->
    parsePromptableAnswers answerline = Some []
    /\ forall J userAnswer,
         newJudge answerline = Some J ->
         fst (judge J userAnswer) <> prompt.
Proof.
  intros line cleaned Hu Hno.
  assert (Hp : parsePromptableAnswers line = Some []).
  { unfold parsePromptableAnswers. cbv zeta. fold cleaned. rewrite Hu.
    rewrite filter_none; [reflexivity|].
    intros m Hm. apply prompt_filter_without_prompt_on; assumption. }
  split; [exact Hp|].
  intros J u HJ. unfold newJudge in HJ. rewrite Hp in HJ.
  destruct (parseAcceptableAnswers line) as [acc|]; [|discriminate].
  injection HJ as <-. rewrite judge_eq.
  cbn [acceptableAnswers promptableAnswers].
  destruct (Qgtb (score u acc) MIN_RATING); [cbn; discriminate|].
  rewrite score_empty. cbn. discriminate.
Qed.

End Promptable.

Lemma no_prompt_without_prompt_on_witness :
  Reference.parsePromptableAnswers paris_line = Some [].
Proof.
  apply (@no_prompt_without_prompt_on Reference.nlp paris_line
                                      eq_refl eq_refl).
Defined.

End AnswerlineFacts.

(** ** Answer lines of the form X [prompt on Y] *)

Module PromptOnFacts.
Import JsFacts TextFacts Similarity Normalizer NormalizerFacts.
Import Parser ParserFacts Judging JudgingFacts JudgeSession JudgeUse.

Section PromptOn.
Variables X Y : jsstring.
Hypothesis HX : phrase X = true.
Hypothesis HY : phrase Y = true.

Definition prompt_on_line : jsstring :=
  X ++ str " [prompt on " ++ Y ++ str "]".

(** The text behind X and its blank. *)
Definition prompt_part : jsstring := str "[prompt on " ++ Y ++ str "]".

Lemma prompt_on_split : prompt_on_line = (X ++ str " ") ++ prompt_part.
Proof.
  unfold prompt_on_line, prompt_part. rewrite <- app_assoc. reflexivity.
Qed.

Lemma prompt_on_plain :
  forall c, existsb (char_eqb c) (str "<>()&,;") = true ->
            free_of [c] prompt_on_line = true.
Proof.
  intros c Hc.
  destruct (phrase_parts _ HX) as (_ & _ & HpX & _).
  destruct (phrase_parts _ HY) as (_ & _ & HpY & _).
  assert (Hin : existsb (char_eqb c) (str "<>[]()&,;") = true).
  { cbn in Hc |- *. repeat (apply orb_true_iff in Hc as [Hc | Hc]);
      rewrite ?Hc, ?orb_true_r; try reflexivity; discriminate. }
  unfold prompt_on_line, plain in *. rewrite !free_of_app.
  rewrite (free_of_char _ c X Hin HpX), (free_of_char _ c Y Hin HpY).
  cbn in Hc. rewrite !orb_false_r in Hc.
  repeat (apply orb_true_iff in Hc as [Hc | Hc]);
    apply char_eqb_eq in Hc; subst c; reflexivity.
Qed.

Lemma prompt_on_well_spaced : well_spaced prompt_on_line = true.
Proof.
  destruct (phrase_parts _ HX) as (HnX & HwX & _ & _).
  destruct (phrase_parts _ HY) as (HnY & HwY & _ & _).
  change prompt_on_line
    with (X ++ " "%char :: str "[prompt" ++ " "%char :: str "on"
            ++ " "%char :: Y ++ ["]"%char]).
  assert (HY' : well_spaced (Y ++ ["]"%char]) = true)
    by (apply well_spaced_snoc; [assumption | assumption | reflexivity]).
  repeat (apply well_spaced_join; try assumption; try reflexivity;
          try discriminate);
    try (intros E; apply app_eq_nil in E as [E _]; contradiction);
    try (intros E; apply app_eq_nil in E as [_ E]; discriminate).
Qed.

(** The line is clean as it stands. *)
Lemma cleanAnswerline_prompt_on :
  cleanAnswerline prompt_on_line = prompt_on_line.
Proof.
  unfold cleanAnswerline.
  rewrite (remove_none ltgt prompt_on_line)
    by (eapply never_at_free;
        [apply delimited_starts | apply (prompt_on_plain "&"%char eq_refl)]).
  rewrite (remove_none aside prompt_on_line)
    by (eapply never_at_free;
        [apply aside_starts | apply (prompt_on_plain "("%char eq_refl)]).
  rewrite (replaceChar_free "("%char "["%char)
    by apply (prompt_on_plain "("%char eq_refl).
  rewrite (replaceChar_free ")"%char "]"%char)
    by apply (prompt_on_plain ")"%char eq_refl).
  apply normalizeSpacing_id, prompt_on_well_spaced.
Qed.

Lemma prefixb_longer :
  forall p q s, prefixb p s = false -> prefixb (p ++ q) s = false.
Proof.
  intros p q s H. destruct (prefixb (p ++ q) s) eqn:E; [|reflexivity].
  apply prefixb_spec in E as (r & ->).
  rewrite <- app_assoc, prefixb_app in H. discriminate.
Qed.

(** No keyword of the prompts stands in X. *)
Lemma promptRegex_never_in_X :
  never_at promptRegex (X ++ str " ") prompt_part.
Proof.
  destruct (phrase_parts _ HX) as (_ & _ & HpX & HsX).
  intros a1 a2 E Hne. destruct a2 as [|d a2]; [contradiction|].
  unfold promptRegex, answerMatcher. cbn [app].
  destruct (is_opening d) eqn:Eo; [|reflexivity].
  assert (d = " "%char) as ->.
  { destruct (opening_cases d Eo) as [Hd | Hd]; [exact Hd|].
    destruct (suffix_head _ _ _ _ E) as [Hd' | (p1 & p2 & Hp)];
      [exact Hd'|].
    exfalso. eapply (plain_char X d HpX Hd). exact Hp. }
  assert (Hno : forall w,
             In w stopWords ->
             prefixb (w ++ str " ") (a2 ++ prompt_part) = false).
  { intros w Hw.
    destruct (prefixb (w ++ str " ") (a2 ++ prompt_part)) eqn:Ep;
      [|reflexivity].
    exfalso.
    assert (Ep' : prefixb (str " " ++ w ++ str " ")
                          ((" "%char :: a2) ++ prompt_part) = true).
    { cbn [str list_ascii_of_string app prefixb].
      rewrite char_eqb_refl. exact Ep. }
    change prompt_part
      with ("["%char :: str "prompt on " ++ Y ++ str "]") in Ep'.
    apply prefixb_barrier in Ep';
      [| apply stopWords_no_bracket; [exact Hw | cbn; auto]].
    pose proof (stop_inside_false X w HsX Hw) as Hf.
    rewrite E in Hf.
    rewrite (includes_suffix a1 _ _ Ep') in Hf. discriminate Hf. }
  cbn [find].
  assert (Hp : In (str "prompt") stopWords) by (cbn; auto).
  change (str "prompt on ") with ((str "prompt" ++ str " ") ++ str "on ").
  rewrite (prefixb_longer _ (str "on ") _ (Hno (str "prompt") Hp)).
  change (str "or ") with (str "or" ++ str " ").
  rewrite (Hno (str "or") stopWords_or).
  reflexivity.
Qed.

Definition prompt_match : Match :=
  {| m_index := length X + 1;
     m_text := str "[prompt on " ++ Y;
     m_group := Y |}.

Lemma matchAll_prompt_on :
  matchAll prompt_on_line promptRegex = [prompt_match].
Proof.
  unfold matchAll. rewrite prompt_on_split.
  rewrite matchAll_from_through by exact promptRegex_never_in_X.
  change prompt_part
    with ("["%char :: str "prompt on " ++ Y ++ str "]").
  cbn [matchAll_from].
  unfold promptRegex at 1.
  rewrite (answerMatcher_at _ "["%char (str "prompt on ") (Y ++ str "]") Y
             eq_refl);
    [| cbn [find]; rewrite prefixb_app; reflexivity
     | exact (lazy_capture_Z Y HY)].
  f_equal.
  - unfold prompt_match. f_equal.
    + rewrite length_app. reflexivity.
    + change ("["%char :: str "prompt on " ++ Y ++ str "]")
        with ((str "[prompt on " ++ Y) ++ str "]").
      replace (1 + length (str "prompt on ") + length Y)
        with (length (str "[prompt on " ++ Y))
        by (rewrite length_app; reflexivity).
      apply firstn_exact.
  - replace (1 + length (str "prompt on ") + length Y - 1)
      with (length (str "prompt on " ++ Y))
      by (rewrite length_app; cbn [length str list_ascii_of_string]; lia).
    rewrite app_assoc, matchAll_from_skip. reflexivity.
Qed.

Lemma filter_prompt_match :
  filterNegativeAnswers prompt_on_line prompt_match PromptType = true.
Proof.
  unfold filterNegativeAnswers, prompt_match. cbn [m_index m_text].
  change (skipn 1 (str "[prompt on " ++ Y))
    with (str "prompt" ++ " "%char :: str "on " ++ Y).
  rewrite split_on_word by reflexivity. cbn [hd].
  change (false && str_eqb (str "prompt") (str "accept")) with false.
  change (true && str_eqb (str "prompt") (str "prompt")) with true.
  cbn match. unfold none_of, endsWith.
  rewrite prompt_on_split.
  replace (length X + 1) with (length (X ++ str " "))
    by (rewrite length_app; reflexivity).
  rewrite firstn_exact, rev_app_distr. reflexivity.
Qed.

End PromptOn.

Section PromptOnParse.
Context `{Nlp}.

(** X30. For phrases X and Y (not empty, single blanks, no markup, bracket,
    parenthesis, comma or semicolon, none of the parser's stop words as a
    word) and a Y whose normalized form is not empty: the promptable answers
    of "X [prompt on Y]" are the normalized Y alone, and the judge built
    from the line, given the normalized Y, answers [correct] or answers
    [prompt] and has no promptable answer left. *)
Theorem prompt_on_answer_prompted :
  forall X Y nY : jsstring,
    phrase X = true -> phrase Y = true ->
    normalizeAnswer Y = Some nY -> nY <> [] ->
    parsePromptableAnswers (prompt_on_line X Y) = Some [nY]
    /\ forall J,
         newJudge (prompt_on_line X Y) = Some J ->
         promptableAnswers J = [nY]
         /\ (judge J nY = (correct, J)
             \/ judge J nY
                = (prompt, {| acceptableAnswers := acceptableAnswers J;
                              promptableAnswers := [] |})).
Proof.
  intros X Y nY HX HY HnY Hne.
  assert (Hp : parsePromptableAnswers (prompt_on_line X Y) = Some [nY]).
  { unfold parsePromptableAnswers.
    rewrite (cleanAnswerline_prompt_on X Y HX HY).
    assert (Hfree : markup_free_tags (prompt_on_line X Y) = true)
      by (apply (prompt_on_plain X Y HX HY "<"%char eq_refl)).
    destruct (no_tags_lt _ (str "u") Hfree) as [-> ->].
    rewrite (matchAll_prompt_on X Y HX HY).
    cbn [filter]. rewrite (filter_prompt_match X Y).
    cbn [map app m_group prompt_match]. unfold combine.
    cbn [map app mapM]. rewrite HnY.
    destruct nY as [|c nY]; [contradiction Hne; reflexivity|].
    reflexivity. }
  split; [exact Hp|].
  intros J HJ. unfold newJudge in HJ. rewrite Hp in HJ.
  destruct (parseAcceptableAnswers (prompt_on_line X Y)) as [acc|];
    [|discriminate].
  injection HJ as <-. cbn [promptableAnswers acceptableAnswers].
  split; [reflexivity|].
  rewrite judge_eq. cbn [promptableAnswers acceptableAnswers].
  destruct (Qgtb (score nY acc) MIN_RATING); [left; reflexivity | right].
  assert (Hpass : passes nY [nY])
    by (apply (passes_same_letters nY nY);
        [left; reflexivity | reflexivity]).
  pose proof Hpass as Hq. apply Qgtb_true in Hq. unfold passes in Hq.
  rewrite Hq.
  destruct (prompt_removes_best nY [nY] Hpass)
    as (n & p & Hn & Hsp & _).
  rewrite Hsp. destruct n as [|n]; [reflexivity|].
  destruct n; discriminate Hn.
Qed.

End PromptOnParse.

Lemma prompt_on_answer_prompted_witness :
  Reference.parsePromptableAnswers (str "Hamlet [prompt on the Dane]")
  = Some [str "the dane"].
Proof.
  apply (@prompt_on_answer_prompted
           Reference.nlp (str "Hamlet") (str "the Dane") (str "the dane")
           eq_refl eq_refl eq_refl).
  discriminate.
Defined.

End PromptOnFacts.
